(** * Verification of the security-analysis pipeline of [openai-proxy.cjs]

    The development embeds the proxy's pipeline in Rocq: the segmenter
    ([componentBasedChunking], [chunkWithSlidingWindow]), the remote call
    client ([callOpenAIWithRetry]), the output recovery parser
    ([cleanAndFixJSON]), the request handler of
    [/api/analyze-security] with its batch reduction, the relevance
    ranker ([findRelevantChunks]) and the handlers of
    [/api/process-text] and [/api/openai].

    JavaScript strings are sequences of UTF-16 code units; regular
    expressions are run by a small backtracking matcher that follows the
    priorities of the ECMAScript one; Numbers are doubles, every
    operation rounding its exact result to the nearest one; effects
    (requests, sleeps, random numbers, clock reads, exceptions) are
    threaded through a state and exception monad. *)

From Stdlib Require Import String Ascii DecimalString.
From Stdlib Require Import List Permutation NArith ZArith Bool Lia.
From Stdlib Require Import QArith Qround Qpower Qreduction Lqa.
From Equations Require Import Equations.
Import ListNotations.
Close Scope Q_scope.
Open Scope nat_scope.

Set Implicit Arguments.

(** ** JavaScript strings *)

Module JsString.

(** A code unit of a JavaScript string. *)
Definition char := N.
Definition jsstring := list char.

(** ASCII literal as a JavaScript string. *)
Definition js (s : string) : jsstring :=
  map N_of_ascii (list_ascii_of_string s).

Definition dquote : char := 34%N.   (* the double quote character *)
Definition squote : char := 39%N.   (* the single quote character *)
Definition bslash : char := 92%N.   (* the backslash *)
Definition LF : char := 10%N.
Definition CR : char := 13%N.

Definition char_eqb (a b : char) : bool := N.eqb a b.

Fixpoint eqb (a b : jsstring) : bool :=
  match a, b with
  | [], [] => true
  | x :: a', y :: b' => char_eqb x y && eqb a' b'
  | _, _ => false
  end.

(** [WhiteSpace] and [LineTerminator] code points: what [trim] strips
    and what the class [\s] matches. *)
Definition is_space (c : char) : bool :=
  ((9 <=? c) && (c <=? 13) || (c =? 32) || (c =? 160) || (c =? 5760)
   || ((8192 <=? c) && (c <=? 8202)) || (c =? 8232) || (c =? 8233)
   || (c =? 8239) || (c =? 8287) || (c =? 12288) || (c =? 65279))%N.

(** Line terminators: what [.] refuses and where a multi-line [$] holds. *)
Definition is_line_terminator (c : char) : bool :=
  ((c =? 10) || (c =? 13) || (c =? 8232) || (c =? 8233))%N.

Definition is_digit (c : char) : bool := ((48 <=? c) && (c <=? 57))%N.
Definition is_upper (c : char) : bool := ((65 <=? c) && (c <=? 90))%N.
Definition is_lower (c : char) : bool := ((97 <=? c) && (c <=? 122))%N.

Definition to_lower (c : char) : char := if is_upper c then (c + 32)%N else c.
Definition to_upper (c : char) : char := if is_lower c then (c - 32)%N else c.

(** [String.prototype.toUpperCase], on the ASCII letters (the only
    letters of the strings it is applied to here). *)
Definition toUpperCase (s : jsstring) : jsstring := map to_upper s.

Fixpoint trimStart (s : jsstring) : jsstring :=
  match s with
  | c :: s' => if is_space c then trimStart s' else s
  | [] => []
  end.

Definition trimEnd (s : jsstring) : jsstring := rev (trimStart (rev s)).

(** [String.prototype.trim]. *)
Definition trim (s : jsstring) : jsstring := trimEnd (trimStart s).

Fixpoint starts_with (p s : jsstring) : bool :=
  match p, s with
  | [], _ => true
  | x :: p', y :: s' => char_eqb x y && starts_with p' s'
  | _ :: _, [] => false
  end.

(** [String.prototype.includes]. *)
Fixpoint includes (s p : jsstring) : bool :=
  starts_with p s ||
  match s with
  | [] => false
  | _ :: s' => includes s' p
  end.

(** [String.prototype.slice(a, b)] for [0 <= a <= b]. *)
Definition slice (s : jsstring) (a b : nat) : jsstring :=
  firstn (b - a) (skipn a s).

(** [Array.prototype.join]. *)
Fixpoint join (sep : jsstring) (l : list jsstring) : jsstring :=
  match l with
  | [] => []
  | [x] => x
  | x :: l' => x ++ sep ++ join sep l'
  end.

(** [String.prototype.repeat]. *)
Fixpoint repeat_str (s : jsstring) (n : nat) : jsstring :=
  match n with
  | O => []
  | S n' => s ++ repeat_str s n'
  end.

(** Decimal rendering of a number in a template literal. *)
Definition of_nat (n : nat) : jsstring :=
  js (NilEmpty.string_of_uint (Nat.to_uint n)).

End JsString.
Import JsString.

(** ** Numbers

    The Numbers of the proxy's arithmetic are IEEE 754 doubles.  Those
    that arise here are not negative: a double is kept as the rational
    it is, and a computation gives the double nearest to its exact
    result, ties to the even mantissa, or [Infinity] past the largest
    double. *)

Module Number.

Inductive number := Finite (q : Q) | Infinity.

Definition pow2 (e : Z) : Q := (2 ^ e)%Q.

(** The binade of a positive rational: [2^e <= q < 2^(e+1)]. *)
Definition ilog2 (q : Q) : Z :=
  let e := (Z.log2 (Qnum q) - Z.log2 (Z.pos (Qden q)))%Z in
  if Qle_bool (pow2 e) q then e else (e - 1)%Z.

(** The nearest integer, ties to the even one. *)
Definition rne (m : Q) : Z :=
  let f := Qfloor m in
  match (m - inject_Z f ?= 1 # 2)%Q with
  | Lt => f
  | Gt => (f + 1)%Z
  | Eq => if Z.even f then f else (f + 1)%Z
  end.

(** The exponent of the last place of the doubles around [q]: 53
    significant bits, and no exponent under that of the subnormals. *)
Definition ulp_exponent (q : Q) : Z := Z.max (ilog2 q - 52) (-1074).

Definition nearest (q : Q) : Q :=
  let ex := ulp_exponent q in
  (inject_Z (rne (q / pow2 ex)) * pow2 ex)%Q.

(** The Number for a rational that is not negative. *)
Definition round (q : Q) : number :=
  if Qle_bool q 0 then Finite 0
  else if Qle_bool (pow2 1024) (nearest q) then Infinity
  else Finite (Qred (nearest q)).

(** [x + y] *)
Definition num_add (x y : number) : number :=
  match x, y with
  | Finite a, Finite b => round (a + b)
  | _, _ => Infinity
  end.

(** [x * k] for a whole constant [k], not zero. *)
Definition num_scale (x : number) (k : positive) : number :=
  match x with
  | Finite a => round (a * inject_Z (Z.pos k))
  | Infinity => Infinity
  end.

(** [x <= y] and [x < y] *)
Definition num_le (x y : number) : Prop :=
  match x, y with
  | Finite a, Finite b => (a <= b)%Q
  | _, Infinity => True
  | Infinity, Finite _ => False
  end.

Definition num_lt (x y : number) : Prop :=
  match x, y with
  | Finite a, Finite b => (a < b)%Q
  | Finite _, Infinity => True
  | Infinity, _ => False
  end.

(** Half the distance between a normal double and the next, relative
    to the double. *)
Definition unit_roundoff : Q := pow2 (-53).

(** A double: a rational that rounding leaves as it is. *)
Definition is_double (q : Q) : Prop := round q = Finite (Qred q).

(** The whole number a run of digits denotes, after the digits read
    so far. *)
Fixpoint digits_value (acc : Z) (s : jsstring) : Z :=
  match s with
  | [] => acc
  | c :: s' => digits_value (10 * acc + (Z.of_N c - 48)) s'
  end.

(** The digits a text begins with, and the rest of it. *)
Fixpoint span_digits (s : jsstring) : jsstring * jsstring :=
  match s with
  | c :: s' =>
      if is_digit c then let (ds, r) := span_digits s' in (c :: ds, r)
      else ([], s)
  | [] => ([], [])
  end.

(** The number a JSON number text denotes, its sign apart: a whole
    part, a fraction and an exponent. *)
Definition number_magnitude (t : jsstring) : Q :=
  let t := match t with
           | c :: t' => if (c =? 45)%N then t' else t
           | [] => t
           end in
  let (int, r1) := span_digits t in
  let (frac, r2) := match r1 with
                    | c :: r => if (c =? 46)%N then span_digits r else ([], r1)
                    | [] => ([], r1)
                    end in
  let e := match r2 with
           | c :: r =>
               if ((c =? 101) || (c =? 69))%N then
                 match r with
                 | sign :: ds =>
                     if (sign =? 45)%N then (- digits_value 0 ds)%Z
                     else if (sign =? 43)%N then digits_value 0 ds
                     else digits_value 0 r
                 | [] => 0%Z
                 end
               else 0%Z
           | [] => 0%Z
           end in
  (inject_Z (digits_value 0 (int ++ frac)) * 10 ^ (e - Z.of_nat (length frac)))%Q.

End Number.
Import Number.

(** ** Regular expressions

    Every quantifier of the proxy's patterns applies to one character
    class and every group is a flat span, so a pattern is an alternation
    of atom sequences.  The matcher backtracks in the order of the
    ECMAScript semantics: alternatives left to right, greedy
    quantifiers longest first, lazy ones shortest first. *)

Module Regex.

Definition cls := char -> bool.

Inductive atom :=
| One (p : cls)         (* one character of the class *)
| Opt (p : cls)         (* p?  *)
| Star (p : cls)        (* p*  *)
| Plus (p : cls)        (* p+  *)
| LazyStar (p : cls)    (* p*? *)
| GOpen (g : nat)       (* start of capture group g *)
| GClose (g : nat)      (* end of capture group g *)
| EOI                   (* $ *)
| EOL.                  (* $ under the m flag *)

Definition branch := list atom.
Definition regex := list branch.

(** Captures: the input left when a group opened, and the text of the
    groups already closed. *)
Record mstate := { opened : list (nat * jsstring); closed : list (nat * jsstring) }.

Definition mstate0 : mstate := {| opened := []; closed := [] |}.

Fixpoint lookup {A} (g : nat) (l : list (nat * A)) : option A :=
  match l with
  | [] => None
  | (k, v) :: l' => if Nat.eqb k g then Some v else lookup g l'
  end.

Definition open_group (g : nat) (s : jsstring) (st : mstate) : mstate :=
  {| opened := (g, s) :: opened st; closed := closed st |}.

Definition close_group (g : nat) (s : jsstring) (st : mstate) : mstate :=
  match lookup g (opened st) with
  | Some s0 =>
      {| opened := opened st;
         closed := (g, firstn (length s0 - length s) s0) :: closed st |}
  | None => st
  end.

(** Text of capture group [g] ([$g], [match[g]]). *)
Definition group (g : nat) (st : mstate) : jsstring :=
  match lookup g (closed st) with
  | Some t => t
  | None => []
  end.

(** Match a sequence of atoms at the head of [s]; the result is the
    input left after the match. *)
Fixpoint run (p : branch) (s : jsstring) (st : mstate) {struct p}
  : option (jsstring * mstate) :=
  match p with
  | [] => Some (s, st)
  | One c :: p' =>
      match s with
      | x :: s' => if c x then run p' s' st else None
      | [] => None
      end
  | Opt c :: p' =>
      match s with
      | x :: s' =>
          if c x then
            match run p' s' st with
            | Some r => Some r
            | None => run p' s st
            end
          else run p' s st
      | [] => run p' s st
      end
  | Star c :: p' =>
      (fix star (s : jsstring) : option (jsstring * mstate) :=
         match s with
         | x :: s' =>
             if c x then
               match star s' with
               | Some r => Some r
               | None => run p' s st
               end
             else run p' s st
         | [] => run p' s st
         end) s
  | Plus c :: p' =>
      match s with
      | x :: s' =>
          if c x then
            (fix star (s : jsstring) : option (jsstring * mstate) :=
               match s with
               | x :: s' =>
                   if c x then
                     match star s' with
                     | Some r => Some r
                     | None => run p' s st
                     end
                   else run p' s st
               | [] => run p' s st
               end) s'
          else None
      | [] => None
      end
  | LazyStar c :: p' =>
      (fix lazy (s : jsstring) : option (jsstring * mstate) :=
         match run p' s st with
         | Some r => Some r
         | None =>
             match s with
             | x :: s' => if c x then lazy s' else None
             | [] => None
             end
         end) s
  | GOpen g :: p' => run p' s (open_group g s st)
  | GClose g :: p' => run p' s (close_group g s st)
  | EOI :: p' =>
      match s with
      | [] => run p' s st
      | _ :: _ => None
      end
  | EOL :: p' =>
      match s with
      | [] => run p' s st
      | x :: _ => if is_line_terminator x then run p' s st else None
      end
  end.

(** Match the alternation at the head of [s]. *)
Fixpoint match_here (r : regex) (s : jsstring) : option (jsstring * mstate) :=
  match r with
  | [] => None
  | b :: r' =>
      match run b s mstate0 with
      | Some m => Some m
      | None => match_here r' s
      end
  end.

(** A match: the text before it, the matched text, the input after it
    and the captures. *)
Record found := {
  before : jsstring; matched : jsstring; after : jsstring; caps : mstate }.

(** Leftmost match in [s], [pre] being what was skipped so far
    (reversed). *)
Fixpoint search_from (r : regex) (pre : jsstring) (s : jsstring) : option found :=
  match match_here r s with
  | Some (rest, st) =>
      Some {| before := rev pre;
              matched := firstn (length s - length rest) s;
              after := rest; caps := st |}
  | None =>
      match s with
      | [] => None
      | x :: s' => search_from r (x :: pre) s'
      end
  end.

(** [String.prototype.match] with a pattern without the g flag (also
    [RegExp.prototype.exec] from index 0). *)
Definition search (r : regex) (s : jsstring) : option found :=
  search_from r [] s.

(** [RegExp.prototype.test] of a pattern with the g flag: the search
    starts at [lastIndex], which is moved to the end of the match, or
    reset to 0 when there is none.  Returns the answer and the new
    [lastIndex]. *)
Definition test_g (r : regex) (lastIndex : nat) (s : jsstring) : bool * nat :=
  if Nat.ltb (length s) lastIndex then (false, 0)
  else
    match search_from r [] (skipn lastIndex s) with
    | Some f => (true, lastIndex + length (before f) + length (matched f))
    | None => (false, 0)
    end.

(** Replacement text: literal pieces and group references. *)
Inductive piece := Lit (t : jsstring) | Ref (g : nat).

Fixpoint expand (tmpl : list piece) (st : mstate) : jsstring :=
  match tmpl with
  | [] => []
  | Lit t :: tmpl' => t ++ expand tmpl' st
  | Ref g :: tmpl' => group g st ++ expand tmpl' st
  end.

(** [String.prototype.replace] with a pattern with the g flag.  [skip]
    counts the characters of the last match still to pass over. *)
Fixpoint replace_from (r : regex) (tmpl : list piece) (skip : nat) (s : jsstring)
  : jsstring :=
  match s with
  | [] =>
      match skip, match_here r [] with
      | O, Some (_, st) => expand tmpl st
      | _, _ => []
      end
  | x :: s' =>
      match skip with
      | S k => replace_from r tmpl k s'
      | O =>
          match match_here r s with
          | Some (rest, st) =>
              match length s - length rest with
              | O => expand tmpl st ++ x :: replace_from r tmpl 0 s'
              | S k => expand tmpl st ++ replace_from r tmpl k s'
              end
          | None => x :: replace_from r tmpl 0 s'
          end
      end
  end.

Definition replace_g (r : regex) (tmpl : list piece) (s : jsstring) : jsstring :=
  replace_from r tmpl 0 s.

(** Number of matches of a pattern with the g flag:
    [(s.match(r) || []).length]. *)
Fixpoint count_from (r : regex) (skip : nat) (s : jsstring) : nat :=
  match s with
  | [] =>
      match skip, match_here r [] with
      | O, Some _ => 1
      | _, _ => 0
      end
  | _ :: s' =>
      match skip with
      | S k => count_from r k s'
      | O =>
          match match_here r s with
          | Some (rest, _) =>
              match length s - length rest with
              | O => S (count_from r 0 s')
              | S k => S (count_from r k s')
              end
          | None => count_from r 0 s'
          end
      end
  end.

Definition count_g (r : regex) (s : jsstring) : nat := count_from r 0 s.

(** [String.prototype.split] with a pattern that matches no empty
    text.  [cur] is the piece being read (reversed). *)
Fixpoint split_from (r : regex) (skip : nat) (cur : jsstring) (s : jsstring)
  : list jsstring :=
  match s with
  | [] => [rev cur]
  | x :: s' =>
      match skip with
      | S k => split_from r k cur s'
      | O =>
          match match_here r s with
          | Some (rest, _) =>
              match length s - length rest with
              | O => split_from r 0 (x :: cur) s'
              | S k => rev cur :: split_from r k [] s'
              end
          | None => split_from r 0 (x :: cur) s'
          end
      end
  end.

Definition split (r : regex) (s : jsstring) : list jsstring :=
  split_from r 0 [] s.

(** *** Character classes and literals *)

Definition chr (x : char) : cls := fun y => char_eqb x y.
(** A pattern character under the i flag. *)
Definition chr_i (x : char) : cls := fun y => char_eqb (to_lower x) (to_lower y).
Definition any : cls := fun _ => true.                     (* [\s\S] *)
Definition dot : cls := fun y => negb (is_line_terminator y).
Definition none_of (l : list char) : cls :=
  fun y => negb (existsb (char_eqb y) l).
Definition one_of (l : list char) : cls :=
  fun y => existsb (char_eqb y) l.
(** [[a-zA-Z0-9_]] *)
Definition word : cls :=
  fun y => is_lower y || is_upper y || is_digit y || char_eqb y 95%N.

Definition lit (t : string) : branch := map (fun x => One (chr x)) (js t).
Definition lit_i (t : string) : branch := map (fun x => One (chr_i x)) (js t).

End Regex.
Import Regex.

(** ** Exceptions and results *)

(** What the error body of a remote reply carries, as far as the client
    reads it: [data.error.message], a string in the replies of the
    service, when it is there and not empty (an empty one is falsy and
    not looked at). *)
Record error_body := { error_message : option jsstring }.

(** [err.response] of a rejected request. *)
Record error_response := { status : Z; data : error_body }.

(** The values thrown in the proxy. *)
Inductive exn :=
| SyntaxError (message : jsstring)          (* thrown by JSON.parse *)
| TypeError (message : jsstring)
| Error (message : jsstring)                (* new Error(message) *)
| AxiosError (message : jsstring) (response : option error_response).

Inductive result (A : Type) :=
| Ok (a : A)
| Throw (e : exn).
Arguments Ok {A} a.
Arguments Throw {A} e.

(** [err.message] *)
Definition exn_message (e : exn) : jsstring :=
  match e with
  | SyntaxError m | TypeError m | Error m | AxiosError m _ => m
  end.

(** ** The segmenter *)

Module Segmenter.

Definition componentsPattern : regex :=
  [lit_i "Component:"; lit_i "Shape:"; lit_i "Entity:"; lit_i "Service:";
   lit_i "Database:"; lit_i "API:"; lit_i "Server:"; lit_i "Client:";
   lit_i "Interface:"].

Definition metadataPattern : regex :=
  [lit_i "Label:"; lit_i "Description:"; lit_i "Metadata:";
   lit_i "Properties:"; lit_i "Attributes:"; lit_i "Tag:"; lit_i "Info:"].

Definition connectionsPattern : regex :=
  [lit_i "Connection:"; lit_i "Flow:"; lit_i "Relationship:"; lit_i "Link:";
   lit_i "Arrow:"; lit_i "Data Flow:"; lit_i "Connects to:";
   lit_i "Interacts with:"; lit_i "Sends data to:";
   lit_i "Receives data from:"].

(** [/\n\n+/] *)
Definition paragraphBreak : regex := [[One (chr LF); Plus (chr LF)]].

(** The class Q: a double or a single quote. *)
Definition quote : cls := one_of [dquote; squote].
(** The class N of the names: every character but the two quotes, the
    line feed and the comma. *)
Definition nameChar : cls := none_of [dquote; squote; LF; 44%N].

(** [Q?(N+)Q?] *)
Definition quotedName : branch :=
  [Opt quote; GOpen 1; Plus nameChar; GClose 1; Opt quote].

(** [/from\s+Q?(N+)Q?/i] *)
Definition fromPattern : regex :=
  [lit_i "from" ++ [Plus is_space] ++ quotedName].
(** [/source\s*[:=]\s*Q?(N+)Q?/i] *)
Definition sourcePattern : regex :=
  [lit_i "source" ++ [Star is_space; One (one_of [58%N; 61%N]); Star is_space]
     ++ quotedName].
(** [/to\s+Q?(N+)Q?/i] *)
Definition toPattern : regex :=
  [lit_i "to" ++ [Plus is_space] ++ quotedName].
(** [/target\s*[:=]\s*Q?(N+)Q?/i] *)
Definition targetPattern : regex :=
  [lit_i "target" ++ [Star is_space; One (one_of [58%N; 61%N]); Star is_space]
     ++ quotedName].

Inductive chunk_type := component | connection | metadata | connection_group.

(** The [type] strings of the chunk objects. *)
Definition type_name (t : chunk_type) : jsstring :=
  match t with
  | component => js "component"
  | connection => js "connection"
  | metadata => js "metadata"
  | connection_group => js "connection_group"
  end.

Record chunk := { type : chunk_type; content : jsstring }.

(** The three arrays filled by the classification loop, and the
    [lastIndex] of the three patterns, which carry the g flag and are
    shared by all the paragraphs of one call. *)
Record classes := {
  componentChunks : list chunk;
  metadataChunks : list chunk;
  connectionChunks : list chunk;
  componentsLast : nat;
  connectionsLast : nat;
  metadataLast : nat }.

Definition classes0 : classes :=
  {| componentChunks := []; metadataChunks := []; connectionChunks := [];
     componentsLast := 0; connectionsLast := 0; metadataLast := 0 |}.

(** The category given to a paragraph, and the state the patterns are
    left in: the [if]/[else if] chain of the [forEach] callback. *)
Definition categorize (st : classes) (paragraph : jsstring)
  : chunk_type * (nat * nat * nat) :=
  let (isComponent, cl) := test_g componentsPattern (componentsLast st) paragraph in
  if isComponent then (component, (cl, connectionsLast st, metadataLast st))
  else
    let (isConnection, nl) :=
      test_g connectionsPattern (connectionsLast st) paragraph in
    if isConnection then (connection, (cl, nl, metadataLast st))
    else
      let (isMetadata, ml) := test_g metadataPattern (metadataLast st) paragraph in
      if isMetadata then (metadata, (cl, nl, ml))
      else if includes paragraph (js "->") || includes paragraph [8596%N]
              || includes paragraph (js "connects")
              || includes paragraph (js "flow")
      then (connection, (cl, nl, ml))
      else if (length paragraph <? 200)
              && (includes paragraph (js ":") || includes paragraph (js "="))
      then (metadata, (cl, nl, ml))
      else (component, (cl, nl, ml)).

(** One call of the [forEach] callback: the paragraph is pushed,
    trimmed, on the array of its category. *)
Definition classify (st : classes) (paragraph : jsstring) : classes :=
  let '(t, (cl, nl, ml)) := categorize st paragraph in
  let c := {| type := t; content := trim paragraph |} in
  match t with
  | component =>
      {| componentChunks := componentChunks st ++ [c];
         metadataChunks := metadataChunks st;
         connectionChunks := connectionChunks st;
         componentsLast := cl; connectionsLast := nl; metadataLast := ml |}
  | metadata =>
      {| componentChunks := componentChunks st;
         metadataChunks := metadataChunks st ++ [c];
         connectionChunks := connectionChunks st;
         componentsLast := cl; connectionsLast := nl; metadataLast := ml |}
  | _ =>
      {| componentChunks := componentChunks st;
         metadataChunks := metadataChunks st;
         connectionChunks := connectionChunks st ++ [c];
         componentsLast := cl; connectionsLast := nl; metadataLast := ml |}
  end.

Definition paragraphs (text : jsstring) : list jsstring :=
  split paragraphBreak text.

Definition classified (text : jsstring) : classes :=
  fold_left classify (paragraphs text) classes0.

(** [groupedConnections]: an object used as a map.  Its keys all hold
    an underscore, so none is an array index and [Object.values] lists
    the groups in insertion order. *)
Definition groups := list (jsstring * list chunk).

Fixpoint own (key : jsstring) (g : groups) : option (list chunk) :=
  match g with
  | [] => None
  | (k, v) :: g' => if eqb k key then Some v else own key g'
  end.

(** [groupedConnections[key] = v] *)
Fixpoint put (key : jsstring) (v : list chunk) (g : groups) : groups :=
  match g with
  | [] => [(key, v)]
  | (k, w) :: g' => if eqb k key then (k, v) :: g' else (k, w) :: put key v g'
  end.

(** The properties every object inherits from [Object.prototype]:
    reading one of them on [groupedConnections] gives a value that is
    truthy and is no array. *)
Definition inherited (key : jsstring) : bool :=
  existsb (eqb key)
    [js "constructor"; js "__defineGetter__"; js "__defineSetter__";
     js "hasOwnProperty"; js "__lookupGetter__"; js "__lookupSetter__";
     js "isPrototypeOf"; js "propertyIsEnumerable"; js "toString";
     js "valueOf"; js "__proto__"; js "toLocaleString"].

(** [m[1]] of [content.match(a) || content.match(b)] *)
Definition match_either (a b : regex) (s : jsstring) : option jsstring :=
  match search a s with
  | Some f => Some (group 1 (caps f))
  | None =>
      match search b s with
      | Some f => Some (group 1 (caps f))
      | None => None
      end
  end.

(** One call of the grouping callback. *)
Definition group_connection (g : groups) (conn : chunk) : result groups :=
  match match_either fromPattern sourcePattern (content conn),
        match_either toPattern targetPattern (content conn) with
  | Some source, Some target =>
      let key := source ++ js "_" ++ target in
      match own key g with
      | Some members => Ok (put key (members ++ [conn]) g)
      | None =>
          if inherited key
          then Throw (TypeError (js "groupedConnections[key].push is not a function"))
          else Ok (put key [conn] g)
      end
  | _, _ =>
      let key := js "conn_" ++ of_nat (length g) in
      Ok (put key [conn] g)
  end.

Fixpoint group_connections (g : groups) (conns : list chunk) : result groups :=
  match conns with
  | [] => Ok g
  | conn :: conns' =>
      match group_connection g conn with
      | Ok g' => group_connections g' conns'
      | Throw e => Throw e
      end
  end.

(** The chunk made of one group. *)
Definition group_chunk (members : list chunk) : chunk :=
  {| type := connection_group;
     content := join [LF; LF] (map content members) |}.

(** [allChunks] *)
Definition allChunks (text : jsstring) : result (list chunk) :=
  let cls := classified text in
  match group_connections [] (connectionChunks cls) with
  | Ok g =>
      Ok (componentChunks cls ++ metadataChunks cls
            ++ map (fun kv => group_chunk (snd kv)) g)
  | Throw e => Throw e
  end.

(** [chunk.content && chunk.content.trim().length > 10] *)
Definition has_content (c : chunk) : bool :=
  match content c with
  | [] => false
  | _ :: _ => 10 <? length (trim (content c))
  end.

(** [`[${chunk.type.toUpperCase()}]\n${chunk.content}`] *)
Definition tagged (c : chunk) : jsstring :=
  js "[" ++ toUpperCase (type_name (type c)) ++ js "]" ++ [LF] ++ content c.

(** The body of the [try] block. *)
Definition structuralPass (text : jsstring) : result (list jsstring) :=
  match allChunks text with
  | Ok chunks => Ok (map tagged (filter has_content chunks))
  | Throw e => Throw e
  end.

Section SlidingWindow.

(** LangChain's [RecursiveCharacterTextSplitter] with the separators
    of the proxy: [text_splitter chunkSize chunkOverlap text] is the
    [pageContent] of the documents it creates, or what it throws. *)
Variable text_splitter : nat -> nat -> jsstring -> result (list jsstring).

(** The [for] loop of the basic chunking; it runs at most
    [length text] times when [chunkSize] is positive. *)
Fixpoint basic_chunks (fuel i chunkSize : nat) (text : jsstring)
  : list jsstring :=
  match fuel with
  | O => []
  | S fuel' =>
      if i <? length text
      then slice text i (i + chunkSize)
             :: basic_chunks fuel' (i + chunkSize) chunkSize text
      else []
  end.

(** The default [chunkSize], 8000, and [chunkOverlap], 800. *)
Definition defaultChunkSize : nat := 8 * 1000.
Definition defaultChunkOverlap : nat := 800.

Definition chunkWithSlidingWindow (text : jsstring) (chunkSize chunkOverlap : nat)
  : list jsstring :=
  match text_splitter chunkSize chunkOverlap text with
  | Ok chunks => chunks
  | Throw _ => basic_chunks (length text) 0 chunkSize text
  end.

Definition componentBasedChunking (text : jsstring) : list jsstring :=
  match structuralPass text with
  | Ok segments => segments
  | Throw _ => chunkWithSlidingWindow text defaultChunkSize defaultChunkOverlap
  end.

End SlidingWindow.

End Segmenter.

(** ** JSON values *)

Module Json.

(** The values [JSON.parse] returns.  A number is kept as the text
    that denotes it; the members of an object are in insertion
    order. *)
#[local] Unset Elimination Schemes.
Inductive value :=
| JNull
| JBool (b : bool)
| JNumber (text : jsstring)
| JString (s : jsstring)
| JArray (items : list value)
| JObject (members : list (jsstring * value)).
#[local] Set Elimination Schemes.

(** [o[key]] on the members of an object. *)
Fixpoint member (key : jsstring) (ms : list (jsstring * value)) : option value :=
  match ms with
  | [] => None
  | (k, v) :: ms' => if eqb k key then Some v else member key ms'
  end.

(** [o[key] = v]: in place when the key exists, else at the end. *)
Fixpoint set_member (key : jsstring) (v : value) (ms : list (jsstring * value))
  : list (jsstring * value) :=
  match ms with
  | [] => [(key, v)]
  | (k, w) :: ms' =>
      if eqb k key then (k, v) :: ms' else (k, w) :: set_member key v ms'
  end.

(** A number text denotes zero when the double nearest to the number
    it writes is zero: the digits of its mantissa are zeros, or the
    number is too small for a double. *)
Definition zero_text (t : jsstring) : bool :=
  match round (number_magnitude t) with
  | Finite q => Qeq_bool q 0
  | Infinity => false
  end.

(** [ToBoolean]. *)
Definition truthy (v : value) : bool :=
  match v with
  | JNull => false
  | JBool b => b
  | JNumber t => negb (zero_text t)
  | JString s => match s with [] => false | _ => true end
  | JArray _ | JObject _ => true
  end.

End Json.
Import Json.

(** ** Effects

    The proxy talks to a remote service, sleeps, draws random numbers and
    reads the clock.  The world records what was done; what the outside
    answers is given by oracles, indexed by how many times each was
    asked. *)

(** The system prompts; their text is fixed but for the interpolated
    values kept here. *)
Inductive instruction :=
| AnalyzeComponent (i total : nat) (timestamp : jsstring)
| InterimReport (i total : nat) (timestamp : jsstring)
| FinalReport (batches : nat) (timestamp : jsstring).

(** The [data] of a chat completion request. *)
Record payload := {
  model : jsstring; system : instruction; user : jsstring; stream : bool }.

(** A fulfilled request: the HTTP status and the text of the completion,
    [data.choices[0].message.content]. *)
Record response := { response_status : Z; message_content : jsstring }.

(** What [axios] gives: a response, or a rejection with its message and,
    when the service answered, its [response]. *)
Inductive axios_result :=
| Resolved (r : response)
| Rejected (message : jsstring) (r : option error_response).

Record world := {
  sent : list payload;      (* the requests issued, latest first *)
  slept : list number;      (* the durations slept (ms), latest first *)
  drawn : nat;              (* calls of Math.random *)
  ticks : nat }.            (* reads of the clock *)

Definition world0 : world := {| sent := []; slept := []; drawn := 0; ticks := 0 |}.

(** The world after a request, a sleep, a random draw, a clock read. *)
Definition requested (data : payload) (w : world) : world :=
  {| sent := data :: sent w; slept := slept w; drawn := drawn w; ticks := ticks w |}.
Definition asleep (ms : number) (w : world) : world :=
  {| sent := sent w; slept := ms :: slept w; drawn := drawn w; ticks := ticks w |}.
Definition draw (w : world) : world :=
  {| sent := sent w; slept := slept w; drawn := S (drawn w); ticks := ticks w |}.
Definition tick (w : world) : world :=
  {| sent := sent w; slept := slept w; drawn := drawn w; ticks := S (ticks w) |}.

Definition M (A : Type) : Type := world -> result A * world.

Definition ret {A} (a : A) : M A := fun w => (Ok a, w).
Definition throw {A} (e : exn) : M A := fun w => (Throw e, w).
Definition lift {A} (r : result A) : M A := fun w => (r, w).

Definition bind {A B} (m : M A) (k : A -> M B) : M B :=
  fun w =>
    match m w with
    | (Ok a, w') => k a w'
    | (Throw e, w') => (Throw e, w')
    end.

(** [try { m } catch (e) { handler e }] *)
Definition try_catch {A} (m : M A) (handler : exn -> M A) : M A :=
  fun w =>
    match m w with
    | (Ok a, w') => (Ok a, w')
    | (Throw e, w') => handler e w'
    end.

Declare Scope js_scope.
Delimit Scope js_scope with M.
Notation "x <- m ;; k" := (bind m (fun x => k))
  (at level 61, m at next level, right associativity) : js_scope.
Notation "m ;;; k" := (bind m (fun _ => k))
  (at level 61, right associativity) : js_scope.
Open Scope js_scope.

Section Platform.

(** The outside of the proxy. *)
Variable server : nat -> payload -> axios_result.  (* reply to the n-th request *)
Variable random : nat -> Q.                        (* n-th Math.random() *)
Variable clock : nat -> jsstring.                  (* n-th reading, ISO format *)
Variable JSON_parse : jsstring -> result value.
Variable JSON_stringify : value -> jsstring.
Variable text_splitter : nat -> nat -> jsstring -> result (list jsstring).

Definition axios (data : payload) : M response :=
  fun w =>
    match server (length (sent w)) data with
    | Resolved r => (Ok r, requested data w)
    | Rejected m r => (Throw (AxiosError m r), requested data w)
    end.

Definition sleep (ms : number) : M unit := fun w => (Ok tt, asleep ms w).

Definition Math_random : M Q := fun w => (Ok (random (drawn w)), draw w).

(** [new Date().toISOString()] *)
Definition now : M jsstring := fun w => (Ok (clock (ticks w)), tick w).

(** *** The remote call client *)

(** [/try again in (\d+\.\d+)s/] *)
Definition retryHint : regex :=
  [lit "try again in "
     ++ [GOpen 1; Plus is_digit; One (chr 46%N); Plus is_digit; GClose 1;
         One (chr 115%N)]].

Fixpoint before_dot (s : jsstring) : jsstring :=
  match s with
  | [] => []
  | c :: s' => if (c =? 46)%N then [] else c :: before_dot s'
  end.

Fixpoint after_dot (s : jsstring) : jsstring :=
  match s with
  | [] => []
  | c :: s' => if (c =? 46)%N then s' else after_dot s'
  end.

(** The number that a text made of digits, a dot and digits writes. *)
Definition decimal_value (s : jsstring) : Q :=
  (inject_Z (digits_value 0 (before_dot s ++ after_dot s))
   / inject_Z (10 ^ Z.of_nat (length (after_dot s))))%Q.

(** [parseFloat] of such a text: the double nearest to that number. *)
Definition parseFloat (s : jsstring) : number := round (decimal_value s).

(** [Math.ceil] *)
Definition Math_ceil (x : number) : number :=
  match x with
  | Finite a => Finite (inject_Z (Qceiling a))
  | Infinity => Infinity
  end.

(** [err.response && err.response.status === 429] *)
Definition rate_limited (err : exn) : option error_response :=
  match err with
  | AxiosError _ (Some r) => if (status r =? 429)%Z then Some r else None
  | _ => None
  end.

(** [waitTime], in milliseconds, for a rate-limit rejection. *)
Definition waitTimeOf (r : error_response) : number :=
  match error_message (data r) with
  | Some message =>
      match search retryHint message with
      | Some m =>
          num_add (Math_ceil (num_scale (parseFloat (group 1 (caps m))) 1000))
                  (Finite 1000)
      | None => Finite 30000
      end
  | None => Finite 30000
  end.

(** [retries * 5000] *)
Definition backoff (retries : nat) : number :=
  num_scale (Finite (inject_Z (Z.of_nat retries))) 5000.

(** [actualWaitTime] *)
Definition actualWaitTime (waitTime : number) (retries : nat) (jitter : number)
  : number :=
  num_add (num_add waitTime (backoff retries)) jitter.

Definition exhausted (maxRetries : nat) : exn :=
  Error (js "Failed after " ++ of_nat maxRetries ++ js " retries").

(** The [while] loop of [callOpenAIWithRetry] and the [throw] that
    follows it. *)
Equations? retry_loop (data : payload) (maxRetries retries : nat) (w : world)
  : result response * world by wf (S maxRetries - retries) lt :=
  retry_loop data maxRetries retries w with le_lt_dec retries maxRetries => {
    | left Hle =>
        try_catch (axios data) (fun err =>
          match rate_limited err with
          | Some r =>
              let waitTime := waitTimeOf r in
              x <- Math_random ;;
              let jitter := num_scale (Finite x) 1000 in
              sleep (actualWaitTime waitTime retries jitter) ;;;
              (fun w' => retry_loop data maxRetries (S retries) w')
          | None => throw err
          end) w
    | right _ => (Throw (exhausted maxRetries), w) }.
Proof. destruct retries; lia. Qed.

Definition callOpenAIWithRetry (data : payload) (maxRetries : nat) : M response :=
  retry_loop data maxRetries 0.

(** *** The output recovery parser *)

Definition notQuote : cls := none_of [dquote].

(** The three forms of a code fence. *)
Definition fencePattern : regex :=
  [lit "```json" ++ [One (chr LF)]; [One (chr LF)] ++ lit "```"; lit "```"].

(** [/,(\s*[}\]])/g] *)
Definition trailingCommaPattern : regex :=
  [[One (chr 44%N); GOpen 1; Star is_space; One (one_of (js "}]")); GClose 1]].

(** Group 1: an opening brace or a comma and [\s*]; group 2:
    [[a-zA-Z0-9_]+]; group 3: [\s*] and a colon. *)
Definition bareNamePattern : regex :=
  [[GOpen 1; One (one_of (js "{,")); Star is_space; GClose 1;
    GOpen 2; Plus word; GClose 2;
    GOpen 3; Star is_space; One (chr 58%N); GClose 3]].

(** A colon, [\s*], a double quote, group 1: characters other than the
    double quote, [\s*], group 2: a comma or a closing brace. *)
Definition unclosedValuePattern : regex :=
  [[One (chr 58%N); Star is_space; One (chr dquote);
    GOpen 1; Star notQuote; GClose 1; Star is_space;
    GOpen 2; One (one_of (js ",}")); GClose 2]].

(** The same up to group 1, then the end of the text. *)
Definition unclosedEndPattern : regex :=
  [[One (chr 58%N); Star is_space; One (chr dquote);
    GOpen 1; Star notQuote; GClose 1; EOI]].

(** [/\/\/.*$/gm] *)
Definition lineCommentPattern : regex := [lit "//" ++ [Star dot; EOL]].

(** [/\/\*[\s\S]*?\*\//g] *)
Definition blockCommentPattern : regex :=
  [lit "/*" ++ [LazyStar any] ++ lit "*/"].

(** A double quote, [\s*], a colon, [\s*], a double quote, then
    characters other than the double quote, at least one, up to the end
    of the text. *)
Definition danglingValuePattern : regex :=
  [[One (chr dquote); Star is_space; One (chr 58%N); Star is_space;
    One (chr dquote); Star notQuote; One notQuote; EOI]].

(** Group 1: the same without the end of the text; group 2: [\s*] and
    a comma or a closing brace. *)
Definition openValuePattern : regex :=
  [[GOpen 1; One (chr dquote); Star is_space; One (chr 58%N); Star is_space;
    One (chr dquote); Star notQuote; One notQuote; GClose 1;
    GOpen 2; Star is_space; One (one_of (js ",}")); GClose 2]].

(** Three runs of characters other than the double quote, each a
    group, between four double quotes. *)
Definition innerQuotesPattern : regex :=
  [[One (chr dquote); GOpen 1; Star notQuote; GClose 1;
    One (chr dquote); GOpen 2; Star notQuote; GClose 2;
    One (chr dquote); GOpen 3; Star notQuote; GClose 3;
    One (chr dquote)]].

(** Removal of the markdown code fences. *)
Definition stripFences (s : jsstring) : jsstring := replace_g fencePattern [] s.

(** The chain of replacements of the basic cleanup. *)
Definition basicCleanup (jsonString : jsstring) : jsstring :=
  let s := stripFences jsonString in
  let s := replace_g trailingCommaPattern [Ref 1] s in
  let s := replace_g bareNamePattern
             [Ref 1; Lit [dquote]; Ref 2; Lit [dquote]; Ref 3] s in
  let s := replace_g [lit "'"] [Lit [dquote]] s in
  let s := replace_g [[One (chr LF)]] [Lit (js " ")] s in
  let s := replace_g [[Plus is_space]] [Lit (js " ")] s in
  let s := replace_g unclosedValuePattern
             [Lit [58%N; dquote]; Ref 1; Lit [dquote]; Ref 2] s in
  let s := replace_g unclosedEndPattern
             [Lit [58%N; dquote]; Ref 1; Lit [dquote]] s in
  let s := replace_g lineCommentPattern [] s in
  replace_g blockCommentPattern [] s.

(** The more aggressive fixes, applied to the cleaned text. *)
Definition aggressiveCleanup (cleanedJSON : jsstring) : jsstring :=
  let s :=
    match search danglingValuePattern cleanedJSON with
    | Some _ => replace_g openValuePattern [Ref 1; Lit [dquote]; Ref 2] cleanedJSON
    | None => cleanedJSON
    end in
  let s := replace_g innerQuotesPattern
             [Lit [dquote]; Ref 1; Lit [bslash; dquote]; Ref 2;
              Lit [bslash; dquote]; Ref 3; Lit [dquote]] s in
  let openBraces := count_g [lit "{"] s in
  let closeBraces := count_g [lit "}"] s in
  let openBrackets := count_g [lit "["] s in
  let closeBrackets := count_g [lit "]"] s in
  let s := if closeBraces <? openBraces
           then s ++ repeat_str (js "}") (openBraces - closeBraces) else s in
  if closeBrackets <? openBrackets
  then s ++ repeat_str (js "]") (openBrackets - closeBrackets) else s.

(** The record of the last resort. *)
Definition degraded (errorMessage timestamp : jsstring) : value :=
  JObject
    [(js "error", JString (js "JSON parsing failed"));
     (js "errorMessage", JString errorMessage);
     (js "timestamp", JString timestamp);
     (js "summary",
       JString (js "Error in analysis output format. Please check server logs."))].

Definition cleanAndFixJSON (jsonString : jsstring) : M value :=
  try_catch (lift (JSON_parse jsonString)) (fun error =>
    let cleanedJSON := basicCleanup jsonString in
    try_catch (lift (JSON_parse cleanedJSON)) (fun parseError =>
      let cleanedJSON := aggressiveCleanup cleanedJSON in
      try_catch (lift (JSON_parse cleanedJSON)) (fun finalError =>
        timestamp <- now ;;
        ret (degraded (exn_message finalError) timestamp)))).

(** *** The request handler of [/api/analyze-security] *)

(** What the handler answers. *)
Inductive reply :=
| Analysis (result : jsstring) (processedChunks totalChunks : nat)
           (error : option jsstring)               (* status 200 *)
| BadRequest (error : jsstring)                    (* status 400 *)
| RemoteFailure (status : Z) (data : error_body)   (* the remote status *)
| ServerError (error : jsstring).                  (* status 500 *)

(** The replacements of the [catch] blocks of the handler. *)
Definition looseCleanup (content : jsstring) : jsstring :=
  let s := stripFences content in
  let s := replace_g trailingCommaPattern [Ref 1] s in
  let s := replace_g bareNamePattern
             [Ref 1; Lit [dquote]; Ref 2; Lit [dquote]; Ref 3] s in
  replace_g [lit "'"] [Lit [dquote]] s.

(** The [try]/[catch] after each call: the text pushed on the
    results. *)
Definition parsedText (content : jsstring) : M jsstring :=
  try_catch
    (parsedContent <- cleanAndFixJSON content ;;
     ret (JSON_stringify parsedContent))
    (fun parseError => ret (looseCleanup content)).

(** The wait between two calls: 1 to 2 seconds. *)
Definition pause (i total : nat) : M unit :=
  if i <? total - 1
  then x <- Math_random ;; sleep (num_add (Finite 1000) (num_scale (Finite x) 1000))
  else ret tt.

(** Step 2: one call for each chunk; [i] is the index of the first
    chunk of [chunks], [total] is [chunks.length]. *)
Fixpoint analyzeChunks (chunks : list jsstring) (i total : nat)
  : M (list jsstring) :=
  match chunks with
  | [] => ret []
  | chunk :: rest =>
      timestamp <- now ;;
      response <- callOpenAIWithRetry
        {| model := js "gpt-4o-mini";
           system := AnalyzeComponent (i + 1) total timestamp;
           user := chunk; stream := false |} 5 ;;
      chunkResult <- parsedText (message_content response) ;;
      pause i total ;;;
      chunkResults <- analyzeChunks rest (S i) total ;;
      ret (chunkResult :: chunkResults)
  end.

Definition batchSize : nat := 10.

(** The loop that splits the results into batches; it runs at most
    [length chunkResults] times. *)
Fixpoint make_batches (fuel i : nat) (chunkResults : list jsstring)
  : list (list jsstring) :=
  match fuel with
  | O => []
  | S fuel' =>
      if i <? length chunkResults
      then firstn batchSize (skipn i chunkResults)
             :: make_batches fuel' (i + batchSize) chunkResults
      else []
  end.

Definition chunkSeparator : jsstring :=
  [LF; LF] ++ js "====CHUNK SEPARATOR====" ++ [LF; LF].
Definition batchSeparator : jsstring :=
  [LF; LF] ++ js "====BATCH SEPARATOR====" ++ [LF; LF].

(** One call for each batch. *)
Fixpoint summarizeBatches (batches : list (list jsstring)) (i total : nat)
  : M (list jsstring) :=
  match batches with
  | [] => ret []
  | batch :: rest =>
      timestamp <- now ;;
      batchResponse <- callOpenAIWithRetry
        {| model := js "gpt-4o";
           system := InterimReport (i + 1) total timestamp;
           user := join chunkSeparator batch; stream := false |} 5 ;;
      batchResult <- parsedText (message_content batchResponse) ;;
      pause i total ;;;
      batchResults <- summarizeBatches rest (S i) total ;;
      ret (batchResult :: batchResults)
  end.

(** [if (!finalResult.timestamp) finalResult.timestamp = ...]: reading
    a property of [null] throws; a property set on a primitive value
    is dropped and one set on an array is not serialized. *)
Definition addTimestamp (finalResult : value) : M value :=
  match finalResult with
  | JNull =>
      throw (TypeError (js "Cannot read properties of null (reading 'timestamp')"))
  | JObject members =>
      match member (js "timestamp") members with
      | Some t =>
          if truthy t then ret finalResult
          else timestamp <- now ;;
               ret (JObject (set_member (js "timestamp") (JString timestamp) members))
      | None =>
          timestamp <- now ;;
          ret (JObject (set_member (js "timestamp") (JString timestamp) members))
      end
  | _ => timestamp <- now ;; ret finalResult
  end.

(** The last [try]/[catch] of both branches: the answer made of the
    final text. *)
Definition answer (finalContent : jsstring) (processedChunks totalChunks : nat)
  : M reply :=
  try_catch
    (finalResult <- cleanAndFixJSON finalContent ;;
     finalResult <- addTimestamp finalResult ;;
     ret (Analysis (JSON_stringify finalResult) processedChunks totalChunks None))
    (fun parseError =>
       ret (Analysis finalContent processedChunks totalChunks
              (Some (js "JSON parsing failed: " ++ exn_message parseError)))).

(** Step 3: the summary of the results of the [totalChunks] chunks. *)
Definition summarize (chunkResults : list jsstring) (totalChunks : nat) : M reply :=
  if 1 <? length chunkResults then
    let batches := make_batches (length chunkResults) 0 chunkResults in
    batchResults <- summarizeBatches batches 0 (length batches) ;;
    timestamp <- now ;;
    finalSummarizationResponse <- callOpenAIWithRetry
      {| model := js "gpt-4o";
         system := FinalReport (length batches) timestamp;
         user := join batchSeparator batchResults; stream := false |} 5 ;;
    answer (message_content finalSummarizationResponse) totalChunks totalChunks
  else
    match chunkResults with
    | [chunkResult] => answer chunkResult 1 totalChunks
    | _ => ret (BadRequest (js "No chunks could be processed"))
    end.

Definition analyzeSecurity (text : jsstring) : M reply :=
  try_catch
    (match text with
     | [] => ret (BadRequest (js "Text is required"))
     | _ :: _ =>
         let chunks := Segmenter.componentBasedChunking text_splitter text in
         chunkResults <- analyzeChunks chunks 0 (length chunks) ;;
         summarize chunkResults (length chunks)
     end)
    (fun error =>
       match error with
       | AxiosError _ (Some r) => ret (RemoteFailure (status r) (data r))
       | _ => ret (ServerError (exn_message error))
       end).

End Platform.

(** ** JSON texts

    A model of [JSON.parse] and [JSON.stringify] (the JSON grammar of
    ECMA-404), to run the proxy on texts.  A number is kept as it is
    written. *)

Module JsonText.

Definition is_ws (c : char) : bool :=
  ((c =? 32) || (c =? 9) || (c =? 10) || (c =? 13))%N.

Fixpoint skip_ws (s : jsstring) : jsstring :=
  match s with
  | c :: s' => if is_ws c then skip_ws s' else s
  | [] => []
  end.

Definition hex_digit (c : char) : option N :=
  if is_digit c then Some (c - 48)%N
  else if ((97 <=? c) && (c <=? 102))%N then Some (c - 87)%N
  else if ((65 <=? c) && (c <=? 70))%N then Some (c - 55)%N
  else None.

Definition hex4 (a b c d : char) : option N :=
  match hex_digit a, hex_digit b, hex_digit c, hex_digit d with
  | Some x, Some y, Some z, Some t => Some (((x * 16 + y) * 16 + z) * 16 + t)%N
  | _, _, _, _ => None
  end.

(** The characters of a string, after its opening quote. *)
Fixpoint string_body (s : jsstring) (acc : jsstring) : option (jsstring * jsstring) :=
  match s with
  | [] => None
  | c :: s' =>
      if (c =? 34)%N then Some (rev acc, s')
      else if (c =? 92)%N then
        match s' with
        | [] => None
        | e :: s'' =>
            if (e =? 34)%N || (e =? 92)%N || (e =? 47)%N
            then string_body s'' (e :: acc)
            else if (e =? 98)%N then string_body s'' (8%N :: acc)
            else if (e =? 102)%N then string_body s'' (12%N :: acc)
            else if (e =? 110)%N then string_body s'' (10%N :: acc)
            else if (e =? 114)%N then string_body s'' (13%N :: acc)
            else if (e =? 116)%N then string_body s'' (9%N :: acc)
            else if (e =? 117)%N then
              match s'' with
              | h1 :: h2 :: h3 :: h4 :: s5 =>
                  match hex4 h1 h2 h3 h4 with
                  | Some u => string_body s5 (u :: acc)
                  | None => None
                  end
              | _ => None
              end
            else None
        end
      else if (c <? 32)%N then None
      else string_body s' (c :: acc)
  end.

Fixpoint take_digits (s : jsstring) : jsstring * jsstring :=
  match s with
  | c :: s' =>
      if is_digit c then let (d, r) := take_digits s' in (c :: d, r) else ([], s)
  | [] => ([], [])
  end.

(** The text of a number at the head of [s]. *)
Definition number_text (s : jsstring) : option (jsstring * jsstring) :=
  let (sign, s1) :=
    match s with
    | c :: s' => if (c =? 45)%N then ([c], s') else ([], s)
    | [] => ([], s)
    end in
  let (int, s2) := take_digits s1 in
  match int with
  | [] => None
  | d :: ds =>
      if (d =? 48)%N && negb (length ds =? 0) then None
      else
        let frac :=
          match s2 with
          | c :: s' =>
              if (c =? 46)%N then
                let (f, r) := take_digits s' in
                match f with [] => None | _ => Some (c :: f, r) end
              else Some ([], s2)
          | [] => Some ([], s2)
          end in
        match frac with
        | None => None
        | Some (f, s3) =>
            let expo :=
              match s3 with
              | c :: s' =>
                  if (c =? 101)%N || (c =? 69)%N then
                    let (sg, s4) :=
                      match s' with
                      | g :: s'' =>
                          if (g =? 43)%N || (g =? 45)%N then ([g], s'') else ([], s')
                      | [] => ([], s')
                      end in
                    let (e, r) := take_digits s4 in
                    match e with [] => None | _ => Some (c :: sg ++ e, r) end
                  else Some ([], s3)
              | [] => Some ([], s3)
              end in
            match expo with
            | None => None
            | Some (e, s5) => Some (sign ++ int ++ f ++ e, s5)
            end
        end
  end.

Fixpoint parse_value (fuel : nat) (s : jsstring) : option (value * jsstring) :=
  match fuel with
  | O => None
  | S fuel' =>
      match skip_ws s with
      | [] => None
      | c :: s' =>
          if (c =? 123)%N then
            match skip_ws s' with
            | d :: s'' =>
                if (d =? 125)%N then Some (JObject [], s'')
                else parse_members fuel' (skip_ws s') []
            | [] => None
            end
          else if (c =? 91)%N then
            match skip_ws s' with
            | d :: s'' =>
                if (d =? 93)%N then Some (JArray [], s'')
                else parse_items fuel' (skip_ws s') []
            | [] => None
            end
          else if (c =? 34)%N then
            match string_body s' [] with
            | Some (t, r) => Some (JString t, r)
            | None => None
            end
          else if starts_with (js "true") (c :: s')
          then Some (JBool true, skipn 4 (c :: s'))
          else if starts_with (js "false") (c :: s')
          then Some (JBool false, skipn 5 (c :: s'))
          else if starts_with (js "null") (c :: s')
          then Some (JNull, skipn 4 (c :: s'))
          else
            match number_text (c :: s') with
            | Some (t, r) => Some (JNumber t, r)
            | None => None
            end
      end
  end
with parse_items (fuel : nat) (s : jsstring) (acc : list value)
  : option (value * jsstring) :=
  match fuel with
  | O => None
  | S fuel' =>
      match parse_value fuel' s with
      | Some (v, r) =>
          match skip_ws r with
          | c :: r' =>
              if (c =? 44)%N then parse_items fuel' r' (acc ++ [v])
              else if (c =? 93)%N then Some (JArray (acc ++ [v]), r')
              else None
          | [] => None
          end
      | None => None
      end
  end
with parse_members (fuel : nat) (s : jsstring) (acc : list (jsstring * value))
  : option (value * jsstring) :=
  match fuel with
  | O => None
  | S fuel' =>
      match skip_ws s with
      | q :: s' =>
          if (q =? 34)%N then
            match string_body s' [] with
            | Some (k, r) =>
                match skip_ws r with
                | c :: r' =>
                    if (c =? 58)%N then
                      match parse_value fuel' r' with
                      | Some (v, r2) =>
                          match skip_ws r2 with
                          | e :: r3 =>
                              if (e =? 44)%N
                              then parse_members fuel' r3 (set_member k v acc)
                              else if (e =? 125)%N
                              then Some (JObject (set_member k v acc), r3)
                              else None
                          | [] => None
                          end
                      | None => None
                      end
                    else None
                | [] => None
                end
            | None => None
            end
          else None
      | [] => None
      end
  end.

Definition json_parse (s : jsstring) : result value :=
  match parse_value (2 * length s + 2) s with
  | Some (v, r) =>
      match skip_ws r with
      | [] => Ok v
      | _ :: _ =>
          Throw (SyntaxError (js "Unexpected non-whitespace character after JSON"))
      end
  | None => Throw (SyntaxError (js "Unexpected token in JSON"))
  end.

Definition hex_char (n : N) : char :=
  if (n <? 10)%N then (n + 48)%N else (n + 87)%N.

Definition escape_char (c : char) : jsstring :=
  if (c =? 34)%N then [bslash; dquote]
  else if (c =? 92)%N then [bslash; bslash]
  else if (c =? 8)%N then bslash :: js "b"
  else if (c =? 12)%N then bslash :: js "f"
  else if (c =? 10)%N then bslash :: js "n"
  else if (c =? 13)%N then bslash :: js "r"
  else if (c =? 9)%N then bslash :: js "t"
  else if (c <? 32)%N
  then bslash :: js "u00" ++ [hex_char (c / 16)%N; hex_char (c mod 16)%N]
  else [c].

Definition quote_text (s : jsstring) : jsstring :=
  dquote :: flat_map escape_char s ++ [dquote].

Fixpoint json_stringify (v : value) : jsstring :=
  match v with
  | JNull => js "null"
  | JBool true => js "true"
  | JBool false => js "false"
  | JNumber t => t
  | JString s => quote_text s
  | JArray items => js "[" ++ join (js ",") (map json_stringify items) ++ js "]"
  | JObject members =>
      js "{"
      ++ join (js ",")
           (map (fun kv => quote_text (fst kv) ++ js ":" ++ json_stringify (snd kv))
                members)
      ++ js "}"
  end.

End JsonText.

(** ** Shapes of the reports *)

Module Report.

(** The six categories of STRIDE. *)
Definition strideTitles : list jsstring :=
  [js "Spoofing"; js "Tampering"; js "Repudiation";
   js "Information Disclosure"; js "Denial of Service";
   js "Elevation of Privilege"].

(** The title of a category that carries a [risks] array. *)
Definition category_title (c : value) : option jsstring :=
  match c with
  | JObject ms =>
      match member (js "title") ms, member (js "risks") ms with
      | Some (JString t), Some (JArray _) => Some t
      | _, _ => None
      end
  | _ => None
  end.

Definition titled (title : jsstring) (c : value) : bool :=
  match category_title c with
  | Some t => eqb t title
  | None => false
  end.

(** [strideCategories] has six entries, each with a title and a
    [risks] array, and every one of the six titles is there. *)
Definition has_six_categories (report : value) : bool :=
  match report with
  | JObject ms =>
      match member (js "strideCategories") ms with
      | Some (JArray cats) =>
          (length cats =? 6)
          && forallb (fun c => match category_title c with
                               | Some _ => true
                               | None => false
                               end) cats
          && forallb (fun title => existsb (titled title) cats) strideTitles
      | _ => false
      end
  | _ => false
  end.

(** A report that carries the error marker. *)
Definition is_degraded (report : value) : bool :=
  match report with
  | JObject ms =>
      match member (js "error") ms with
      | Some _ => true
      | None => false
      end
  | _ => false
  end.

End Report.
Import Report.

(** ** Sample platforms, to run the proxy *)

Module Sample.

Definition clock (n : nat) : jsstring := js "2025-01-01T00:00:0" ++ of_nat n ++ js "Z".

(** A splitter that never splits. *)
Definition whole_text : nat -> nat -> jsstring -> result (list jsstring) :=
  fun _ _ text => Ok [text].

(** A splitter that always throws. *)
Definition no_splitter : nat -> nat -> jsstring -> result (list jsstring) :=
  fun _ _ _ => Throw (Error (js "splitter unavailable")).

Definition request : payload :=
  {| model := js "gpt-4o"; system := FinalReport 1 (clock 0);
     user := js "{}"; stream := false |}.

Definition reply_with (content : jsstring) : axios_result :=
  Resolved {| response_status := 200; message_content := content |}.

Definition rejection (code : Z) (message : option jsstring) : axios_result :=
  Rejected (js "Request failed")
    (Some {| status := code; data := {| error_message := message |} |}).

(** A service that answers every request with an empty report. *)
Definition obliging : nat -> payload -> axios_result :=
  fun _ _ => reply_with (js "{}").

(** A service that rejects every request for its rate limit. *)
Definition saturated : nat -> payload -> axios_result :=
  fun _ _ => rejection 429 (Some (js "Rate limit reached, try again in 1.5s."))%Z.

(** A service that rejects the first request for its rate limit,
    without a hint, and answers the next ones. *)
Definition busy_once : nat -> payload -> axios_result :=
  fun n _ => match n with
             | O => rejection 429 None
             | S _ => reply_with (js "{}")
             end.

(** A service that rejects the first request for its rate limit,
    with a hint of more digits than a double holds, and answers the
    next ones. *)
Definition busy_hinting : nat -> payload -> axios_result :=
  fun n _ => match n with
             | O => rejection 429
                      (Some (js "Please try again in 1.0000000000000000001s."))
             | S _ => reply_with (js "{}")
             end.

(** A rate-limit rejection that hints at a delay. *)
Definition hinting (delay : string) : error_response :=
  {| status := 429;
     data := {| error_message :=
                  Some (js "Rate limit reached. Please try again in "
                          ++ js delay ++ js "s. Visit the dashboard.") |} |}.

(** A service that rejects two requests for its rate limit, then
    refuses the key. *)
Definition locked : nat -> payload -> axios_result :=
  fun n _ => if n <? 2 then rejection 429 None
             else rejection 401 (Some (js "Incorrect API key provided")).

(** A text between double quotes. *)
Definition quoted (t : string) : jsstring := dquote :: js t ++ [dquote].

(** A fenced report with bare names, single quotes and a trailing
    comma. *)
Definition fenced_report : jsstring :=
  js "```json" ++ [LF] ++ js "{summary: 'fine',}" ++ [LF] ++ js "```".

(** The description of one component. *)
Definition web_server : jsstring := js "Component: web server".

(** Two connections between the same ends, a blank line between
    them. *)
Definition twice_connected : jsstring :=
  js "from a to b ->" ++ [LF; LF] ++ js "from a to b ->".

Definition no_jitter : nat -> Q := fun _ => 0%Q.
Definition half_jitter : nat -> Q := fun _ => (1 # 2)%Q.

End Sample.

(** ** Notions of the statements *)

Module Notions.
Import Segmenter.

(** The words that announce the delay in a rate-limit message. *)
Definition retry_phrase : jsstring := js "try again in ".

(** What follows the first occurrence of [phrase] in a text. *)
Fixpoint after_first (phrase s : jsstring) {struct s} : option jsstring :=
  if starts_with phrase s then Some (skipn (length phrase) s)
  else
    match s with
    | [] => None
    | _ :: s' => after_first phrase s'
    end.

Definition digit (c : char) : Z := (Z.of_N c - 48)%Z.

(** The whole number that a run of digits writes, place by place. *)
Fixpoint integral (ds : jsstring) : Z :=
  match ds with
  | [] => 0
  | d :: r => digit d * 10 ^ Z.of_nat (length r) + integral r
  end.

(** The number that the digits after a decimal point write. *)
Fixpoint fractional (ds : jsstring) : Q :=
  match ds with
  | [] => 0
  | d :: r => (inject_Z (digit d) + fractional r) / 10
  end.

(** The message hints at a delay of [seconds]: after its first
    [try again in ] come a decimal number, [seconds], and an [s]. *)
Definition hints (message : jsstring) (seconds : Q) : Prop :=
  exists int frac rest,
    after_first retry_phrase message
    = Some (int ++ [46%N] ++ frac ++ [115%N] ++ rest)
    /\ int <> [] /\ frac <> []
    /\ forallb is_digit int = true /\ forallb is_digit frac = true
    /\ seconds = (inject_Z (integral int) + fractional frac)%Q.

(** The duration hinted by a rate-limit rejection, in seconds. *)
Definition hinted (r : error_response) (seconds : Q) : Prop :=
  exists message, error_message (data r) = Some message /\ hints message seconds.

(** The rejection carries no hint: it has no message, or [try again
    in ] does not occur in its message. *)
Definition unhinted (r : error_response) : Prop :=
  match error_message (data r) with
  | Some message => includes message retry_phrase = false
  | None => True
  end.

(** [Math.random() * 1000] *)
Definition jitter_of (x : Q) : number := num_scale (Finite x) 1000.

(** The world after a rate-limit rejection was handled at retry count
    [retries]: the request, the random draw and the sleep. *)
Definition backed_off (random : nat -> Q) (request : payload)
    (r : error_response) (retries : nat) (w : world) : world :=
  asleep (actualWaitTime (waitTimeOf r) retries (jitter_of (random (drawn w))))
         (draw (requested request w)).

(** Every request is rejected for the rate limit. *)
Definition always_rate_limited (server : nat -> payload -> axios_result) : Prop :=
  forall n p, exists m r, server n p = Rejected m (Some r) /\ status r = 429%Z.

(** The next [k] requests, from the world [w] on, are rejected for the
    rate limit. *)
Definition rate_limited_for (server : nat -> payload -> axios_result)
    (request : payload) (w : world) (k : nat) : Prop :=
  forall i, i < k ->
    exists m r, server (length (sent w) + i) request = Rejected m (Some r)
                /\ status r = 429%Z.

(** Every request is fulfilled. *)
Definition fulfilled (server : nat -> payload -> axios_result) : Prop :=
  forall n p, exists r, server n p = Resolved r.

(** The requests for the report of a batch, and for the final one. *)
Definition is_interim (p : payload) : bool :=
  match system p with
  | InterimReport _ _ _ => true
  | _ => false
  end.

Definition is_final (p : payload) : bool :=
  match system p with
  | FinalReport _ _ => true
  | _ => false
  end.

(** A chunk whose content is the trimmed text of a paragraph. *)
Definition from_paragraph (ps : list jsstring) (c : chunk) : Prop :=
  exists p, In p ps /\ content c = trim p.

(** The arrays of the classification hold trimmed paragraphs, under
    their type. *)
Definition classes_ok (ps : list jsstring) (st : classes) : Prop :=
  Forall (fun c => type c = component /\ from_paragraph ps c) (componentChunks st)
  /\ Forall (fun c => type c = metadata /\ from_paragraph ps c) (metadataChunks st)
  /\ Forall (from_paragraph ps) (connectionChunks st).

(** Every group has a member, and its members are trimmed
    paragraphs. *)
Definition groups_ok (ps : list jsstring) (g : groups) : Prop :=
  Forall (fun kv => snd kv <> [] /\ Forall (from_paragraph ps) (snd kv)) g.

End Notions.
Import Notions.

(** ** The relevance ranker *)

Section Ranker.

(** JavaScript numbers and the operations the ranker applies to them;
    [not_a_number] is what a missing entry of an array counts for in a
    product. *)
Variable number : Type.
Variable zero : number.
Variable not_a_number : number.
Variables plus minus times divide : number -> number -> number.
Variable Math_sqrt : number -> number.

(** The two calls of LangChain's [OpenAIEmbeddings]: the vector of a
    text, the vectors of an array of texts, or what they throw. *)
Variable embedQuery : jsstring -> result (list number).
Variable embedDocuments : list jsstring -> result (list (list number)).

(** [Array.prototype.sort] with a comparator. *)
Variable sort : forall A : Type, (A -> A -> number) -> list A -> list A.

Variable text_splitter : nat -> nat -> jsstring -> result (list jsstring).

(** [createEmbeddings] on a text: the branch of [embedQuery]; what is
    caught is thrown again. *)
Definition createEmbeddings_query (texts : jsstring) : result (list number) :=
  match embedQuery texts with
  | Ok v => Ok v
  | Throw error => Throw error
  end.

(** [createEmbeddings] on an array: the branch of [embedDocuments]. *)
Definition createEmbeddings_documents (texts : list jsstring)
  : result (list (list number)) :=
  match embedDocuments texts with
  | Ok vs => Ok vs
  | Throw error => Throw error
  end.

(** [vecA.reduce((sum, a, i) => sum + a * vecB[i], 0)], from index
    [i]. *)
Fixpoint dot_from (i : nat) (sum : number) (vecA vecB : list number) : number :=
  match vecA with
  | [] => sum
  | a :: vecA' =>
      dot_from (S i) (plus sum (times a (nth i vecB not_a_number))) vecA' vecB
  end.

(** [vec.reduce((sum, a) => sum + a * a, 0)] *)
Definition squares (vec : list number) : number :=
  fold_left (fun sum a => plus sum (times a a)) vec zero.

Definition cosineSimilarity (vecA vecB : list number) : number :=
  let dotProduct := dot_from 0 zero vecA vecB in
  let magA := Math_sqrt (squares vecA) in
  let magB := Math_sqrt (squares vecB) in
  divide dotProduct (times magA magB).

Record scored := { score : number; index : nat }.

(** [similarities.map((score, index) => ({ score, index }))], from
    index [i]. *)
Fixpoint with_index (i : nat) (similarities : list number) : list scored :=
  match similarities with
  | [] => []
  | s :: rest => {| score := s; index := i |} :: with_index (S i) rest
  end.

(** The indices of the [topK] best scores. *)
Definition topIndices (similarities : list number) (topK : nat) : list nat :=
  map index
    (firstn topK
       (sort (fun a b => minus (score b) (score a)) (with_index 0 similarities))).

(** [findRelevantChunks]; an entry of the result is [None] where
    [chunks[index]] is undefined. *)
Definition findRelevantChunks (query : jsstring) (chunks : list jsstring) (topK : nat)
  : list (option jsstring) :=
  match createEmbeddings_query query with
  | Ok queryEmbedding =>
      match createEmbeddings_documents chunks with
      | Ok chunkEmbeddings =>
          let similarities := map (cosineSimilarity queryEmbedding) chunkEmbeddings in
          map (fun index => nth_error chunks index) (topIndices similarities topK)
      | Throw error => map Some (firstn topK chunks)
      end
  | Throw error => map Some (firstn topK chunks)
  end.

(** What [/api/process-text] answers. *)
Inductive chunks_reply :=
| Chunks (chunks : list (option jsstring))     (* status 200 *)
| TextRequired.                                (* status 400 *)

(** The handler of [/api/process-text]; [query] is [None] when the body
    has none.  Nothing throws in its [try] block. *)
Definition processText (text : jsstring) (query : option jsstring) : chunks_reply :=
  match text with
  | [] => TextRequired
  | _ :: _ =>
      let chunks :=
        Segmenter.chunkWithSlidingWindow text_splitter text
          Segmenter.defaultChunkSize Segmenter.defaultChunkOverlap in
      match query with
      | Some (c :: q) => Chunks (findRelevantChunks (c :: q) chunks 3)
      | _ => Chunks (map Some chunks)
      end
  end.

End Ranker.

(** ** The endpoint [/api/openai] *)

Section Proxy.

Variable server : nat -> payload -> axios_result.
Variable random : nat -> Q.

(** What [/api/openai] answers. *)
Inductive proxy_reply :=
| Forwarded (r : response)                         (* the status of the service *)
| ProxyFailure (status : Z) (data : error_body)    (* the status of the rejection *)
| ProxyError (error : jsstring).                   (* status 500 *)

Definition openaiProxy (body : payload) : M proxy_reply :=
  try_catch
    (response <- callOpenAIWithRetry server random body 5 ;;
     ret (Forwarded response))
    (fun err =>
       match err with
       | AxiosError _ (Some r) => ret (ProxyFailure (status r) (data r))
       | _ => ret (ProxyError (exn_message err))
       end).

End Proxy.

(** ** Further notions of the statements *)

Module MoreNotions.
Import Segmenter.

(** The key under which a connection is grouped, when a source and a
    target are found in it. *)
Definition grouping_key (conn : chunk) : option jsstring :=
  match match_either fromPattern sourcePattern (content conn),
        match_either toPattern targetPattern (content conn) with
  | Some source, Some target => Some (source ++ js "_" ++ target)
  | _, _ => None
  end.

(** A connection whose key is a property inherited by every object. *)
Definition names_inherited (conn : chunk) : Prop :=
  exists key, grouping_key conn = Some key /\ inherited key = true.

(** The contents held by the three arrays of the classification. *)
Definition contents (st : classes) : list jsstring :=
  map content (componentChunks st ++ metadataChunks st ++ connectionChunks st).

(** The requests for the analysis of a chunk. *)
Definition is_analysis (p : payload) : bool :=
  match system p with
  | AnalyzeComponent _ _ _ => true
  | _ => false
  end.

(** The random numbers are in [0, 1), as those of [Math.random]. *)
Definition unit_interval (random : nat -> Q) : Prop :=
  forall n, (0 <= random n)%Q /\ (random n < 1)%Q.

(** A pause between two calls: 1 to 2 seconds. *)
Definition short_pause (ms : number) : Prop :=
  num_le (Finite 1000) ms /\ num_le ms (Finite 2000).

(** The same requests, sleeps and random draws in two worlds. *)
Definition same_traffic (w w' : world) : Prop :=
  sent w' = sent w /\ slept w' = slept w /\ drawn w' = drawn w.

(** The first request of a run of the handler on the segments
    [chunks]. *)
Definition first_request (clock : nat -> jsstring) (chunks : list jsstring)
    (w : world) : payload :=
  {| model := js "gpt-4o-mini";
     system := AnalyzeComponent 1 (length chunks) (clock (ticks w));
     user := hd [] chunks; stream := false |}.

(** The texts of the capture groups are made of characters that
    satisfy [P]. *)
Definition captures_keep (P : char -> Prop) (st : mstate) : Prop :=
  Forall (fun kv => Forall P (snd kv)) (opened st)
  /\ Forall (fun kv => Forall P (snd kv)) (closed st).

(** The literal pieces of a replacement text are made of characters
    that satisfy [P]. *)
Definition pieces_keep (P : char -> Prop) (tmpl : list piece) : Prop :=
  Forall (fun piece => match piece with
                       | Lit t => Forall P t
                       | Ref _ => True
                       end) tmpl.

End MoreNotions.
Import MoreNotions.


(** ** Shapes of texts *)

(** The text without the line feeds it begins with. *)
Fixpoint drop_breaks (s : jsstring) : jsstring :=
  match s with
  | c :: s' => if char_eqb LF c then drop_breaks s' else s
  | [] => []
  end.

(** No two line feeds in a row. *)
Fixpoint no_blank_line (s : jsstring) : bool :=
  match s with
  | a :: (b :: _) as t => negb (char_eqb LF a && char_eqb LF b) && no_blank_line t
  | _ => true
  end.

(** A digit, a dot and a digit in a row somewhere in the text. *)
Fixpoint has_decimal (s : jsstring) : bool :=
  match s with
  | a :: (b :: c :: _) as t =>
      is_digit a && (b =? 46)%N && is_digit c || has_decimal t
  | _ => false
  end.
(** ** More samples *)

Module MoreSamples.

(** A service that refuses the key of every request. *)
Definition unauthorized : nat -> payload -> axios_result :=
  fun _ _ => Sample.rejection 401 (Some (js "Incorrect API key provided")).

(** The description of two components, a blank line between them. *)
Definition two_components : jsstring :=
  js "Component: web server" ++ [LF; LF] ++ js "the database stores rows".

(** A rate-limit rejection whose message gives the delay in whole
    seconds. *)
Definition whole_seconds : error_response :=
  {| status := 429;
     data := {| error_message := Some (js "Rate limit reached, try again in 20s.") |} |}.

(** An embedding service that is down, and one that gives every text
    the same vector. *)
Definition embedding_down_query : jsstring -> result (list Q) :=
  fun _ => Throw (Error (js "embeddings unavailable")).

Definition embedding_down_documents : list jsstring -> result (list (list Q)) :=
  fun _ => Throw (Error (js "embeddings unavailable")).

Definition flat_query : jsstring -> result (list Q) := fun _ => Ok [1%Q].

Definition flat_documents : list jsstring -> result (list (list Q)) :=
  fun texts => Ok (map (fun _ => [1%Q]) texts).

(** A [sort] that finds its array in order. *)
Definition keep_order (A : Type) (cmp : A -> A -> Q) (l : list A) : list A := l.

(** A stand-in for the square root. *)
Definition same_number (x : Q) : Q := x.

(** The largest random number: the double just under 1. *)
Definition last_double : nat -> Q := fun _ => (1 - pow2 (-53))%Q.

End MoreSamples.


(** * Properties *)

(** ** Numbers *)

Section NumberFacts.
Local Open Scope Q_scope.

Lemma pow2_pos e : 0 < pow2 e.
Proof. apply Qpower_0_lt. reflexivity. Qed.

Lemma pow2_add a b : pow2 (a + b) == pow2 a * pow2 b.
Proof. apply Qpower_plus. discriminate. Qed.

Lemma pow2_le a b : (a <= b)%Z -> pow2 a <= pow2 b.
Proof. intros H. apply Qpower_le_compat_l; [exact H | discriminate]. Qed.

Lemma pow2_lt a b : (a < b)%Z -> pow2 a < pow2 b.
Proof. intros H. apply Qpower_lt_compat_l; [exact H | reflexivity]. Qed.

Lemma pow2_Z e : (0 <= e)%Z -> pow2 e == inject_Z (2 ^ e).
Proof. intros H. unfold pow2. rewrite Zpower_Qpower by exact H. reflexivity. Qed.

Lemma pow2_succ e : pow2 (e + 1) == 2 * pow2 e.
Proof. rewrite pow2_add. change (pow2 1) with 2. ring. Qed.

Lemma pow2_opp e : pow2 (- e) == / pow2 e.
Proof. apply Qpower_opp. Qed.


Lemma frac_lt A B PA PB :
  0 < PB -> PB <= B -> 0 <= A -> A < PA -> A / B < PA / PB.
Proof.
  intros HPB HB HA HPA.
  assert (0 < B) by lra.
  apply Qlt_shift_div_r; [assumption|].
  setoid_replace (PA / PB * B) with (PA * B / PB) by (field; lra).
  apply Qlt_shift_div_l; [assumption|]. nra.
Qed.

Lemma frac_le A B PA PB :
  0 < B -> B <= PB -> 0 <= PA -> PA <= A -> PA / PB <= A / B.
Proof.
  intros HB HPB HPA HA.
  assert (0 < PB) by lra.
  apply Qle_shift_div_r; [assumption|].
  setoid_replace (A / B * PB) with (A * PB / B) by (field; lra).
  apply Qle_shift_div_l; [assumption|]. nra.
Qed.

Lemma pow2_sub a b : pow2 (a - b) == pow2 a / pow2 b.
Proof.
  unfold Z.sub. rewrite pow2_add, pow2_opp. reflexivity.
Qed.

Lemma ilog2_spec q : 0 < q -> pow2 (ilog2 q) <= q /\ q < pow2 (ilog2 q + 1).
Proof.
  intros Hq. destruct q as [a b].
  assert (Ha : (0 < a)%Z).
  { unfold Qlt in Hq. simpl in Hq. lia. }
  unfold ilog2. cbn [Qnum Qden].
  set (la := Z.log2 a). set (lb := Z.log2 (Z.pos b)).
  destruct (Z.log2_spec a Ha) as [Ha1 Ha2].
  destruct (Z.log2_spec (Z.pos b) eq_refl) as [Hb1 Hb2].
  fold la in Ha1, Ha2. fold lb in Hb1, Hb2.
  assert (Hla : (0 <= la)%Z) by apply Z.log2_nonneg.
  assert (Hlb : (0 <= lb)%Z) by apply Z.log2_nonneg.
  assert (Eq : a # b == inject_Z a / inject_Z (Z.pos b)) by apply Qmake_Qdiv.
  assert (QA1 : pow2 la <= inject_Z a).
  { rewrite pow2_Z by assumption. rewrite <- Zle_Qle. exact Ha1. }
  assert (QA2 : inject_Z a < pow2 (la + 1)).
  { rewrite pow2_Z by lia. rewrite <- Zlt_Qlt. exact Ha2. }
  assert (QB1 : pow2 lb <= inject_Z (Z.pos b)).
  { rewrite pow2_Z by assumption. rewrite <- Zle_Qle. exact Hb1. }
  assert (QB2 : inject_Z (Z.pos b) < pow2 (lb + 1)).
  { rewrite pow2_Z by lia. rewrite <- Zlt_Qlt. exact Hb2. }
  assert (Pa := pow2_pos la). assert (Pb := pow2_pos lb).
  destruct (Qle_bool (pow2 (la - lb)) (a # b)) eqn:E.
  - split; [apply Qle_bool_iff; exact E|].
    rewrite Eq.
    replace (la - lb + 1)%Z with ((la + 1) - lb)%Z by ring.
    rewrite pow2_sub. apply frac_lt; lra.
  - split.
    + rewrite Eq.
      replace (la - lb - 1)%Z with (la - (lb + 1))%Z by ring.
      rewrite pow2_sub. apply frac_le; lra.
    + replace (la - lb - 1 + 1)%Z with (la - lb)%Z by ring.
      apply Qnot_le_lt. intros H. apply Qle_bool_iff in H. congruence.
Qed.

Lemma ilog2_unique q e : pow2 e <= q -> q < pow2 (e + 1) -> ilog2 q = e.
Proof.
  intros H1 H2.
  assert (Hq : 0 < q) by (pose proof (pow2_pos e); lra).
  destruct (ilog2_spec Hq) as [S1 S2].
  destruct (Z.lt_trichotomy (ilog2 q) e) as [L | [L | L]]; [|exact L|].
  - assert (pow2 (ilog2 q + 1) <= pow2 e) by (apply pow2_le; lia). lra.
  - assert (pow2 (e + 1) <= pow2 (ilog2 q)) by (apply pow2_le; lia). lra.
Qed.

Lemma ilog2_mono p q : 0 < p -> p <= q -> (ilog2 p <= ilog2 q)%Z.
Proof.
  intros Hp Hpq.
  destruct (ilog2_spec Hp) as [P1 P2].
  assert (Hq : 0 < q) by lra.
  destruct (ilog2_spec Hq) as [Q1 Q2].
  destruct (Z.le_gt_cases (ilog2 p) (ilog2 q)) as [L | L]; [exact L|].
  assert (pow2 (ilog2 q + 1) <= pow2 (ilog2 p)) by (apply pow2_le; lia). lra.
Qed.


Lemma floor_bounds m : inject_Z (Qfloor m) <= m /\ m < inject_Z (Qfloor m) + 1.
Proof.
  split; [apply Qfloor_le|].
  pose proof (Qlt_floor m) as H. rewrite inject_Z_plus in H.
  change (inject_Z 1) with 1 in H. exact H.
Qed.

Lemma rne_near m : m - (1 # 2) <= inject_Z (rne m) /\ inject_Z (rne m) <= m + (1 # 2).
Proof.
  unfold rne. destruct (floor_bounds m) as [F1 F2].
  destruct (Qcompare_spec (m - inject_Z (Qfloor m)) (1 # 2)) as [E | L | G].
  - destruct (Z.even (Qfloor m));
      [|rewrite inject_Z_plus; change (inject_Z 1) with 1]; lra.
  - lra.
  - rewrite inject_Z_plus. change (inject_Z 1) with 1. lra.
Qed.

Lemma rne_int m k : m == inject_Z k -> rne m = k.
Proof.
  intros E. unfold rne.
  assert (F : Qfloor m = k) by (rewrite E; apply Qfloor_Z).
  rewrite F.
  destruct (Qcompare_spec (m - inject_Z k) (1 # 2)) as [H | H | H];
    [lra | reflexivity | lra].
Qed.

Lemma rne_floor m : rne m = Qfloor m \/ rne m = (Qfloor m + 1)%Z.
Proof.
  unfold rne.
  destruct (m - inject_Z (Qfloor m) ?= 1 # 2); [destruct (Z.even (Qfloor m))| |]; auto.
Qed.

Lemma rne_mono m1 m2 : m1 <= m2 -> (rne m1 <= rne m2)%Z.
Proof.
  intros H.
  assert (F := Qfloor_resp_le _ _ H).
  destruct (Z.eq_dec (Qfloor m1) (Qfloor m2)) as [Q | Q].
  - unfold rne. rewrite Q.
    destruct (Qcompare_spec (m1 - inject_Z (Qfloor m2)) (1 # 2)) as [E1 | L1 | G1];
      destruct (Qcompare_spec (m2 - inject_Z (Qfloor m2)) (1 # 2)) as [E2 | L2 | G2];
      try (destruct (Z.even (Qfloor m2))); try lia; lra.
  - destruct (rne_floor m1) as [-> | ->]; destruct (rne_floor m2) as [-> | ->]; lia.
Qed.

Lemma rne_nonneg m : 0 <= m -> (0 <= rne m)%Z.
Proof.
  intros H. replace 0%Z with (rne 0) by reflexivity. apply rne_mono. exact H.
Qed.


Lemma ulp_exponent_upper q : 0 < q -> q < pow2 (ulp_exponent q + 53).
Proof.
  intros Hq. destruct (ilog2_spec Hq) as [_ H].
  eapply Qlt_le_trans; [exact H|]. apply pow2_le. unfold ulp_exponent. lia.
Qed.

Lemma ulp_exponent_lower q :
  0 < q -> ulp_exponent q = (-1074)%Z \/ pow2 (ulp_exponent q + 52) <= q.
Proof.
  intros Hq. destruct (ilog2_spec Hq) as [H _]. unfold ulp_exponent.
  destruct (Z.max_spec (ilog2 q - 52) (-1074)) as [[_ ->] | [_ ->]]; [left; reflexivity|].
  right. replace (ilog2 q - 52 + 52)%Z with (ilog2 q) by ring. exact H.
Qed.

Lemma ulp_exponent_mono p q : 0 < p -> p <= q -> (ulp_exponent p <= ulp_exponent q)%Z.
Proof.
  intros Hp Hpq. pose proof (ilog2_mono Hp Hpq). unfold ulp_exponent. lia.
Qed.

Lemma scaled_lt q e k : q < pow2 (e + k) -> q / pow2 e < pow2 k.
Proof.
  intros H. apply Qlt_shift_div_r; [apply pow2_pos|].
  rewrite <- pow2_add. replace (k + e)%Z with (e + k)%Z by ring. exact H.
Qed.

Lemma scaled_le q e k : pow2 (e + k) <= q -> pow2 k <= q / pow2 e.
Proof.
  intros H. apply Qle_shift_div_l; [apply pow2_pos|].
  rewrite <- pow2_add. replace (k + e)%Z with (e + k)%Z by ring. exact H.
Qed.

Lemma scaled_mono p q e : p <= q -> p / pow2 e <= q / pow2 e.
Proof.
  intros H. unfold Qdiv. apply Qmult_le_compat_r; [exact H|].
  apply Qlt_le_weak, Qinv_lt_0_compat, pow2_pos.
Qed.

Lemma rne_pow2 k : (0 <= k)%Z -> rne (pow2 k) = (2 ^ k)%Z.
Proof. intros H. apply rne_int. apply pow2_Z. exact H. Qed.

(** The nearest double lies in the binade of the number. *)
Lemma nearest_upper_binade q : 0 < q -> nearest q <= pow2 (ulp_exponent q + 53).
Proof.
  intros Hq. unfold nearest.
  assert (M : (rne (q / pow2 (ulp_exponent q)) <= 2 ^ 53)%Z).
  { rewrite <- (rne_pow2 (k := 53)) by lia. apply rne_mono.
    apply Qlt_le_weak, scaled_lt, ulp_exponent_upper, Hq. }
  rewrite Z.add_comm, pow2_add. apply Qmult_le_compat_r; [|apply Qlt_le_weak, pow2_pos].
  rewrite (pow2_Z (e := 53)) by lia. rewrite <- Zle_Qle. exact M.
Qed.

Lemma nearest_lower_binade q :
  pow2 (ulp_exponent q + 52) <= q -> pow2 (ulp_exponent q + 52) <= nearest q.
Proof.
  intros H. unfold nearest.
  assert (M : (2 ^ 52 <= rne (q / pow2 (ulp_exponent q)))%Z).
  { rewrite <- (rne_pow2 (k := 52)) by lia. apply rne_mono.
    apply scaled_le, H. }
  rewrite Z.add_comm, pow2_add. apply Qmult_le_compat_r; [|apply Qlt_le_weak, pow2_pos].
  rewrite (pow2_Z (e := 52)) by lia. rewrite <- Zle_Qle. exact M.
Qed.

Lemma nearest_nonneg q : 0 < q -> 0 <= nearest q.
Proof.
  intros Hq. unfold nearest. apply Qmult_le_0_compat; [|apply Qlt_le_weak, pow2_pos].
  change 0 with (inject_Z 0). rewrite <- Zle_Qle. apply rne_nonneg.
  apply Qlt_le_weak, Qlt_shift_div_l; [apply pow2_pos|]. lra.
Qed.

Lemma nearest_mono p q : 0 < p -> p <= q -> nearest p <= nearest q.
Proof.
  intros Hp Hpq. assert (Hq : 0 < q) by lra.
  destruct (Z.eq_dec (ulp_exponent p) (ulp_exponent q)) as [E | E].
  - unfold nearest. rewrite E.
    apply Qmult_le_compat_r; [|apply Qlt_le_weak, pow2_pos].
    rewrite <- Zle_Qle. apply rne_mono, scaled_mono, Hpq.
  - pose proof (ulp_exponent_mono Hp Hpq) as L.
    assert (B : (-1074 <= ulp_exponent p)%Z) by (unfold ulp_exponent; lia).
    destruct (ulp_exponent_lower Hq) as [Z | N]; [lia|].
    eapply Qle_trans; [apply nearest_upper_binade, Hp|].
    eapply Qle_trans; [|apply nearest_lower_binade, N].
    apply pow2_le. lia.
Qed.

Lemma round_positive q :
  0 < q ->
  round q = if Qle_bool (pow2 1024) (nearest q) then Infinity
            else Finite (Qred (nearest q)).
Proof.
  intros Hq. unfold round. destruct (Qle_bool q 0) eqn:E; [|reflexivity].
  apply Qle_bool_iff in E. lra.
Qed.

Lemma round_nonneg q : num_le (Finite 0) (round q).
Proof.
  unfold round. destruct (Qle_bool q 0) eqn:E; [cbn [num_le]; lra|].
  assert (Hq : 0 < q).
  { apply Qnot_le_lt. intros H. apply Qle_bool_iff in H. congruence. }
  destruct (Qle_bool (pow2 1024) (nearest q)); cbn [num_le]; [exact I|].
  rewrite Qred_correct. apply nearest_nonneg, Hq.
Qed.

Lemma round_mono p q : p <= q -> num_le (round p) (round q).
Proof.
  intros Hpq. destruct (Qlt_le_dec 0 p) as [Hp | Hp].
  - assert (Hq : 0 < q) by lra.
    rewrite (round_positive Hp), (round_positive Hq).
    pose proof (nearest_mono Hp Hpq) as M.
    destruct (Qle_bool (pow2 1024) (nearest p)) eqn:Op;
      destruct (Qle_bool (pow2 1024) (nearest q)) eqn:Oq; cbn [num_le]; auto.
    + apply Qle_bool_iff in Op.
      assert (O : pow2 1024 <= nearest q) by lra.
      apply Qle_bool_iff in O. congruence.
    + rewrite !Qred_correct. exact M.
  - assert (R : round p = Finite 0).
    { unfold round. apply Qle_bool_iff in Hp. rewrite Hp. reflexivity. }
    rewrite R. apply round_nonneg.
Qed.


Lemma Qred_inject_Z z : Qred (inject_Z z) = inject_Z z.
Proof.
  unfold Qred, inject_Z. cbn [Qnum Qden].
  pose proof (Z.ggcd_gcd z 1) as G. pose proof (Z.ggcd_correct_divisors z 1) as D.
  destruct (Z.ggcd z 1) as [g [a b]]. cbn [fst snd] in *.
  rewrite Z.gcd_1_r in G. subst g. destruct D as [Da Db].
  rewrite Z.mul_1_l in Da, Db. subst a b. reflexivity.
Qed.

Lemma nearest_int z : (0 < z < 2 ^ 53)%Z -> nearest (inject_Z z) == inject_Z z.
Proof.
  intros [Hz Hb].
  destruct (Z.log2_spec z Hz) as [L1 L2].
  assert (L0 : (0 <= Z.log2 z)%Z) by apply Z.log2_nonneg.
  assert (L3 : (Z.log2 z < 53)%Z) by (apply Z.log2_lt_pow2; assumption).
  assert (E : ilog2 (inject_Z z) = Z.log2 z).
  { apply ilog2_unique.
    - rewrite pow2_Z by assumption. rewrite <- Zle_Qle. exact L1.
    - rewrite pow2_Z by lia. rewrite <- Zlt_Qlt. exact L2. }
  unfold nearest, ulp_exponent. rewrite E.
  replace (Z.max (Z.log2 z - 52) (-1074)) with (- (52 - Z.log2 z))%Z by lia.
  set (k := (52 - Z.log2 z)%Z). assert (Hk : (0 <= k)%Z) by (unfold k; lia).
  assert (P : pow2 (- k) == / inject_Z (2 ^ k)).
  { rewrite pow2_opp, pow2_Z by assumption. reflexivity. }
  assert (N : ~ inject_Z (2 ^ k) == 0).
  { rewrite <- pow2_Z by assumption. pose proof (pow2_pos k). lra. }
  assert (M : inject_Z z / pow2 (- k) == inject_Z (z * 2 ^ k)).
  { rewrite P, inject_Z_mult. field. exact N. }
  rewrite (rne_int M), P, inject_Z_mult. field. exact N.
Qed.

Lemma round_int z : (0 <= z < 2 ^ 53)%Z -> round (inject_Z z) = Finite (inject_Z z).
Proof.
  intros [Hz Hb]. destruct (Z.eq_dec z 0) as [-> | Hn]; [reflexivity|].
  assert (Hp : 0 < inject_Z z).
  { change 0 with (inject_Z 0). rewrite <- Zlt_Qlt. lia. }
  assert (E : nearest (inject_Z z) == inject_Z z) by (apply nearest_int; lia).
  rewrite (round_positive Hp).
  destruct (Qle_bool (pow2 1024) (nearest (inject_Z z))) eqn:O.
  - apply Qle_bool_iff in O. rewrite E in O.
    assert (inject_Z z < pow2 53).
    { rewrite pow2_Z by lia. rewrite <- Zlt_Qlt. exact Hb. }
    assert (pow2 53 <= pow2 1024) by (apply pow2_le; lia). lra.
  - rewrite (Qred_complete _ _ E), Qred_inject_Z. reflexivity.
Qed.

Lemma normal_exponent q :
  pow2 (-1022) <= q -> pow2 (ulp_exponent q + 52) <= q.
Proof.
  intros H. assert (Hq : 0 < q) by (pose proof (pow2_pos (-1022)); lra).
  destruct (ilog2_spec Hq) as [S1 S2].
  assert (L : (-1022 <= ilog2 q)%Z).
  { destruct (Z.le_gt_cases (-1022) (ilog2 q)) as [L | L]; [exact L|].
    assert (pow2 (ilog2 q + 1) <= pow2 (-1022)) by (apply pow2_le; lia). lra. }
  unfold ulp_exponent.
  replace (Z.max (ilog2 q - 52) (-1074) + 52)%Z with (ilog2 q) by lia. exact S1.
Qed.

Lemma nearest_error q :
  pow2 (-1022) <= q ->
  q * (1 - unit_roundoff) <= nearest q /\ nearest q <= q * (1 + unit_roundoff).
Proof.
  intros H. pose proof (normal_exponent H) as N.
  unfold nearest. set (e := ulp_exponent q) in *.
  pose proof (pow2_pos e) as Pe.
  destruct (rne_near (q / pow2 e)) as [R1 R2].
  assert (M : q / pow2 e * pow2 e == q) by (field; lra).
  rewrite Z.add_comm, pow2_add in N.
  change (pow2 52) with (4503599627370496 # 1) in N.
  unfold unit_roundoff. change (pow2 (-53)) with (1 # 9007199254740992).
  set (n := inject_Z (rne (q / pow2 e))) in *.
  set (m := q / pow2 e) in *.
  split.
  - assert ((m - (1 # 2)) * pow2 e <= n * pow2 e)
      by (apply Qmult_le_compat_r; lra).
    lra.
  - assert (n * pow2 e <= (m + (1 # 2)) * pow2 e)
      by (apply Qmult_le_compat_r; lra).
    lra.
Qed.

Lemma round_lower q :
  pow2 (-1022) <= q -> num_le (Finite (q * (1 - unit_roundoff))) (round q).
Proof.
  intros H. assert (Hq : 0 < q) by (pose proof (pow2_pos (-1022)); lra).
  rewrite (round_positive Hq).
  destruct (Qle_bool (pow2 1024) (nearest q)); cbn [num_le]; [exact I|].
  rewrite Qred_correct. apply nearest_error, H.
Qed.

Lemma round_upper q :
  pow2 (-1022) <= q -> q * (1 + unit_roundoff) < pow2 1024 ->
  exists r, round q = Finite r /\ r <= q * (1 + unit_roundoff).
Proof.
  intros H B. assert (Hq : 0 < q) by (pose proof (pow2_pos (-1022)); lra).
  destruct (nearest_error H) as [_ U].
  rewrite (round_positive Hq).
  destruct (Qle_bool (pow2 1024) (nearest q)) eqn:O.
  - apply Qle_bool_iff in O. lra.
  - eexists. split; [reflexivity|]. rewrite Qred_correct. exact U.
Qed.


Lemma rne_comp m1 m2 : m1 == m2 -> rne m1 = rne m2.
Proof.
  intros E. apply Z.le_antisymm; apply rne_mono; rewrite E; apply Qle_refl.
Qed.

Lemma ilog2_comp p q : 0 < p -> p == q -> ilog2 p = ilog2 q.
Proof.
  intros Hp E. destruct (ilog2_spec Hp) as [S1 S2].
  symmetry. apply ilog2_unique; rewrite <- E; assumption.
Qed.

Lemma nearest_comp p q : 0 < p -> p == q -> nearest p == nearest q.
Proof.
  intros Hp E. unfold nearest, ulp_exponent. rewrite (ilog2_comp Hp E).
  assert (M : p / pow2 (Z.max (ilog2 q - 52) (-1074))
              == q / pow2 (Z.max (ilog2 q - 52) (-1074))) by (rewrite E; reflexivity).
  rewrite (rne_comp M). reflexivity.
Qed.

Lemma round_comp p q : p == q -> round p = round q.
Proof.
  intros E. unfold round.
  assert (B : Qle_bool p 0 = Qle_bool q 0).
  { apply eq_true_iff_eq. rewrite !Qle_bool_iff, E. reflexivity. }
  rewrite <- B. destruct (Qle_bool p 0) eqn:Z0; [reflexivity|].
  assert (Hp : 0 < p).
  { apply Qnot_le_lt. intros H. apply Qle_bool_iff in H. congruence. }
  pose proof (nearest_comp Hp E) as N.
  assert (O : Qle_bool (pow2 1024) (nearest p) = Qle_bool (pow2 1024) (nearest q)).
  { apply eq_true_iff_eq. rewrite !Qle_bool_iff, N. reflexivity. }
  rewrite <- O. destruct (Qle_bool (pow2 1024) (nearest p)); [reflexivity|].
  rewrite (Qred_complete _ _ N). reflexivity.
Qed.

Lemma double_below_one x : is_double x -> x < 1 -> x <= 1 - pow2 (-53).
Proof.
  intros D L. apply Qnot_lt_le. intros G.
  change (pow2 (-53)) with (1 # 9007199254740992) in G.
  assert (Hx : 0 < x) by lra.
  assert (E : ilog2 x = (-1)%Z).
  { apply ilog2_unique.
    - change (pow2 (-1)) with (1 # 2). lra.
    - change (pow2 (-1 + 1)) with 1. exact L. }
  unfold is_double in D. rewrite (round_positive Hx) in D.
  destruct (Qle_bool (pow2 1024) (nearest x)); [discriminate|].
  assert (D' : Qred (nearest x) = Qred x) by congruence.
  clear D. rename D' into D. apply Qred_eq_iff in D.
  unfold nearest, ulp_exponent in D. rewrite E in D.
  change (Z.max (-1 - 52) (-1074)) with (-53)%Z in D.
  change (pow2 (-53)) with (1 # 9007199254740992) in D.
  set (n := rne (x / (1 # 9007199254740992))) in D.
  assert (B1 : inject_Z (9007199254740992 - 1) < inject_Z n).
  { change (inject_Z (9007199254740992 - 1)) with (9007199254740991 # 1). lra. }
  assert (B2 : inject_Z n < inject_Z 9007199254740992).
  { change (inject_Z 9007199254740992) with (9007199254740992 # 1). lra. }
  rewrite <- Zlt_Qlt in B1, B2. lia.
Qed.

Lemma num_le_trans x y z : num_le x y -> num_le y z -> num_le x z.
Proof.
  destruct x, y, z; cbn [num_le]; try tauto. apply Qle_trans.
Qed.


Lemma round_below q hi :
  q <= hi -> pow2 (-1022) <= hi -> hi * (1 + unit_roundoff) < pow2 1024 ->
  exists r, round q = Finite r /\ 0 <= r /\ r <= hi * (1 + unit_roundoff).
Proof.
  intros Hq Hn Hb.
  destruct (round_upper Hn Hb) as (rh & Eh & Uh).
  pose proof (round_mono Hq) as M. pose proof (round_nonneg q) as P.
  rewrite Eh in M. destruct (round q) as [r|]; cbn [num_le] in M, P; [|contradiction].
  exists r. repeat split; [exact P | lra].
Qed.

Lemma round_above q lo r :
  round q = Finite r -> pow2 (-1022) <= lo -> lo <= q ->
  lo * (1 - unit_roundoff) <= r.
Proof.
  intros E Hn Hq.
  pose proof (round_mono Hq) as M. pose proof (round_lower Hn) as L.
  pose proof (num_le_trans _ _ _ L M) as T. rewrite E in T. exact T.
Qed.

Lemma min_normal_small : pow2 (-1022) <= 1 # 2000.
Proof. apply Qle_bool_iff. vm_compute. reflexivity. Qed.

Lemma safe_integers_finite : 9007199254740992 # 1 < pow2 1024.
Proof.
  change (9007199254740992 # 1) with (pow2 53). apply pow2_lt. lia.
Qed.

(** [Math.ceil(x * 1000)] for the double [x] nearest to a number of
    seconds that lies between [n] and [N] milliseconds. *)
Lemma ceil_scale_bounds s n N :
  (0 <= n)%Z -> (N < 2 ^ 52)%Z ->
  inject_Z n <= s * 1000 -> s * 1000 <= inject_Z N ->
  exists c, Math_ceil (num_scale (round s) 1000) = Finite (inject_Z c) /\ (n <= c <= N + 1)%Z.
Proof.
  intros Hn HN Lo Hi.
  assert (BN : inject_Z N <= 4503599627370495 # 1).
  { change (4503599627370495 # 1) with (inject_Z (2 ^ 52 - 1)). rewrite <- Zle_Qle. lia. }
  assert (Bn : 0 <= inject_Z n).
  { change 0 with (inject_Z 0). rewrite <- Zle_Qle. exact Hn. }
  pose proof min_normal_small as T. pose proof safe_integers_finite as G.
  destruct (Qlt_le_dec 0 s) as [Hs | Hs].
  - assert (N1 : 1 <= inject_Z N).
    { change 1 with (inject_Z 1). rewrite <- Zle_Qle.
      assert (0 < inject_Z N) by lra.
      change 0 with (inject_Z 0) in H. rewrite <- Zlt_Qlt in H. lia. }
    (* the double nearest to the seconds *)
    destruct (@round_below s (inject_Z N / 1000)) as (a & Ea & A0 & A1).
    { apply Qle_shift_div_l; lra. }
    { unfold Qdiv. change (/ 1000) with (1 # 1000). lra. }
    { unfold unit_roundoff. change (pow2 (-53)) with (1 # 9007199254740992).
      unfold Qdiv. change (/ 1000) with (1 # 1000). lra. }
    unfold unit_roundoff in A1. change (pow2 (-53)) with (1 # 9007199254740992) in A1.
    unfold Qdiv in A1. change (/ 1000) with (1 # 1000) in A1.
    rewrite Ea. cbn [num_scale]. change (inject_Z 1000) with 1000.
    (* its product by 1000 *)
    destruct (@round_below (a * 1000)
                (inject_Z N * (1 + (1 # 9007199254740992)))) as (b & Eb & B0 & B1).
    { lra. }
    { lra. }
    { unfold unit_roundoff. change (pow2 (-53)) with (1 # 9007199254740992). lra. }
    unfold unit_roundoff in B1. change (pow2 (-53)) with (1 # 9007199254740992) in B1.
    rewrite Eb. cbn [Math_ceil]. exists (Qceiling b). split; [reflexivity|].
    split.
    + destruct (Z.eq_dec n 0) as [-> | Nz].
      * change 0%Z with (Qceiling 0). apply Qceiling_resp_le. exact B0.
      * assert (n1 : 1 <= inject_Z n).
        { change 1 with (inject_Z 1). rewrite <- Zle_Qle. lia. }
        assert (La : inject_Z n / 1000 * (1 - unit_roundoff) <= a).
        { apply (@round_above s); [exact Ea | |].
          - unfold Qdiv. change (/ 1000) with (1 # 1000). lra.
          - apply Qle_shift_div_r; lra. }
        unfold unit_roundoff in La. change (pow2 (-53)) with (1 # 9007199254740992) in La.
        unfold Qdiv in La. change (/ 1000) with (1 # 1000) in La.
        assert (Lb : inject_Z n * (1 - (1 # 9007199254740992)) * (1 - unit_roundoff) <= b).
        { apply (@round_above (a * 1000)); [exact Eb | lra | lra]. }
        unfold unit_roundoff in Lb. change (pow2 (-53)) with (1 # 9007199254740992) in Lb.
        assert (inject_Z n <= inject_Z N) by lra.
        assert (C : inject_Z n < inject_Z (Qceiling b + 1)).
        { pose proof (Qle_ceiling b). rewrite inject_Z_plus.
          change (inject_Z 1) with 1. lra. }
        rewrite <- Zlt_Qlt in C. lia.
    + assert (C : b <= inject_Z (N + 1)).
      { rewrite inject_Z_plus. change (inject_Z 1) with 1. lra. }
      apply Qceiling_resp_le in C. rewrite Qceiling_Z in C. exact C.
  - assert (E : round s = Finite 0).
    { unfold round. apply Qle_bool_iff in Hs. rewrite Hs. reflexivity. }
    rewrite E. exists 0%Z. split; [reflexivity|].
    assert (inject_Z n <= 0) by lra. assert (0 <= inject_Z N) by lra.
    change 0 with (inject_Z 0) in H, H0. rewrite <- Zle_Qle in H, H0. lia.
Qed.

Lemma add_int a b :
  (0 <= a)%Z -> (0 <= b)%Z -> (a + b < 2 ^ 53)%Z ->
  num_add (Finite (inject_Z a)) (Finite (inject_Z b)) = Finite (inject_Z (a + b)).
Proof.
  intros Ha Hb H. cbn [num_add].
  rewrite (@round_comp _ (inject_Z (a + b))) by (rewrite inject_Z_plus; reflexivity).
  apply round_int. lia.
Qed.

(** Adding a Number that is not negative does not go below a whole
    number already reached. *)
Lemma add_above z x y :
  (0 <= z < 2 ^ 53)%Z -> num_le (Finite (inject_Z z)) x -> num_le (Finite 0) y ->
  num_le (Finite (inject_Z z)) (num_add x y).
Proof.
  intros Hz Hx Hy. destruct x as [a|], y as [b|]; cbn [num_add]; try exact I.
  cbn [num_le] in Hx, Hy. rewrite <- (round_int Hz). apply round_mono. lra.
Qed.

End NumberFacts.

(** ** Strings *)

Lemma eqb_eq (a b : jsstring) : eqb a b = true <-> a = b.
Proof.
  revert b; induction a as [|x a IH]; intros [|y b]; simpl;
    try (split; [discriminate|discriminate]); try tauto.
  unfold char_eqb. rewrite andb_true_iff, N.eqb_eq, IH.
  split; [intros [-> ->]; reflexivity | intros H; injection H; auto].
Qed.

(** ** The output recovery parser *)

Section Recovery.

Variable clock : nat -> jsstring.
Variable JSON_parse : jsstring -> result value.

Lemma member_set_member_other key key' v ms :
  key <> key' -> member key (set_member key' v ms) = member key ms.
Proof.
  intros Hne. induction ms as [|[k w] ms IH]; simpl.
  - destruct (eqb key' key) eqn:E; [apply eqb_eq in E; congruence | reflexivity].
  - destruct (eqb k key') eqn:E; simpl.
    + apply eqb_eq in E; subst k.
      destruct (eqb key' key) eqn:E'; [apply eqb_eq in E'; congruence | reflexivity].
    + destruct (eqb k key); [reflexivity | exact IH].
Qed.

(** C3: [cleanAndFixJSON] never throws, on any text and whatever
    [JSON.parse] does; when the three parsing attempts fail it returns
    the degraded record, with the error marker, the message of the
    last failure, the time of the clock and the note. *)
Theorem cleanAndFixJSON_never_throws (jsonString : jsstring) (w : world) :
  (exists v w', cleanAndFixJSON clock JSON_parse jsonString w = (Ok v, w'))
  /\ (forall e1 e2 e3,
        JSON_parse jsonString = Throw e1 ->
        JSON_parse (basicCleanup jsonString) = Throw e2 ->
        JSON_parse (aggressiveCleanup (basicCleanup jsonString)) = Throw e3 ->
        cleanAndFixJSON clock JSON_parse jsonString w
        = (Ok (JObject
                 [(js "error", JString (js "JSON parsing failed"));
                  (js "errorMessage", JString (exn_message e3));
                  (js "timestamp", JString (clock (ticks w)));
                  (js "summary",
                    JString (js "Error in analysis output format. Please check server logs."))]),
           tick w)).
Proof.
  unfold cleanAndFixJSON, try_catch, lift, bind, now, ret. split.
  - destruct (JSON_parse jsonString); [eauto|].
    destruct (JSON_parse (basicCleanup jsonString)); [eauto|].
    destruct (JSON_parse (aggressiveCleanup (basicCleanup jsonString))); eauto.
  - intros e1 e2 e3 -> -> ->. reflexivity.
Qed.

(** C9: a text that [JSON.parse] accepts is returned as parsed, with no
    repair and no other effect. *)
Theorem cleanAndFixJSON_valid_json (jsonString : jsstring) (v : value) (w : world) :
  JSON_parse jsonString = Ok v ->
  cleanAndFixJSON clock JSON_parse jsonString w = (Ok v, w).
Proof.
  intros H. unfold cleanAndFixJSON, try_catch, lift. rewrite H. reflexivity.
Qed.

(** C7, as amended: a report of [cleanAndFixJSON] that is not degraded
    is what [JSON.parse] gives for the text or for one of its two
    repaired forms, whatever its shape, and the time stamp added by the
    reducer leaves [strideCategories] as it is: the six categories are
    there exactly when the text of the remote model has them. *)
Theorem recovered_report_is_parsed_text
    (jsonString : jsstring) (w w' : world) (report : value) :
  cleanAndFixJSON clock JSON_parse jsonString w = (Ok report, w') ->
  is_degraded report = false ->
  (JSON_parse jsonString = Ok report
   \/ JSON_parse (basicCleanup jsonString) = Ok report
   \/ JSON_parse (aggressiveCleanup (basicCleanup jsonString)) = Ok report)
  /\ (forall w1 w2 final,
        addTimestamp clock report w1 = (Ok final, w2) ->
        has_six_categories final = has_six_categories report).
Proof.
  intros Hrun Hok. split.
  - revert Hrun. unfold cleanAndFixJSON, try_catch, lift, bind, now, ret.
    destruct (JSON_parse jsonString) as [v1|e1];
      [intros H; injection H as -> _; auto|].
    destruct (JSON_parse (basicCleanup jsonString)) as [v2|e2];
      [intros H; injection H as -> _; auto|].
    destruct (JSON_parse (aggressiveCleanup (basicCleanup jsonString))) as [v3|e3];
      [intros H; injection H as -> _; auto|].
    intros H; injection H as <- _. discriminate Hok.
  - intros w1 w2 final. unfold addTimestamp, bind, now, ret, throw.
    assert (Hset : forall t ms,
               has_six_categories (JObject (set_member (js "timestamp") t ms))
               = has_six_categories (JObject ms)).
    { intros t ms. simpl. rewrite member_set_member_other; [reflexivity|].
      intros H; discriminate H. }
    destruct report as [ |b|t|s|items|ms]; try (intros H; injection H as <- _; reflexivity).
    + discriminate.
    + destruct (member (js "timestamp") ms) as [t|].
      * destruct (truthy t); intros H; injection H as <- _;
          [reflexivity | apply Hset].
      * intros H; injection H as <- _. apply Hset.
Qed.

End Recovery.

(** ** The hint of a rate-limit rejection *)

Lemma run_one_cons q p x s st :
  run (One q :: p) (x :: s) st = if q x then run p s st else None.
Proof. reflexivity. Qed.

Lemma run_star_unfold q p x s st :
  run (Star q :: p) (x :: s) st
  = if q x
    then match run (Star q :: p) s st with
         | Some r => Some r
         | None => run p (x :: s) st
         end
    else run p (x :: s) st.
Proof. reflexivity. Qed.

Lemma run_plus_unfold q p x s st :
  run (Plus q :: p) (x :: s) st = if q x then run (Star q :: p) s st else None.
Proof. reflexivity. Qed.

Lemma run_group_open g p s st :
  run (GOpen g :: p) s st = run p s (open_group g s st).
Proof. reflexivity. Qed.

Lemma starts_with_split p :
  forall s, starts_with p s = true -> s = p ++ skipn (length p) s.
Proof.
  induction p as [|x p IH]; intros s; [reflexivity|].
  destruct s as [|y s]; cbn [starts_with]; [discriminate|].
  unfold char_eqb. rewrite andb_true_iff, N.eqb_eq. intros [-> H].
  cbn [length skipn app]. f_equal. apply IH, H.
Qed.

Lemma run_literal l p :
  forall s st, run (map (fun x => One (chr x)) l ++ p) (l ++ s) st = run p s st.
Proof.
  induction l as [|c l IH]; intros s st; [reflexivity|].
  cbn [map app]. rewrite run_one_cons. unfold chr at 1, char_eqb.
  rewrite N.eqb_refl. apply IH.
Qed.

Lemma run_literal_fails l p :
  forall s st,
    starts_with l s = false -> run (map (fun x => One (chr x)) l ++ p) s st = None.
Proof.
  induction l as [|c l IH]; intros s st; cbn [starts_with]; [discriminate|].
  destruct s as [|y s]; [reflexivity|].
  cbn [map app]. rewrite run_one_cons. unfold chr at 1.
  destruct (char_eqb c y); cbn [andb]; [apply IH | reflexivity].
Qed.

(** A greedy quantifier takes the whole run of characters of its class
    when the rest of the pattern matches after it. *)
Lemma run_star_all (c : cls) p ds t st r :
  forallb c ds = true ->
  match t with x :: _ => c x = false | [] => True end ->
  run p t st = Some r ->
  run (Star c :: p) (ds ++ t) st = Some r.
Proof.
  intros Hds Ht Hr. induction ds as [|d ds IH]; cbn [app].
  - destruct t as [|x t]; [exact Hr|].
    rewrite run_star_unfold, Ht. exact Hr.
  - cbn [forallb] in Hds. apply andb_true_iff in Hds as [Hd Hds].
    rewrite run_star_unfold, Hd, (IH Hds). reflexivity.
Qed.

Lemma run_plus_all (c : cls) p ds t st r :
  ds <> [] ->
  forallb c ds = true ->
  match t with x :: _ => c x = false | [] => True end ->
  run p t st = Some r ->
  run (Plus c :: p) (ds ++ t) st = Some r.
Proof.
  intros Hne Hds Ht Hr. destruct ds as [|d ds]; [contradiction|].
  cbn [forallb] in Hds. apply andb_true_iff in Hds as [Hd Hds].
  cbn [app]. rewrite run_plus_unfold, Hd. apply run_star_all; assumption.
Qed.

(** The pattern matches a decimal number and an [s] after the words,
    and its group holds the number. *)
Lemma hint_matches int frac rest :
  int <> [] -> frac <> [] ->
  forallb is_digit int = true -> forallb is_digit frac = true ->
  exists st,
    match_here retryHint (retry_phrase ++ int ++ [46%N] ++ frac ++ [115%N] ++ rest)
    = Some (rest, st)
    /\ group 1 st = int ++ [46%N] ++ frac.
Proof.
  intros Hi Hf Di Df.
  exists (close_group 1 (115%N :: rest)
            (open_group 1 (int ++ [46%N] ++ frac ++ [115%N] ++ rest) mstate0)).
  split.
  - unfold retryHint, lit. cbn [match_here].
    change (js "try again in ") with retry_phrase.
    rewrite run_literal, run_group_open.
    rewrite (@run_plus_all is_digit _ int _ _
               (rest, close_group 1 (115%N :: rest)
                        (open_group 1 (int ++ [46%N] ++ frac ++ [115%N] ++ rest)
                           mstate0)));
      [reflexivity | exact Hi | exact Di | reflexivity |].
    cbn [app]. rewrite run_one_cons.
    change (chr 46%N 46%N) with true. cbv iota.
    apply run_plus_all; [exact Hf | exact Df | reflexivity | reflexivity].
  - unfold group, close_group, open_group. cbn [opened closed lookup Nat.eqb].
    rewrite (app_assoc int), (app_assoc (int ++ [46%N])).
    change (([115%N] ++ rest)) with (115%N :: rest).
    rewrite length_app, Nat.add_sub, <- (Nat.add_0_r (length _)), firstn_app_2.
    cbn [firstn]. rewrite app_nil_r, <- app_assoc. reflexivity.
Qed.

Lemma retryHint_finds message :
  forall pre tail rest st,
    after_first retry_phrase message = Some tail ->
    match_here retryHint (retry_phrase ++ tail) = Some (rest, st) ->
    exists f, search_from retryHint pre message = Some f /\ caps f = st.
Proof.
  induction message as [|x s IH]; intros pre tail rest st Ha Hm.
  - discriminate Ha.
  - cbn [after_first] in Ha.
    destruct (starts_with retry_phrase (x :: s)) eqn:E.
    + assert (Ht : skipn (length retry_phrase) (x :: s) = tail) by congruence.
      pose proof (starts_with_split _ _ E) as Hs.
      rewrite Ht in Hs. cbn [search_from]. rewrite Hs, Hm.
      eexists. split; reflexivity.
    + cbn [search_from].
      assert (N : match_here retryHint (x :: s) = None).
      { unfold retryHint, lit. cbn [match_here].
        change (js "try again in ") with retry_phrase.
        rewrite run_literal_fails by exact E. reflexivity. }
      rewrite N. apply IH with (tail := tail) (rest := rest); assumption.
Qed.

Lemma retryHint_misses message :
  forall pre, includes message retry_phrase = false ->
              search_from retryHint pre message = None.
Proof.
  assert (N : forall s, starts_with retry_phrase s = false ->
                        match_here retryHint s = None).
  { intros s E. unfold retryHint, lit. cbn [match_here].
    change (js "try again in ") with retry_phrase.
    rewrite run_literal_fails by exact E. reflexivity. }
  induction message as [|x s IH]; intros pre; cbn [includes search_from];
    rewrite orb_false_iff; intros [E I].
  - rewrite (N _ E). reflexivity.
  - rewrite (N _ E). apply IH, I.
Qed.

(** The number a decimal text writes. *)

Lemma digit_not_dot c : is_digit c = true -> (c =? 46)%N = false.
Proof.
  unfold is_digit. rewrite andb_true_iff, !N.leb_le, N.eqb_neq. lia.
Qed.

Lemma before_dot_digits int frac :
  forallb is_digit int = true -> before_dot (int ++ 46%N :: frac) = int.
Proof.
  induction int as [|c int IH]; cbn [forallb app before_dot]; [reflexivity|].
  rewrite andb_true_iff. intros [Hc Hi].
  rewrite (digit_not_dot _ Hc), (IH Hi). reflexivity.
Qed.

Lemma after_dot_digits int frac :
  forallb is_digit int = true -> after_dot (int ++ 46%N :: frac) = frac.
Proof.
  induction int as [|c int IH]; cbn [forallb app after_dot]; [reflexivity|].
  rewrite andb_true_iff. intros [Hc Hi].
  rewrite (digit_not_dot _ Hc). apply IH, Hi.
Qed.

Lemma digits_value_integral ds :
  forall acc,
    digits_value acc ds = (acc * 10 ^ Z.of_nat (length ds) + integral ds)%Z.
Proof.
  induction ds as [|d ds IH]; intros acc; cbn [digits_value integral length].
  - rewrite Z.pow_0_r. lia.
  - rewrite IH. unfold digit. rewrite Nat2Z.inj_succ, Z.pow_succ_r by lia. ring.
Qed.

Lemma digits_value_app a b :
  forall acc, digits_value acc (a ++ b) = digits_value (digits_value acc a) b.
Proof.
  induction a as [|c a IH]; intros acc; cbn [app digits_value]; [reflexivity|].
  apply IH.
Qed.

Lemma power_of_ten_nonzero n : ~ (inject_Z (10 ^ Z.of_nat n) == 0)%Q.
Proof.
  intros H. assert (P : (0 < 10 ^ Z.of_nat n)%Z) by (apply Z.pow_pos_nonneg; lia).
  unfold Qeq in H. cbn [Qnum Qden inject_Z] in H. lia.
Qed.

Lemma fractional_integral ds :
  (fractional ds == inject_Z (integral ds) / inject_Z (10 ^ Z.of_nat (length ds)))%Q.
Proof.
  induction ds as [|d ds IH]; cbn [fractional integral length].
  - reflexivity.
  - rewrite IH, Nat2Z.inj_succ, Z.pow_succ_r by lia.
    rewrite inject_Z_plus, !inject_Z_mult.
    pose proof (@power_of_ten_nonzero (length ds)).
    change (inject_Z 10) with 10%Q. field. exact H.
Qed.

Lemma decimal_value_hint int frac :
  forallb is_digit int = true ->
  (decimal_value (int ++ [46%N] ++ frac)
   == inject_Z (integral int) + fractional frac)%Q.
Proof.
  intros Di. unfold decimal_value. cbn [app].
  rewrite (before_dot_digits int frac Di), (after_dot_digits int frac Di).
  rewrite digits_value_app, !digits_value_integral, fractional_integral.
  rewrite Z.mul_0_l, Z.add_0_l, inject_Z_plus, inject_Z_mult.
  pose proof (@power_of_ten_nonzero (length frac)). field. exact H.
Qed.

Lemma waitTimeOf_hinted resp seconds :
  hinted resp seconds ->
  waitTimeOf resp = num_add (Math_ceil (num_scale (round seconds) 1000)) (Finite 1000).
Proof.
  intros (message & Em & int & frac & rest & Ha & Hi & Hf & Di & Df & ->).
  destruct (hint_matches rest Hi Hf Di Df) as (st & Hm & Hg).
  destruct (@retryHint_finds message [] _ _ _ Ha Hm) as (f & Hs & Hc).
  unfold waitTimeOf. rewrite Em. unfold search. rewrite Hs, Hc, Hg.
  unfold parseFloat. rewrite (round_comp (decimal_value_hint int frac Di)).
  reflexivity.
Qed.

Lemma waitTimeOf_unhinted resp : unhinted resp -> waitTimeOf resp = Finite 30000.
Proof.
  unfold unhinted, waitTimeOf.
  destruct (error_message (data resp)) as [message|]; [|reflexivity].
  intros H. unfold search. rewrite (retryHint_misses message [] H). reflexivity.
Qed.

Lemma backoff_exact retries :
  (Z.of_nat retries * 5000 < 2 ^ 53)%Z ->
  backoff retries = Finite (inject_Z (Z.of_nat retries * 5000)).
Proof.
  intros H. unfold backoff. cbn [num_scale].
  rewrite (@round_comp _ (inject_Z (Z.of_nat retries * 5000)))
    by (rewrite inject_Z_mult; reflexivity).
  apply round_int. lia.
Qed.

Lemma jitter_bounds x :
  is_double x -> (0 <= x)%Q -> (x < 1)%Q ->
  num_le (Finite 0) (jitter_of x) /\ num_lt (jitter_of x) (Finite 1000).
Proof.
  intros D H0 H1. split; [apply round_nonneg|].
  pose proof (double_below_one D H1) as B.
  assert (M : (x * inject_Z 1000 <= (1 - pow2 (-53)) * inject_Z 1000)%Q).
  { apply Qmult_le_compat_r; [exact B | discriminate]. }
  apply round_mono in M.
  assert (E : round ((1 - pow2 (-53)) * inject_Z 1000)
              = Finite (8796093022207999 # 8796093022208)) by (vm_compute; reflexivity).
  rewrite E in M. unfold jitter_of. cbn [num_scale].
  destruct (round (x * inject_Z 1000)) as [j|]; cbn [num_le num_lt] in *;
    [|contradiction].
  eapply Qle_lt_trans; [exact M | reflexivity].
Qed.

(** ** The remote call client *)

Section Client.

Variable server : nat -> payload -> axios_result.
Variable random : nat -> Q.

Lemma retry_loop_eq data maxRetries retries w :
  retry_loop server random data maxRetries retries w
  = if retries <=? maxRetries
    then match server (length (sent w)) data with
         | Resolved r => (Ok r, requested data w)
         | Rejected m r =>
             match rate_limited (AxiosError m r) with
             | Some resp =>
                 retry_loop server random data maxRetries (S retries)
                   (backed_off random data resp retries w)
             | None => (Throw (AxiosError m r), requested data w)
             end
         end
    else (Throw (exhausted maxRetries), w).
Proof.
  simp retry_loop.
  destruct (le_lt_dec retries maxRetries) as [Hle|Hlt]; simpl.
  - apply Nat.leb_le in Hle. rewrite Hle.
    unfold try_catch, axios.
    destruct (server (length (sent w)) data) as [r|m r]; [reflexivity|].
    unfold rate_limited. destruct r as [resp|]; [|reflexivity].
    destruct (status resp =? 429)%Z; reflexivity.
  - apply Nat.leb_gt in Hlt. rewrite Hlt. reflexivity.
Qed.

Lemma repeat_snoc {A} (x : A) n l : repeat x n ++ x :: l = x :: repeat x n ++ l.
Proof. induction n; simpl; [reflexivity | rewrite IHn; reflexivity]. Qed.

Lemma retry_loop_exhausts data maxRetries :
  always_rate_limited server ->
  forall k retries w,
    retries + k = S maxRetries ->
    exists w',
      retry_loop server random data maxRetries retries w
      = (Throw (exhausted maxRetries), w')
      /\ sent w' = repeat data k ++ sent w
      /\ length (slept w') = k + length (slept w).
Proof.
  intros Hall. induction k as [|k IH]; intros retries w Hk;
    rewrite retry_loop_eq.
  - replace (retries <=? maxRetries) with false
      by (symmetry; apply Nat.leb_gt; lia).
    exists w. auto.
  - replace (retries <=? maxRetries) with true
      by (symmetry; apply Nat.leb_le; lia).
    destruct (Hall (length (sent w)) data) as (m & r & -> & Hs).
    simpl. rewrite Hs. simpl.
    destruct (IH (S retries) (backed_off random data r retries w)) as (w' & -> & Hsent & Hslept);
      [lia|].
    exists w'. split; [reflexivity|]. split.
    + rewrite Hsent. simpl. apply repeat_snoc.
    + rewrite Hslept. simpl. lia.
Qed.

(** C4: when every request is rejected for the rate limit,
    [callOpenAIWithRetry] throws the error of the exhausted retries
    after exactly [maxRetries + 1] attempts, all of them with the same
    payload, each followed by a sleep. *)
Theorem callOpenAIWithRetry_exhausts (data : payload) (maxRetries : nat) (w : world) :
  always_rate_limited server ->
  exists w',
    callOpenAIWithRetry server random data maxRetries w
    = (Throw (Error (js "Failed after " ++ of_nat maxRetries ++ js " retries")), w')
    /\ sent w' = repeat data (maxRetries + 1) ++ sent w
    /\ length (slept w') = maxRetries + 1 + length (slept w).
Proof.
  intros Hall. unfold callOpenAIWithRetry.
  replace (maxRetries + 1) with (S maxRetries) by lia.
  apply (retry_loop_exhausts data Hall); lia.
Qed.

Lemma retry_loop_other_error data maxRetries m r :
  (forall resp, r = Some resp -> status resp <> 429%Z) ->
  forall k retries w,
    retries + k <= maxRetries ->
    rate_limited_for server data w k ->
    server (length (sent w) + k) data = Rejected m r ->
    exists w',
      retry_loop server random data maxRetries retries w
      = (Throw (AxiosError m r), w')
      /\ sent w' = repeat data (S k) ++ sent w
      /\ length (slept w') = k + length (slept w).
Proof.
  intros Hother. induction k as [|k IH]; intros retries w Hk Hrl Hlast;
    rewrite retry_loop_eq;
    (replace (retries <=? maxRetries) with true
       by (symmetry; apply Nat.leb_le; lia)).
  - rewrite Nat.add_0_r in Hlast. rewrite Hlast.
    assert (Hn : rate_limited (AxiosError m r) = None).
    { simpl. destruct r as [resp|]; [|reflexivity].
      destruct (Z.eqb_spec (status resp) 429); [|reflexivity].
      exfalso. apply (Hother resp); auto. }
    rewrite Hn. exists (requested data w). auto.
  - destruct (Hrl 0) as (m0 & r0 & H0 & Hs); [lia|].
    rewrite Nat.add_0_r in H0. rewrite H0. simpl. rewrite Hs. simpl.
    destruct (IH (S retries) (backed_off random data r0 retries w))
      as (w' & -> & Hsent & Hslept).
    + lia.
    + intros i Hi. destruct (Hrl (S i)) as (m1 & r1 & H1 & Hs1); [lia|].
      exists m1, r1. split; [|exact Hs1].
      simpl. rewrite <- H1. f_equal. lia.
    + simpl. rewrite <- Hlast. f_equal. lia.
    + exists w'. split; [reflexivity|]. split.
      * rewrite Hsent. simpl. f_equal. apply repeat_snoc.
      * rewrite Hslept. simpl. lia.
Qed.

(** C8: an error that is no rate-limit rejection (no response at all,
    or a status other than 429) is thrown again as it was received,
    at once: after [k] rate-limit rejections it ends the call at the
    attempt [k + 1], with no further request and no further sleep; for
    [k = 0] the call fails on its first attempt. *)
Theorem callOpenAIWithRetry_other_error
    (data : payload) (maxRetries k : nat) (w : world)
    (m : jsstring) (r : option error_response) :
  k <= maxRetries ->
  rate_limited_for server data w k ->
  server (length (sent w) + k) data = Rejected m r ->
  (forall resp, r = Some resp -> status resp <> 429%Z) ->
  exists w',
    callOpenAIWithRetry server random data maxRetries w
    = (Throw (AxiosError m r), w')
    /\ sent w' = repeat data (k + 1) ++ sent w
    /\ length (slept w') = k + length (slept w).
Proof.
  intros Hk Hrl Hlast Hother. unfold callOpenAIWithRetry.
  replace (k + 1) with (S k) by lia.
  apply retry_loop_other_error with (k := k); auto.
Qed.

(** C5, as amended: a rate-limit rejection handled at retry count
    [retries] is followed by a sleep of [waitTime + retries * 5000 +
    jitter] milliseconds, computed in doubles, before the next attempt;
    the jitter is 1000 times the random number drawn, hence in
    [0, 1000).  Without a hint in the rejection [waitTime] is 30000,
    with no buffer.  With a hint [try again in D.Ds], [waitTime] is
    [Math.ceil] of 1000 times the double nearest to the hinted seconds,
    plus the buffer of 1000: for a hint between [n] and [N]
    milliseconds, it is between [n + 1000] and [N + 1001], and the wait
    is at least [n + 1000].  What happens with a hint in another form
    is left out. *)
Theorem rate_limit_wait
    (request : payload) (maxRetries retries : nat) (w : world)
    (m : jsstring) (resp : error_response) :
  retries <= maxRetries ->
  server (length (sent w)) request = Rejected m (Some resp) ->
  status resp = 429%Z ->
  is_double (random (drawn w)) ->
  (0 <= random (drawn w))%Q ->
  (random (drawn w) < 1)%Q ->
  let jitter := jitter_of (random (drawn w)) in
  let wait := num_add (num_add (waitTimeOf resp) (backoff retries)) jitter in
  retry_loop server random request maxRetries retries w
  = retry_loop server random request maxRetries (S retries)
      (asleep wait (draw (requested request w)))
  /\ ((Z.of_nat retries * 5000 < 2 ^ 53)%Z ->
      backoff retries = Finite (inject_Z (Z.of_nat retries * 5000)))
  /\ num_le (Finite 0) jitter /\ num_lt jitter (Finite 1000)
  /\ (unhinted resp -> waitTimeOf resp = Finite 30000)
  /\ (forall seconds,
        hinted resp seconds ->
        waitTimeOf resp
        = num_add (Math_ceil (num_scale (round seconds) 1000)) (Finite 1000)
        /\ forall n N : Z,
             (0 <= n)%Z -> (N < 2 ^ 52)%Z ->
             (inject_Z n <= seconds * 1000)%Q ->
             (seconds * 1000 <= inject_Z N)%Q ->
             exists c : Z,
               waitTimeOf resp = Finite (inject_Z (c + 1000))
               /\ (n <= c <= N + 1)%Z
               /\ num_le (Finite (inject_Z (n + 1000))) wait).
Proof.
  intros Hle Hrej Hs D H0 H1 jitter wait.
  destruct (jitter_bounds D H0 H1) as [J0 J1].
  split; [|split; [apply backoff_exact|
           split; [exact J0 | split; [exact J1 | split; [apply waitTimeOf_unhinted|]]]]].
  - rewrite retry_loop_eq.
    replace (retries <=? maxRetries) with true
      by (symmetry; apply Nat.leb_le; lia).
    rewrite Hrej. simpl. rewrite Hs. reflexivity.
  - intros seconds Hh. pose proof (waitTimeOf_hinted Hh) as W.
    split; [exact W|].
    intros n N Hn HN Lo Hi.
    destruct (ceil_scale_bounds Hn HN Lo Hi) as (c & Ec & Hc).
    assert (Ew : waitTimeOf resp = Finite (inject_Z (c + 1000))).
    { rewrite W, Ec. change (Finite 1000) with (Finite (inject_Z 1000)).
      apply add_int; lia. }
    exists c. split; [exact Ew | split; [exact Hc|]].
    unfold wait. apply add_above; [lia | | exact J0].
    apply add_above; [lia | | apply round_nonneg].
    rewrite Ew. cbn [num_le]. rewrite <- Zle_Qle. lia.
Qed.

End Client.

(** ** The batch reducer *)

Lemma bind_ok {A B} (m : M A) (k : A -> M B) w a w' :
  m w = (Ok a, w') -> bind m k w = k a w'.
Proof. intros H. unfold bind. rewrite H. reflexivity. Qed.
Arguments bind_ok {A B m k w a w'} _.

Section Reducer.

Variable server : nat -> payload -> axios_result.
Variable random : nat -> Q.
Variable clock : nat -> jsstring.
Variable JSON_parse : jsstring -> result value.
Variable JSON_stringify : value -> jsstring.
Hypothesis service_fulfils : fulfilled server.

Lemma call_fulfilled data maxRetries w :
  exists r, callOpenAIWithRetry server random data maxRetries w
            = (Ok r, requested data w).
Proof.
  unfold callOpenAIWithRetry. rewrite retry_loop_eq. simpl.
  destruct (service_fulfils (length (sent w)) data) as [r ->]. eauto.
Qed.

Lemma cleanAndFixJSON_quiet s w :
  exists v w', cleanAndFixJSON clock JSON_parse s w = (Ok v, w')
               /\ sent w' = sent w.
Proof.
  unfold cleanAndFixJSON, try_catch, lift, bind, now, ret.
  destruct (JSON_parse s); [eauto|].
  destruct (JSON_parse (basicCleanup s)); [eauto|].
  destruct (JSON_parse (aggressiveCleanup (basicCleanup s))); eauto.
Qed.

Lemma parsedText_quiet content w :
  exists t w', parsedText clock JSON_parse JSON_stringify content w = (Ok t, w')
               /\ sent w' = sent w.
Proof.
  unfold parsedText, try_catch.
  destruct (cleanAndFixJSON_quiet content w) as (v & w' & H & Hs).
  rewrite (bind_ok H). unfold ret. eauto.
Qed.

Lemma pause_quiet i total w :
  exists w', pause random i total w = (Ok tt, w') /\ sent w' = sent w.
Proof.
  unfold pause. destruct (i <? total - 1).
  - unfold bind, Math_random, sleep. eauto.
  - unfold ret. eauto.
Qed.

Lemma addTimestamp_quiet v w :
  sent (snd (addTimestamp clock v w)) = sent w.
Proof.
  unfold addTimestamp, bind, now, ret, throw.
  destruct v as [ |b|t|s|items|ms]; try reflexivity.
  destruct (member (js "timestamp") ms) as [t|]; [|reflexivity].
  destruct (truthy t); reflexivity.
Qed.

Lemma answer_quiet finalContent processed total w :
  exists r w', answer clock JSON_parse JSON_stringify finalContent processed total w
               = (Ok r, w')
               /\ sent w' = sent w.
Proof.
  unfold answer, try_catch.
  destruct (cleanAndFixJSON_quiet finalContent w) as (v & w1 & H & Hs).
  rewrite (bind_ok H).
  assert (Ht := addTimestamp_quiet v w1).
  unfold bind. destruct (addTimestamp clock v w1) as [[v'|e] w2]; simpl in Ht;
    unfold ret; do 2 eexists; (split; [reflexivity | congruence]).
Qed.

Lemma summarizeBatches_calls batches :
  forall i total w,
  exists batchResults w' requests,
    summarizeBatches server random clock JSON_parse JSON_stringify batches i total w
    = (Ok batchResults, w')
    /\ sent w' = requests ++ sent w
    /\ length requests = length batches
    /\ Forall (fun p => is_interim p = true) requests.
Proof.
  induction batches as [|batch rest IH]; intros i total w.
  - exists [], w, []. simpl. unfold ret. auto.
  - cbn [summarizeBatches].
    unfold bind at 1. unfold now at 1.
    set (data := {| model := js "gpt-4o";
                    system := InterimReport (i + 1) total (clock (ticks w));
                    user := join chunkSeparator batch; stream := false |}).
    destruct (call_fulfilled data 5 (tick w)) as [r Hcall].
    rewrite (bind_ok Hcall).
    destruct (parsedText_quiet (message_content r) (requested data (tick w)))
      as (t & w1 & Hp & Hs1).
    rewrite (bind_ok Hp).
    destruct (pause_quiet i total w1) as (w2 & Hq & Hs2).
    rewrite (bind_ok Hq).
    destruct (IH (S i) total w2) as (results & w3 & reqs & Hrec & Hs3 & Hlen & Hall).
    rewrite (bind_ok Hrec). unfold ret.
    exists (t :: results), w3, (reqs ++ [data]). split; [reflexivity|].
    split; [|split].
    + rewrite Hs3, Hs2, Hs1. simpl. rewrite <- app_assoc. reflexivity.
    + rewrite length_app. simpl. lia.
    + apply Forall_app. split; [exact Hall|]. constructor; [reflexivity|constructor].
Qed.

Lemma ceil_div_step n : 0 < n -> (n + 9) / 10 = S ((n - 10 + 9) / 10).
Proof.
  intros Hn. destruct (le_lt_dec 10 n) as [H|H].
  - replace (n + 9) with ((n - 10 + 9) + 1 * 10) by lia.
    rewrite Nat.div_add by lia. lia.
  - replace (n - 10) with 0 by lia. simpl ((0 + 9) / 10).
    symmetry. apply Nat.div_unique with (r := n - 1); lia.
Qed.

Lemma make_batches_length chunkResults :
  forall fuel i,
    length chunkResults - i <= fuel ->
    length (make_batches fuel i chunkResults)
    = (length chunkResults - i + 9) / 10.
Proof.
  induction fuel as [|fuel IH]; intros i Hf.
  - replace (length chunkResults - i) with 0 by lia. reflexivity.
  - cbn [make_batches]. destruct (Nat.ltb_spec i (length chunkResults)) as [Hlt|Hge].
    + cbn [length]. rewrite IH by (unfold batchSize; lia).
      rewrite (@ceil_div_step (length chunkResults - i)) by lia.
      unfold batchSize. do 2 f_equal. lia.
    + replace (length chunkResults - i) with 0 by lia. reflexivity.
Qed.

(** C2, as amended: for more than one partial report, when the service
    fulfils every request, the reducer issues one request for each of
    the [ceil(len / 10)] batches and then, always, exactly one request
    for the final consolidation, also when there was one batch only. *)
Theorem summarize_calls (chunkResults : list jsstring) (totalChunks : nat) (w : world) :
  1 < length chunkResults ->
  exists answer w' final batchRequests,
    summarize server random clock JSON_parse JSON_stringify chunkResults totalChunks w
    = (Ok answer, w')
    /\ sent w' = final :: batchRequests ++ sent w
    /\ is_final final = true
    /\ Forall (fun p => is_interim p = true) batchRequests
    /\ length batchRequests = (length chunkResults + 9) / 10.
Proof.
  intros Hlen. unfold summarize.
  replace (1 <? length chunkResults) with true
    by (symmetry; apply Nat.ltb_lt; exact Hlen).
  set (batches := make_batches (length chunkResults) 0 chunkResults).
  destruct (summarizeBatches_calls batches 0 (length batches) w)
    as (results & w1 & reqs & Hb & Hs1 & Hl & Hall).
  rewrite (bind_ok Hb).
  unfold bind at 1. unfold now at 1.
  set (data := {| model := js "gpt-4o";
                  system := FinalReport (length batches) (clock (ticks w1));
                  user := join batchSeparator results; stream := false |}).
  destruct (call_fulfilled data 5 (tick w1)) as [r Hcall].
  rewrite (bind_ok Hcall).
  destruct (answer_quiet (message_content r) totalChunks totalChunks
              (requested data (tick w1))) as (a & w2 & Ha & Hs2).
  exists a, w2, data, reqs. split; [exact Ha|].
  split; [rewrite Hs2; simpl; rewrite Hs1; reflexivity|].
  split; [reflexivity|]. split; [exact Hall|].
  rewrite Hl. unfold batches. rewrite make_batches_length by lia.
  rewrite Nat.sub_0_r. reflexivity.
Qed.

End Reducer.

(** ** The segmenter *)

Import Segmenter.

Section SegmenterFacts.

Lemma has_content_spec c :
  has_content c = true <-> 10 < length (trim (content c)).
Proof.
  unfold has_content. destruct (content c) as [|x s].
  - simpl. split; [discriminate | lia].
  - apply Nat.ltb_lt.
Qed.

Lemma tagged_inj c c' : tagged c = tagged c' -> c = c'.
Proof.
  destruct c as [t s], c' as [t' s']. unfold tagged.
  destruct t, t'; cbn; intros H; congruence.
Qed.

Lemma tagged_kept c chunks :
  In c chunks ->
  (In (tagged c) (map tagged (filter has_content chunks))
   <-> 10 < length (trim (content c))).
Proof.
  intros Hin. rewrite <- has_content_spec. split.
  - intros H. apply in_map_iff in H. destruct H as (c' & Heq & Hf).
    apply tagged_inj in Heq. subst c'. apply filter_In in Hf. tauto.
  - intros H. apply in_map. apply filter_In. auto.
Qed.

Lemma classify_ok ps st p :
  In p ps -> classes_ok ps st -> classes_ok ps (classify st p).
Proof.
  intros Hin (Hc & Hm & Hn). unfold classify.
  assert (Hp : forall t, from_paragraph ps {| type := t; content := trim p |})
    by (intros t; exists p; auto).
  destruct (categorize st p) as [t [[cl nl] ml]].
  destruct t; unfold classes_ok; cbn; repeat split; auto;
    apply Forall_app; split; auto.
Qed.

Lemma classified_ok ps :
  forall qs st, incl qs ps -> classes_ok ps st ->
                classes_ok ps (fold_left classify qs st).
Proof.
  induction qs as [|q qs IH]; intros st Hincl Hok; simpl; [exact Hok|].
  apply IH.
  - intros x Hx. apply Hincl. right. exact Hx.
  - apply classify_ok; [apply Hincl; left; reflexivity | exact Hok].
Qed.

Lemma own_ok ps g key members :
  groups_ok ps g -> own key g = Some members ->
  Forall (from_paragraph ps) members.
Proof.
  induction g as [|[k v] g IH]; simpl; [discriminate|].
  intros Hok. inversion Hok as [|? ? [_ Hv] Hg]; subst.
  destruct (eqb k key); [intros H; injection H as <-; exact Hv | auto].
Qed.

Lemma put_ok ps g key members :
  groups_ok ps g -> members <> [] -> Forall (from_paragraph ps) members ->
  groups_ok ps (put key members g).
Proof.
  intros Hok Hne Hm. induction g as [|[k v] g IH]; simpl.
  - constructor; [split; assumption | constructor].
  - inversion Hok as [|? ? Hkv Hg]; subst.
    destruct (eqb k key); constructor;
      [split; assumption | exact Hg | exact Hkv | apply IH; exact Hg].
Qed.

Lemma group_connection_ok ps g conn g' :
  groups_ok ps g -> from_paragraph ps conn ->
  group_connection g conn = Ok g' -> groups_ok ps g'.
Proof.
  intros Hok Hc. unfold group_connection.
  assert (Hone : Forall (from_paragraph ps) [conn]) by (constructor; auto).
  destruct (match_either fromPattern sourcePattern (content conn)) as [source|];
    [destruct (match_either toPattern targetPattern (content conn)) as [target|]|].
  - destruct (own _ g) as [members|] eqn:Hown.
    + intros H; injection H as <-. apply put_ok; auto.
      * destruct members; discriminate.
      * apply Forall_app. split; [eapply own_ok; eauto | exact Hone].
    + destruct (inherited _); [discriminate|].
      intros H; injection H as <-. apply put_ok; auto. discriminate.
  - intros H; injection H as <-. apply put_ok; auto. discriminate.
  - intros H; injection H as <-. apply put_ok; auto. discriminate.
Qed.

Lemma group_connections_ok ps conns :
  forall g g', groups_ok ps g -> Forall (from_paragraph ps) conns ->
               group_connections g conns = Ok g' -> groups_ok ps g'.
Proof.
  induction conns as [|conn conns IH]; intros g g' Hok Hall; simpl.
  - intros H; injection H as <-. exact Hok.
  - inversion Hall; subst.
    destruct (group_connection g conn) as [g1|e] eqn:Hg; [|discriminate].
    apply IH; auto. eapply group_connection_ok; eauto.
Qed.

Lemma paragraphs_of ps members :
  Forall (from_paragraph ps) members ->
  exists qs, incl qs ps /\ map content members = map trim qs.
Proof.
  induction 1 as [|c members (p & Hin & Hc) _ (qs & Hincl & Hmap)].
  - exists []. split; [intros x []| reflexivity].
  - exists (p :: qs). split.
    + intros x [<-|Hx]; auto.
    + simpl. rewrite Hc, Hmap. reflexivity.
Qed.

Lemma basic_chunks_concat chunkSize text :
  0 < chunkSize ->
  forall fuel i,
    length text - i <= fuel ->
    concat (basic_chunks fuel i chunkSize text) = skipn i text.
Proof.
  intros Hpos. induction fuel as [|fuel IH]; intros i Hf; cbn [basic_chunks].
  - rewrite skipn_all2 by lia. reflexivity.
  - destruct (Nat.ltb_spec i (length text)) as [Hlt|Hge].
    + cbn [concat]. rewrite IH by lia. unfold slice.
      replace (i + chunkSize - i) with chunkSize by lia.
      replace (i + chunkSize) with (chunkSize + i) by lia.
      rewrite <- skipn_skipn. apply firstn_skipn.
    + rewrite skipn_all2 by lia. reflexivity.
Qed.

End SegmenterFacts.

Section SegmenterTheorems.

Lemma structuralPass_eq text :
  structuralPass text
  = match allChunks text with
    | Ok chunks => Ok (map tagged (filter has_content chunks))
    | Throw e => Throw e
    end.
Proof. reflexivity. Qed.

(** C1, as amended: [componentBasedChunking] returns a list for every
    text.  When the structural pass throws, the list is the one of
    [chunkWithSlidingWindow]: the chunks of the splitter or, when the
    splitter throws as well, slices of 8000 characters that make up the
    text.  When the pass does not throw, its segments are returned as
    they are, with no fallback when there is none: the result is empty
    exactly when no chunk has a trimmed content of more than 10
    characters. *)
Theorem componentBasedChunking_result
    (text_splitter : nat -> nat -> jsstring -> result (list jsstring))
    (text : jsstring) :
  match allChunks text with
  | Ok chunks =>
      componentBasedChunking text_splitter text
      = map tagged (filter has_content chunks)
      /\ (componentBasedChunking text_splitter text = []
          <-> forall c, In c chunks -> length (trim (content c)) <= 10)
  | Throw _ =>
      componentBasedChunking text_splitter text
      = chunkWithSlidingWindow text_splitter text defaultChunkSize defaultChunkOverlap
      /\ match text_splitter defaultChunkSize defaultChunkOverlap text with
         | Ok chunks => componentBasedChunking text_splitter text = chunks
         | Throw _ => concat (componentBasedChunking text_splitter text) = text
         end
  end.
Proof.
  unfold componentBasedChunking. rewrite structuralPass_eq.
  destruct (allChunks text) as [chunks|e].
  - split; [reflexivity|]. split.
    + intros Hnil c Hin.
      destruct (le_lt_dec (length (trim (content c))) 10) as [Hle|Hlt]; [exact Hle|].
      apply (tagged_kept c chunks Hin) in Hlt. rewrite Hnil in Hlt. destruct Hlt.
    + intros Hall. destruct (filter has_content chunks) as [|c l] eqn:Hf; [reflexivity|].
      assert (Hc : In c (filter has_content chunks)) by (rewrite Hf; left; reflexivity).
      apply filter_In in Hc. destruct Hc as [Hin Hc].
      apply has_content_spec in Hc. specialize (Hall c Hin). lia.
  - split; [reflexivity|]. unfold chunkWithSlidingWindow.
    destruct (text_splitter defaultChunkSize defaultChunkOverlap text); [reflexivity|].
    rewrite basic_chunks_concat; [reflexivity | | lia].
    unfold defaultChunkSize. lia.
Qed.

(** C6, as amended: the filter of the structural pass keeps a chunk
    exactly when its trimmed content has more than 10 characters (11
    or more): a paragraph classified as component or as metadata is in
    the output, under its tag, exactly in that case, and so is every
    connection group, whose content is the one of its paragraphs put
    together. *)
Theorem structuralPass_keeps_long_chunks (text : jsstring) (out : list jsstring) :
  structuralPass text = Ok out ->
  (forall c,
      In c (componentChunks (classified text) ++ metadataChunks (classified text)) ->
      (In (tagged c) out <-> 10 < length (trim (content c))))
  /\ (forall chunks c,
        allChunks text = Ok chunks -> In c chunks ->
        (In (tagged c) out <-> 10 < length (trim (content c)))).
Proof.
  rewrite structuralPass_eq. intros Hout.
  assert (Hall : forall chunks c,
             allChunks text = Ok chunks -> In c chunks ->
             (In (tagged c) out <-> 10 < length (trim (content c)))).
  { intros chunks c Hc Hin. rewrite Hc in Hout. injection Hout as <-.
    apply tagged_kept. exact Hin. }
  split; [|exact Hall].
  intros c Hin. destruct (allChunks text) as [chunks|e] eqn:Hc; [|discriminate].
  apply (Hall chunks c eq_refl).
  revert Hc. unfold allChunks.
  destruct (group_connections [] (connectionChunks (classified text))); [|discriminate].
  intros H; injection H as <-. rewrite app_assoc. apply in_or_app. left. exact Hin.
Qed.

Lemma tagged_component s :
  tagged {| type := component; content := s |} = js "[COMPONENT]" ++ [LF] ++ s.
Proof. reflexivity. Qed.

Lemma tagged_metadata s :
  tagged {| type := metadata; content := s |} = js "[METADATA]" ++ [LF] ++ s.
Proof. reflexivity. Qed.

Lemma tagged_group members :
  tagged (group_chunk members)
  = js "[CONNECTION_GROUP]" ++ [LF] ++ join [LF; LF] (map content members).
Proof. reflexivity. Qed.

Lemma Forall_map_filter {A B} (P : A -> Prop) (Q : B -> Prop) (f : A -> B) keep l :
  (forall a, P a -> Q (f a)) -> Forall P l -> Forall Q (map f (filter keep l)).
Proof.
  intros HPQ. induction 1 as [|a l Ha _ IH]; simpl; [constructor|].
  destruct (keep a); simpl; auto.
Qed.

(** C10, as amended: when the structural pass does not throw, its
    output is made of the component segments, then the metadata
    segments, then the connection groups.  A component segment is
    [[COMPONENT]], a line feed and the trimmed text of a paragraph, a
    metadata segment the same under [[METADATA]]; a connection group is
    [[CONNECTION_GROUP]], a line feed and the trimmed texts of one or
    more paragraphs joined by blank lines. *)
Theorem structuralPass_shape (text : jsstring) (out : list jsstring) :
  structuralPass text = Ok out ->
  exists comps metas conns,
    out = comps ++ metas ++ conns
    /\ Forall (fun segment =>
                 exists p, In p (paragraphs text)
                           /\ segment = js "[COMPONENT]" ++ [LF] ++ trim p) comps
    /\ Forall (fun segment =>
                 exists p, In p (paragraphs text)
                           /\ segment = js "[METADATA]" ++ [LF] ++ trim p) metas
    /\ Forall (fun segment =>
                 exists ps, ps <> [] /\ incl ps (paragraphs text)
                            /\ segment = js "[CONNECTION_GROUP]" ++ [LF]
                                           ++ join [LF; LF] (map trim ps)) conns.
Proof.
  rewrite structuralPass_eq. unfold allChunks.
  assert (Hcls : classes_ok (paragraphs text) (classified text)).
  { apply classified_ok; [apply incl_refl|].
    repeat split; constructor. }
  destruct Hcls as (Hc & Hm & Hn).
  destruct (group_connections [] (connectionChunks (classified text))) as [g|e] eqn:Hg;
    [|discriminate].
  assert (Hgr : groups_ok (paragraphs text) g).
  { eapply group_connections_ok; [constructor | exact Hn | exact Hg]. }
  intros H; injection H as <-.
  rewrite !filter_app, !map_app. do 3 eexists. split; [reflexivity|].
  split; [|split].
  - eapply Forall_map_filter; [|exact Hc].
    intros [t s] [Ht (p & Hin & Hp)]. simpl in Ht, Hp. subst t s.
    exists p. split; [exact Hin | apply tagged_component].
  - eapply Forall_map_filter; [|exact Hm].
    intros [t s] [Ht (p & Hin & Hp)]. simpl in Ht, Hp. subst t s.
    exists p. split; [exact Hin | apply tagged_metadata].
  - eapply Forall_map_filter with (P := fun c => exists members,
        c = group_chunk members /\ members <> []
        /\ Forall (from_paragraph (paragraphs text)) members).
    + intros c (members & -> & Hne & Hall).
      destruct (paragraphs_of Hall) as (qs & Hincl & Hmap).
      exists qs. split; [|split; [exact Hincl|]].
      * intros ->. destruct members; [auto | discriminate].
      * rewrite tagged_group, Hmap. reflexivity.
    + clear Hg. induction Hgr as [|[k v] g [Hne Hv] _ IH]; simpl; constructor; auto.
      exists v. auto.
Qed.

End SegmenterTheorems.

(** ** The proxy at work

    The theorems applied to sample runs, and the runs that bound them. *)

Import JsonText.

Lemma cleanAndFixJSON_never_throws_witness :
  cleanAndFixJSON Sample.clock json_parse (js "no report") world0
  = (Ok (JObject
           [(js "error", JString (js "JSON parsing failed"));
            (js "errorMessage", JString (js "Unexpected token in JSON"));
            (js "timestamp", JString (Sample.clock 0));
            (js "summary",
              JString (js "Error in analysis output format. Please check server logs."))]),
     tick world0).
Proof.
  apply (proj2 (cleanAndFixJSON_never_throws Sample.clock json_parse
                  (js "no report") world0)
           (SyntaxError (js "Unexpected token in JSON"))
           (SyntaxError (js "Unexpected token in JSON"))
           (SyntaxError (js "Unexpected token in JSON")));
    vm_compute; reflexivity.
Defined.

Lemma cleanAndFixJSON_valid_json_witness :
  json_parse (js "{" ++ Sample.quoted "summary" ++ js ": [1, 2]}")
  = Ok (JObject [(js "summary", JArray [JNumber (js "1"); JNumber (js "2")])])
  /\ cleanAndFixJSON Sample.clock json_parse
       (js "{" ++ Sample.quoted "summary" ++ js ": [1, 2]}") world0
     = (Ok (JObject [(js "summary", JArray [JNumber (js "1"); JNumber (js "2")])]),
        world0).
Proof.
  split; [vm_compute; reflexivity|].
  apply (cleanAndFixJSON_valid_json Sample.clock json_parse). vm_compute; reflexivity.
Defined.

Lemma recovered_report_is_parsed_text_witness :
  cleanAndFixJSON Sample.clock json_parse Sample.fenced_report world0
  = (Ok (JObject [(js "summary", JString (js "fine"))]), world0)
  /\ (json_parse Sample.fenced_report
      = Ok (JObject [(js "summary", JString (js "fine"))])
      \/ json_parse (basicCleanup Sample.fenced_report)
         = Ok (JObject [(js "summary", JString (js "fine"))])
      \/ json_parse (aggressiveCleanup (basicCleanup Sample.fenced_report))
         = Ok (JObject [(js "summary", JString (js "fine"))])).
Proof.
  split; [vm_compute; reflexivity|].
  apply (proj1 (@recovered_report_is_parsed_text Sample.clock json_parse
                  Sample.fenced_report world0 world0
                  (JObject [(js "summary", JString (js "fine"))])
                  ltac:(vm_compute; reflexivity) ltac:(vm_compute; reflexivity))).
Defined.

(** C7, as stated, fails: the empty object is valid JSON, so it is
    returned as it is; it carries no error marker and no category. *)
Lemma six_categories_counterexample :
  cleanAndFixJSON Sample.clock json_parse (js "{}") world0 = (Ok (JObject []), world0)
  /\ is_degraded (JObject []) = false
  /\ has_six_categories (JObject []) = false.
Proof. vm_compute. auto. Qed.

Lemma callOpenAIWithRetry_exhausts_witness :
  always_rate_limited Sample.saturated
  /\ exists w',
      callOpenAIWithRetry Sample.saturated Sample.no_jitter Sample.request 2 world0
      = (Throw (Error (js "Failed after 2 retries")), w')
      /\ sent w' = [Sample.request; Sample.request; Sample.request]
      /\ length (slept w') = 3.
Proof.
  split.
  - intros n p. do 2 eexists. split; reflexivity.
  - apply (@callOpenAIWithRetry_exhausts Sample.saturated Sample.no_jitter
             Sample.request 2 world0).
    intros n p. do 2 eexists. split; reflexivity.
Defined.

Lemma callOpenAIWithRetry_other_error_witness :
  exists w',
    callOpenAIWithRetry Sample.locked Sample.no_jitter Sample.request 5 world0
    = (Throw (AxiosError (js "Request failed")
                (Some {| status := 401;
                         data := {| error_message :=
                                      Some (js "Incorrect API key provided") |} |})),
       w')
    /\ sent w' = [Sample.request; Sample.request; Sample.request]
    /\ length (slept w') = 2.
Proof.
  apply (@callOpenAIWithRetry_other_error Sample.locked Sample.no_jitter
           Sample.request 5 2 world0).
  - lia.
  - intros i Hi. destruct i as [|[|i]]; [| |lia];
      do 2 eexists; (split; [reflexivity|]); reflexivity.
  - reflexivity.
  - intros resp H. injection H as <-. discriminate.
Defined.

Lemma rate_limit_wait_witness :
  exists c : Z,
    waitTimeOf {| status := 429;
                  data := {| error_message :=
                               Some (js "Rate limit reached, try again in 1.5s.") |} |}
    = Finite (inject_Z (c + 1000))
    /\ (1500 <= c <= 1500 + 1)%Z
    /\ num_le (Finite (inject_Z (1500 + 1000)))
         (num_add
            (num_add
               (waitTimeOf
                  {| status := 429;
                     data := {| error_message :=
                                  Some (js "Rate limit reached, try again in 1.5s.") |} |})
               (backoff 3))
            (jitter_of (1 # 2))).
Proof.
  pose proof (@rate_limit_wait Sample.saturated Sample.half_jitter Sample.request
                5 3 world0 (js "Request failed")
                {| status := 429;
                   data := {| error_message :=
                                Some (js "Rate limit reached, try again in 1.5s.") |} |}
                ltac:(lia) eq_refl eq_refl ltac:(vm_compute; reflexivity)
                ltac:(discriminate) ltac:(reflexivity))
    as (_ & _ & _ & _ & _ & Hh).
  destruct (Hh (inject_Z (integral (js "1")) + fractional (js "5"))%Q) as [_ Hb].
  - exists (js "Rate limit reached, try again in 1.5s.").
    split; [reflexivity|].
    exists (js "1"), (js "5"), (js ".").
    repeat split; try discriminate; vm_compute; reflexivity.
  - apply (Hb 1500%Z 1500%Z); [lia | lia | |]; vm_compute; discriminate.
Defined.

(** The hint of 2.007 s: the double nearest to 2.007, times 1000, is
    just above 2007, so the wait is 3008 ms. *)
Example waitTimeOf_2007 : waitTimeOf (Sample.hinting "2.007") = Finite 3008.
Proof. vm_compute. reflexivity. Qed.

(** C5, as stated, fails.  A rejection without a hint, handled at retry
    count 0 with no jitter, is followed by a sleep of 30000 ms, short of
    the 30 s plus the buffer of 1 s.  And a hint of
    1.0000000000000000001 s, which no double holds, is followed by a
    sleep of 2000 ms, short of the hinted duration plus the buffer. *)
Lemma rate_limit_wait_counterexample :
  (slept (snd (callOpenAIWithRetry Sample.busy_once Sample.no_jitter
                 Sample.request 5 world0)) = [Finite 30000]
   /\ ~ num_le (Finite (30000 + 1000)) (Finite 30000))
  /\ (slept (snd (callOpenAIWithRetry Sample.busy_hinting Sample.no_jitter
                    Sample.request 5 world0)) = [Finite 2000]
      /\ exists seconds,
           hints (js "Please try again in 1.0000000000000000001s.") seconds
           /\ ~ num_le (Finite (seconds * 1000 + 1000)) (Finite 2000)).
Proof.
  split; split; try (vm_compute; reflexivity).
  - vm_compute. congruence.
  - exists (inject_Z (integral (js "1")) + fractional (js "0000000000000000001"))%Q.
    split.
    + exists (js "1"), (js "0000000000000000001"), (js ".").
      repeat split; try discriminate; vm_compute; reflexivity.
    + vm_compute. congruence.
Qed.

Lemma summarize_calls_witness :
  exists answer w' final batchRequests,
    summarize Sample.obliging Sample.no_jitter Sample.clock json_parse json_stringify
      (repeat (js "{}") 11) 11 world0
    = (Ok answer, w')
    /\ sent w' = final :: batchRequests ++ []
    /\ is_final final = true
    /\ Forall (fun p => is_interim p = true) batchRequests
    /\ length batchRequests = 2.
Proof.
  apply (@summarize_calls Sample.obliging Sample.no_jitter Sample.clock
           json_parse json_stringify
           ltac:(intros n p; eexists; reflexivity)
           (repeat (js "{}") 11) 11 world0).
  simpl. lia.
Defined.

(** C2, as stated, fails where one batch exists: two partial reports
    make one batch, and the request for the final consolidation is
    issued all the same, after the request for the batch. *)
Lemma summarize_calls_counterexample :
  length (make_batches 2 0 [js "{}"; js "{}"]) = 1
  /\ map system
       (sent (snd (summarize Sample.obliging Sample.no_jitter Sample.clock
                     json_parse json_stringify [js "{}"; js "{}"] 2 world0)))
     = [FinalReport 1 (Sample.clock 1); InterimReport 1 1 (Sample.clock 0)].
Proof. vm_compute. auto. Qed.

(** C1, as stated, fails: the text [hi] makes one short chunk; the pass
    does not throw, nothing is left after the filter, and the empty list
    is returned. *)
Lemma componentBasedChunking_counterexample :
  structuralPass (js "hi") = Ok []
  /\ componentBasedChunking Sample.whole_text (js "hi") = [].
Proof. vm_compute. auto. Qed.

Lemma componentBasedChunking_result_witness :
  componentBasedChunking Sample.no_splitter (js "from _, to proto__, ->")
  = chunkWithSlidingWindow Sample.no_splitter (js "from _, to proto__, ->")
      defaultChunkSize defaultChunkOverlap
  /\ concat (componentBasedChunking Sample.no_splitter (js "from _, to proto__, ->"))
     = js "from _, to proto__, ->".
Proof.
  exact (componentBasedChunking_result Sample.no_splitter (js "from _, to proto__, ->")).
Defined.

Lemma structuralPass_keeps_long_chunks_witness :
  structuralPass Sample.web_server = Ok [js "[COMPONENT]" ++ [LF] ++ Sample.web_server]
  /\ (In (tagged {| type := component; content := Sample.web_server |})
         [js "[COMPONENT]" ++ [LF] ++ Sample.web_server]
      <-> 10 < length (trim Sample.web_server)).
Proof.
  split; [vm_compute; reflexivity|].
  apply (proj1 (@structuralPass_keeps_long_chunks Sample.web_server
                  [js "[COMPONENT]" ++ [LF] ++ Sample.web_server]
                  ltac:(vm_compute; reflexivity))).
  vm_compute. auto.
Defined.

(** C6, as stated, fails: a paragraph of 10 characters, none of them a
    space, is classified as a component and dropped by the filter. *)
Lemma structuralPass_threshold_counterexample :
  componentChunks (classified (js "0123456789"))
  = [{| type := component; content := js "0123456789" |}]
  /\ length (trim (js "0123456789")) = 10
  /\ structuralPass (js "0123456789") = Ok [].
Proof. vm_compute. auto. Qed.

Lemma structuralPass_shape_witness :
  exists comps metas conns,
    [js "[COMPONENT]" ++ [LF] ++ Sample.web_server] = comps ++ metas ++ conns
    /\ Forall (fun segment =>
                 exists p, In p (paragraphs Sample.web_server)
                           /\ segment = js "[COMPONENT]" ++ [LF] ++ trim p) comps
    /\ Forall (fun segment =>
                 exists p, In p (paragraphs Sample.web_server)
                           /\ segment = js "[METADATA]" ++ [LF] ++ trim p) metas
    /\ Forall (fun segment =>
                 exists ps, ps <> [] /\ incl ps (paragraphs Sample.web_server)
                            /\ segment = js "[CONNECTION_GROUP]" ++ [LF]
                                           ++ join [LF; LF] (map trim ps)) conns.
Proof.
  apply (@structuralPass_shape Sample.web_server). vm_compute; reflexivity.
Defined.

(** C10, as stated, fails: two connections between the same ends make
    one segment, and what follows its tag is the text of no paragraph. *)
Lemma structuralPass_shape_counterexample :
  structuralPass Sample.twice_connected
  = Ok [js "[CONNECTION_GROUP]" ++ [LF] ++ Sample.twice_connected]
  /\ ~ exists p tag,
         In p (paragraphs Sample.twice_connected)
         /\ In tag [js "[COMPONENT]"; js "[METADATA]"; js "[CONNECTION_GROUP]"]
         /\ js "[CONNECTION_GROUP]" ++ [LF] ++ Sample.twice_connected
            = tag ++ [LF] ++ trim p.
Proof.
  split; [vm_compute; reflexivity|].
  intros (p & tag & Hp & Ht & Heq).
  vm_compute in Hp, Ht.
  destruct Hp as [<-|[<-|[]]]; destruct Ht as [<-|[<-|[<-|[]]]];
    vm_compute in Heq; discriminate Heq.
Qed.


(** * Further properties *)

(** ** The remote call client, whatever the service does *)

Section ClientBounds.

Variable server : nat -> payload -> axios_result.
Variable random : nat -> Q.

Lemma retry_loop_bounded data maxRetries :
  forall k retries w,
    retries + k = S maxRetries ->
    exists n,
      let w' := snd (retry_loop server random data maxRetries retries w) in
      n <= k
      /\ (0 < k -> 0 < n)
      /\ sent w' = repeat data n ++ sent w
      /\ length (slept w') <= length (slept w) + n
      /\ length (slept w) + n <= S (length (slept w'))
      /\ drawn w' + length (slept w) = drawn w + length (slept w')
      /\ ticks w' = ticks w.
Proof.
  induction k as [|k IH]; intros retries w Hk; rewrite retry_loop_eq.
  - replace (retries <=? maxRetries) with false
      by (symmetry; apply Nat.leb_gt; lia).
    exists 0. simpl. repeat split; lia.
  - replace (retries <=? maxRetries) with true
      by (symmetry; apply Nat.leb_le; lia).
    destruct (server (length (sent w)) data) as [r|m r].
    + exists 1. simpl. repeat split; lia.
    + destruct (rate_limited (AxiosError m r)) as [resp|].
      * destruct (IH (S retries) (backed_off random data resp retries w))
          as (n & Hn & _ & Hsent & Hs1 & Hs2 & Hd & Ht); [lia|].
        exists (S n). cbv zeta in *. simpl in Hsent, Hs1, Hs2, Hd, Ht.
        repeat split; try lia.
        rewrite Hsent. simpl. apply repeat_snoc.
      * exists 1. simpl. repeat split; lia.
Qed.

(** Whatever the service answers, a call issues at least one and at
    most [maxRetries + 1] requests, all with the payload it was given;
    it sleeps after each of them but possibly the last, draws one random
    number for each sleep and does not read the clock. *)
Theorem callOpenAIWithRetry_bounded (data : payload) (maxRetries : nat) (w : world) :
  exists n,
    let w' := snd (callOpenAIWithRetry server random data maxRetries w) in
    1 <= n <= maxRetries + 1
    /\ sent w' = repeat data n ++ sent w
    /\ n - 1 <= length (slept w') - length (slept w) <= n
    /\ drawn w' - drawn w = length (slept w') - length (slept w)
    /\ ticks w' = ticks w.
Proof.
  unfold callOpenAIWithRetry.
  destruct (@retry_loop_bounded data maxRetries (S maxRetries) 0 w eq_refl)
    as (n & Hn & Hpos & Hsent & Hs1 & Hs2 & Hd & Ht).
  exists n. cbv zeta in *. repeat split; try lia. exact Hsent.
Qed.

Lemma retry_loop_fulfilled data maxRetries r :
  forall k retries w,
    retries + k <= maxRetries ->
    rate_limited_for server data w k ->
    server (length (sent w) + k) data = Resolved r ->
    exists w',
      retry_loop server random data maxRetries retries w = (Ok r, w')
      /\ sent w' = repeat data (S k) ++ sent w
      /\ length (slept w') = k + length (slept w).
Proof.
  induction k as [|k IH]; intros retries w Hk Hrl Hlast;
    rewrite retry_loop_eq;
    (replace (retries <=? maxRetries) with true
       by (symmetry; apply Nat.leb_le; lia)).
  - rewrite Nat.add_0_r in Hlast. rewrite Hlast.
    exists (requested data w). auto.
  - destruct (Hrl 0) as (m0 & r0 & H0 & Hs); [lia|].
    rewrite Nat.add_0_r in H0. rewrite H0. simpl. rewrite Hs. simpl.
    destruct (IH (S retries) (backed_off random data r0 retries w))
      as (w' & -> & Hsent & Hslept).
    + lia.
    + intros i Hi. destruct (Hrl (S i)) as (m1 & r1 & H1 & Hs1); [lia|].
      exists m1, r1. split; [|exact Hs1].
      simpl. rewrite <- H1. f_equal. lia.
    + simpl. rewrite <- Hlast. f_equal. lia.
    + exists w'. split; [reflexivity|]. split.
      * rewrite Hsent. simpl. f_equal. apply repeat_snoc.
      * rewrite Hslept. simpl. lia.
Qed.

(** A call rejected [k] times for the rate limit, [k] being at most
    [maxRetries], and fulfilled at the next attempt returns that
    response, after [k + 1] requests and [k] sleeps. *)
Theorem callOpenAIWithRetry_retries_until_fulfilled
    (data : payload) (maxRetries k : nat) (w : world) (r : response) :
  k <= maxRetries ->
  rate_limited_for server data w k ->
  server (length (sent w) + k) data = Resolved r ->
  exists w',
    callOpenAIWithRetry server random data maxRetries w = (Ok r, w')
    /\ sent w' = repeat data (k + 1) ++ sent w
    /\ length (slept w') = k + length (slept w).
Proof.
  intros Hk Hrl Hlast. unfold callOpenAIWithRetry.
  replace (k + 1) with (S k) by lia.
  apply retry_loop_fulfilled with (k := k); auto.
Qed.

End ClientBounds.

(** ** Messages without a decimal number *)

Lemma has_decimal_tail x s : has_decimal s = true -> has_decimal (x :: s) = true.
Proof.
  intros H. destruct s as [|b [|c s']]; try discriminate.
  change (has_decimal (x :: b :: c :: s'))
    with (is_digit x && (b =? 46)%N && is_digit c || has_decimal (b :: c :: s')).
  rewrite H. apply orb_true_r.
Qed.

(** The part of the hint after its digits: a dot and digits. *)
Lemma fraction_needs_digit (p : branch) prev s st r :
  is_digit prev = true ->
  run (One (chr 46%N) :: Plus is_digit :: p) s st = Some r ->
  has_decimal (prev :: s) = true.
Proof.
  intros Hprev. destruct s as [|x [|y s']].
  - discriminate.
  - rewrite run_one_cons. destruct (chr 46%N x); discriminate.
  - rewrite run_one_cons. unfold chr at 1. unfold char_eqb.
    destruct (N.eqb_spec 46 x) as [<-|]; [|discriminate].
    rewrite run_plus_unfold. destruct (is_digit y) eqn:Hy; [|discriminate].
    intros _.
    change (has_decimal (prev :: 46%N :: y :: s'))
      with (is_digit prev && (46 =? 46)%N && is_digit y
            || has_decimal (46%N :: y :: s')).
    rewrite Hprev, Hy. reflexivity.
Qed.

Lemma digits_need_fraction (p : branch) :
  forall s prev st r,
    is_digit prev = true ->
    run (Star is_digit :: One (chr 46%N) :: Plus is_digit :: p) s st = Some r ->
    has_decimal (prev :: s) = true.
Proof.
  induction s as [|x s IH]; intros prev st r Hprev.
  - intros H. apply fraction_needs_digit with (p := p) (st := st) (r := r);
      [exact Hprev | exact H].
  - rewrite run_star_unfold. destruct (is_digit x) eqn:Hx.
    + destruct (run (Star is_digit :: One (chr 46%N) :: Plus is_digit :: p) s st)
        as [r'|] eqn:E.
      * intros _. apply has_decimal_tail. eapply IH; eauto.
      * intros H. apply fraction_needs_digit with (p := p) (st := st) (r := r);
          [exact Hprev | exact H].
    + intros H. apply fraction_needs_digit with (p := p) (st := st) (r := r);
        [exact Hprev | exact H].
Qed.

Lemma literal_then (l : jsstring) (p : branch) :
  (forall s st r, run p s st = Some r -> has_decimal s = true) ->
  forall s st r,
    run (map (fun x => One (chr x)) l ++ p) s st = Some r -> has_decimal s = true.
Proof.
  intros Hp. induction l as [|c l IH]; intros s st r; [apply Hp|].
  cbn [map app]. destruct s as [|x s]; [discriminate|].
  rewrite run_one_cons. destruct (chr c x); [|discriminate].
  intros H. apply has_decimal_tail. eapply IH; eauto.
Qed.

Lemma retryHint_run s st r :
  run (lit "try again in "
         ++ [GOpen 1; Plus is_digit; One (chr 46%N); Plus is_digit; GClose 1;
             One (chr 115%N)]) s st = Some r ->
  has_decimal s = true.
Proof.
  unfold lit. apply literal_then. clear. intros s st r.
  rewrite run_group_open. destruct s as [|x s]; [discriminate|].
  rewrite run_plus_unfold. destruct (is_digit x) eqn:Hx; [|discriminate].
  intros H. eapply digits_need_fraction; eauto.
Qed.

Lemma retryHint_needs_decimal :
  forall s pre found, search_from retryHint pre s = Some found -> has_decimal s = true.
Proof.
  unfold retryHint.
  induction s as [|x s IH]; intros pre found; cbn [search_from match_here].
  - destruct (run _ [] mstate0) as [[rest st]|] eqn:E; [|discriminate].
    intros _. eapply retryHint_run. exact E.
  - destruct (run _ (x :: s) mstate0) as [[rest st]|] eqn:E.
    + intros _. eapply retryHint_run. exact E.
    + intros H. apply has_decimal_tail. eapply IH; eauto.
Qed.

(** A rate-limit message in which no dot stands between two digits,
    such as one that gives the delay in whole seconds, is not taken for
    a hint: the wait is computed from the default of 30000 ms. *)
Theorem waitTimeOf_without_decimal (resp : error_response) :
  (forall message, error_message (data resp) = Some message ->
                   has_decimal message = false) ->
  waitTimeOf resp = Finite 30000.
Proof.
  intros Hdot. unfold waitTimeOf.
  destruct (error_message (data resp)) as [message|]; [|reflexivity].
  destruct (search retryHint message) as [m|] eqn:E; [|reflexivity].
  apply retryHint_needs_decimal in E. rewrite (Hdot message eq_refl) in E.
  discriminate E.
Qed.


(** ** The output recovery parser: its effects and its repairs *)

Section RecoveryEffects.

Variable clock : nat -> jsstring.
Variable JSON_parse : jsstring -> result value.

(** [cleanAndFixJSON] sends nothing, does not sleep and draws no random
    number; it reads the clock once when the three attempts fail, to
    date the degraded record, and leaves the world as it is
    otherwise. *)
Theorem cleanAndFixJSON_effects (jsonString : jsstring) (w : world) :
  snd (cleanAndFixJSON clock JSON_parse jsonString w)
  = match JSON_parse jsonString,
          JSON_parse (basicCleanup jsonString),
          JSON_parse (aggressiveCleanup (basicCleanup jsonString)) with
    | Throw _, Throw _, Throw _ => tick w
    | _, _, _ => w
    end.
Proof.
  unfold cleanAndFixJSON, try_catch, lift, bind, now, ret.
  destruct (JSON_parse jsonString); [reflexivity|].
  destruct (JSON_parse (basicCleanup jsonString)); [reflexivity|].
  destruct (JSON_parse (aggressiveCleanup (basicCleanup jsonString))); reflexivity.
Qed.

End RecoveryEffects.

Lemma count_one_char (c : char) (s : jsstring) :
  count_g [[One (chr c)]] s = count_occ N.eq_dec s c.
Proof.
  unfold count_g. induction s as [|x s IH]; [reflexivity|].
  cbn [count_from match_here run]. unfold chr at 1. unfold char_eqb.
  rewrite N.eqb_sym.
  destruct (N.eqb_spec x c) as [->|Hne].
  - replace (length (c :: s) - length s) with 1 by (cbn [length]; lia).
    rewrite IH. simpl. destruct (N.eq_dec c c); congruence.
  - rewrite IH. simpl. destruct (N.eq_dec x c); congruence.
Qed.

Lemma count_occ_repeat_str (c d : char) (n : nat) :
  count_occ N.eq_dec (repeat_str [d] n) c = if N.eq_dec d c then n else 0.
Proof.
  induction n as [|n IH]; simpl.
  - destruct (N.eq_dec d c); reflexivity.
  - rewrite IH. destruct (N.eq_dec d c); reflexivity.
Qed.

(** After the aggressive cleanup the text has at least as many closing
    braces as opening ones, and at least as many closing brackets as
    opening ones. *)
Theorem aggressiveCleanup_closes (cleanedJSON : jsstring) :
  count_g [lit "{"] (aggressiveCleanup cleanedJSON)
  <= count_g [lit "}"] (aggressiveCleanup cleanedJSON)
  /\ count_g [lit "["] (aggressiveCleanup cleanedJSON)
     <= count_g [lit "]"] (aggressiveCleanup cleanedJSON).
Proof.
  unfold aggressiveCleanup.
  set (s := replace_g innerQuotesPattern _ _).
  change (lit "{") with [One (chr 123%N)].
  change (lit "}") with [One (chr 125%N)].
  change (lit "[") with [One (chr 91%N)].
  change (lit "]") with [One (chr 93%N)].
  change (js "}") with [125%N]. change (js "]") with [93%N].
  rewrite !count_one_char.
  set (ob := count_occ N.eq_dec s 123%N).
  set (cb := count_occ N.eq_dec s 125%N).
  set (ok := count_occ N.eq_dec s 91%N).
  set (ck := count_occ N.eq_dec s 93%N).
  destruct (Nat.ltb_spec cb ob) as [Hb|Hb]; destruct (Nat.ltb_spec ck ok) as [Hk|Hk];
    rewrite ?count_occ_app, ?count_occ_repeat_str; simpl;
    change (count_occ N.eq_dec s 123%N) with ob;
    change (count_occ N.eq_dec s 125%N) with cb;
    change (count_occ N.eq_dec s 91%N) with ok;
    change (count_occ N.eq_dec s 93%N) with ck;
    clearbody ob cb ok ck; lia.
Qed.

(** *** What a replacement keeps *)

Section Kept.

Variable P : char -> Prop.

Lemma lookup_keep g (l : list (nat * jsstring)) t :
  Forall (fun kv => Forall P (snd kv)) l -> lookup g l = Some t -> Forall P t.
Proof.
  induction 1 as [|[k v] l Hv _ IH]; simpl; [discriminate|].
  destruct (Nat.eqb k g); [intros H; injection H as <-; exact Hv | exact IH].
Qed.

Lemma Forall_firstn n (s : jsstring) : Forall P s -> Forall P (firstn n s).
Proof.
  intros H. revert n. induction H; intros [|n]; simpl; constructor; auto.
Qed.

Lemma open_group_keep g s st :
  Forall P s -> captures_keep P st -> captures_keep P (open_group g s st).
Proof. intros Hs [Ho Hc]. split; simpl; [constructor|]; auto. Qed.

Lemma close_group_keep g s st :
  captures_keep P st -> captures_keep P (close_group g s st).
Proof.
  intros [Ho Hc]. unfold close_group.
  destruct (lookup g (opened st)) as [s0|] eqn:E; [|split; assumption].
  split; simpl; [exact Ho|]. constructor; [|exact Hc].
  simpl. apply Forall_firstn. exact (lookup_keep g Ho E).
Qed.

Lemma run_keep (p : branch) :
  forall s st rest st',
    Forall P s -> captures_keep P st ->
    run p s st = Some (rest, st') -> captures_keep P st'.
Proof.
  induction p as [|a p IH]; intros s st rest st' Hs Hst.
  - simpl. intros H; injection H as _ <-. exact Hst.
  - assert (Hstar : forall q : cls, forall s,
               Forall P s ->
               (fix star (s : jsstring) : option (jsstring * mstate) :=
                  match s with
                  | x :: s' =>
                      if q x then
                        match star s' with
                        | Some r => Some r
                        | None => run p s st
                        end
                      else run p s st
                  | [] => run p s st
                  end) s = Some (rest, st') -> captures_keep P st').
    { intros q s0. induction s0 as [|x s0 IHs]; intros Hxs H.
      - eapply IH; [exact Hxs | exact Hst | exact H].
      - assert (Hs0 : Forall P s0) by (inversion Hxs; assumption).
        destruct (q x); [|eapply IH; [exact Hxs | exact Hst | exact H]].
        match type of H with
        | match ?e with _ => _ end = _ => destruct e as [[r1 r2]|] eqn:E
        end.
        + injection H as -> ->. apply IHs; [exact Hs0 | reflexivity].
        + eapply IH; [exact Hxs | exact Hst | exact H]. }
    destruct a; simpl.
    + destruct Hs as [|x s Hx Hs]; [discriminate|].
      destruct (p0 x); [|discriminate]. eapply IH; eauto.
    + destruct Hs as [|x s Hx Hs]; [eapply IH; eauto|].
      assert (Hxs : Forall P (x :: s)) by (constructor; auto).
      destruct (p0 x); [|eapply IH; eauto].
      destruct (run p s st) as [[r1 r2]|] eqn:E; [|eapply IH; eauto].
      intros H; injection H as -> ->. eapply IH; [exact Hs | exact Hst | exact E].
    + apply Hstar. exact Hs.
    + destruct Hs as [|x s Hx Hs]; [discriminate|].
      destruct (p0 x); [|discriminate]. apply Hstar. exact Hs.
    + induction Hs as [|x s Hx Hs IHs].
      * destruct (run p [] st) as [[r1 r2]|] eqn:E; [|discriminate].
        intros H; injection H as -> ->. eapply IH; [constructor | exact Hst | exact E].
      * destruct (run p (x :: s) st) as [[r1 r2]|] eqn:E.
        -- intros H; injection H as -> ->.
           eapply IH; [constructor; eauto | exact Hst | exact E].
        -- destruct (p0 x); [exact IHs | discriminate].
    + apply IH; [exact Hs | apply open_group_keep; assumption].
    + apply IH; [exact Hs | apply close_group_keep; assumption].
    + destruct s; [eapply IH; eauto | discriminate].
    + destruct Hs as [|x s Hx Hs]; [eapply IH; eauto|].
      destruct (is_line_terminator x); [|discriminate].
      eapply IH; eauto.
Qed.

Lemma match_here_keep (r : regex) s rest st :
  Forall P s -> match_here r s = Some (rest, st) -> captures_keep P st.
Proof.
  intros Hs. induction r as [|b r IH]; simpl; [discriminate|].
  destruct (run b s mstate0) as [[r1 r2]|] eqn:E; [|exact IH].
  intros H; injection H as -> ->.
  eapply run_keep with (st := mstate0);
    [exact Hs | split; simpl; constructor | exact E].
Qed.

Lemma expand_keep tmpl st :
  pieces_keep P tmpl -> captures_keep P st -> Forall P (expand tmpl st).
Proof.
  intros Ht [_ Hc]. induction Ht as [|[t|g] tmpl Hp _ IH]; simpl.
  - constructor.
  - apply Forall_app. split; assumption.
  - apply Forall_app. split; [|exact IH].
    unfold group. destruct (lookup g (closed st)) as [t|] eqn:E; [|constructor].
    eapply lookup_keep; eauto.
Qed.

Lemma replace_from_keep (r : regex) tmpl :
  pieces_keep P tmpl ->
  forall s skip, Forall P s -> Forall P (replace_from r tmpl skip s).
Proof.
  intros Ht. induction s as [|x s IH]; intros skip Hs; cbn [replace_from].
  - destruct skip; [|constructor].
    destruct (match_here r []) as [[rest st]|] eqn:E; [|constructor].
    apply expand_keep; [exact Ht | exact (match_here_keep r Hs E)].
  - inversion Hs as [|? ? Hx Hs']; subst.
    destruct skip as [|k]; [|apply IH; exact Hs'].
    destruct (match_here r (x :: s)) as [[rest st]|] eqn:E.
    + assert (He : Forall P (expand tmpl st))
        by (apply expand_keep; [exact Ht | exact (match_here_keep r Hs E)]).
      destruct (length (x :: s) - length rest);
        apply Forall_app; split; auto.
    + constructor; auto.
Qed.

Lemma replace_g_keep (r : regex) tmpl s :
  pieces_keep P tmpl -> Forall P s -> Forall P (replace_g r tmpl s).
Proof. intros Ht Hs. apply replace_from_keep; assumption. Qed.

End Kept.


Lemma replace_char_gone (c : char) (t s : jsstring) :
  ~ In c t ->
  Forall (fun y => y <> c) (replace_g [[One (chr c)]] [Lit t] s).
Proof.
  intros Ht. unfold replace_g.
  assert (Hexp : forall st, Forall (fun y => y <> c) (expand [Lit t] st)).
  { intros st. simpl. rewrite app_nil_r. apply Forall_forall.
    intros y Hy ->. exact (Ht Hy). }
  induction s as [|x s IH]; cbn [replace_from match_here run]; [constructor|].
  unfold chr at 1. unfold char_eqb.
  destruct (N.eqb_spec c x) as [->|Hne].
  - replace (length (x :: s) - length s) with 1 by (cbn [length]; lia).
    apply Forall_app. split; [apply Hexp | exact IH].
  - constructor; [congruence | exact IH].
Qed.

Lemma star_alone (q : cls) (s : jsstring) (st : mstate) :
  exists rest, run [Star q] s st = Some (rest, st) /\ length rest <= length s.
Proof.
  induction s as [|x s (rest & Hr & Hl)]; [exists []; auto|].
  rewrite run_star_unfold, Hr. destruct (q x).
  - exists rest. simpl. split; [reflexivity | lia].
  - exists (x :: s). auto.
Qed.

Lemma plus_alone (q : cls) (x : char) (s : jsstring) :
  match_here [[Plus q]] (x :: s)
  = if q x
    then match run [Star q] s mstate0 with
         | Some m => Some m
         | None => None
         end
    else None.
Proof.
  cbn [match_here]. rewrite run_plus_unfold. destruct (q x); reflexivity.
Qed.

Lemma spaces_collapsed (s : jsstring) :
  Forall (fun c => is_space c = true -> c = 32%N)
         (replace_g [[Plus is_space]] [Lit (js " ")] s).
Proof.
  unfold replace_g. generalize 0 as skip.
  induction s as [|x s IH]; intros skip; cbn [replace_from].
  - destruct skip; cbn; constructor.
  - destruct skip as [|k]; [|apply IH].
    rewrite plus_alone.
    destruct (star_alone is_space s mstate0) as (rest & -> & Hl).
    destruct (is_space x) eqn:Hx.
    + destruct (length (x :: s) - length rest) eqn:Hd; [cbn [length] in Hd; lia|].
      simpl. constructor; [reflexivity | apply IH].
    + constructor; [|apply IH]. rewrite Hx. discriminate.
Qed.

Ltac keep_chars :=
  repeat first [apply Forall_nil | apply Forall_cons; [first [assumption | discriminate]|]].

Ltac keep_pieces :=
  unfold pieces_keep;
  repeat first
    [ apply Forall_nil
    | apply Forall_cons; [first [exact I | cbn; keep_chars]|] ].

(** The text given by the basic cleanup holds no single quote and no
    white space but the plain space: no line break and no tab. *)
Theorem basicCleanup_charset (jsonString : jsstring) :
  Forall (fun c => c <> squote /\ (is_space c = true -> c = 32%N))
         (basicCleanup jsonString).
Proof.
  unfold basicCleanup.
  set (s2 := replace_g bareNamePattern _ _).
  set (P := fun c : char => c <> squote /\ (is_space c = true -> c = 32%N)).
  assert (Hcolon : P 58%N) by (split; [discriminate | intros H; discriminate H]).
  assert (Hquote : P dquote) by (split; [discriminate | intros H; discriminate H]).
  apply replace_g_keep; [keep_pieces|].
  apply replace_g_keep; [keep_pieces|].
  apply replace_g_keep; [keep_pieces|].
  apply replace_g_keep; [keep_pieces|].
  apply Forall_forall. intros c Hc. split.
  - revert c Hc. apply Forall_forall.
    apply replace_g_keep with (P := fun y => y <> squote); [keep_pieces|].
    apply replace_g_keep with (P := fun y => y <> squote); [keep_pieces|].
    change (lit "'") with [One (chr squote)].
    apply replace_char_gone. intros [H|[]]. discriminate H.
  - exact (proj1 (Forall_forall _ _) (spaces_collapsed _) c Hc).
Qed.


(** ** The segmenter: fallback, classification and grouping *)

Section FallbackChunks.

Variable text_splitter : nat -> nat -> jsstring -> result (list jsstring).

Lemma ceil_step (n m : nat) :
  0 < n -> 0 < m -> (m + n - 1) / n = S ((m - n + n - 1) / n).
Proof.
  intros Hn Hm. destruct (le_lt_dec n m) as [H|H].
  - replace (m + n - 1) with ((m - n + n - 1) + 1 * n) by lia.
    rewrite Nat.div_add by lia. lia.
  - replace (m - n) with 0 by lia. rewrite Nat.add_0_l.
    rewrite (Nat.div_small (n - 1) n) by lia.
    symmetry. apply Nat.div_unique with (r := m - 1); lia.
Qed.

Lemma basic_chunks_sizes chunkSize text :
  0 < chunkSize ->
  forall fuel i,
    Forall (fun c => 0 < length c <= chunkSize)
           (basic_chunks fuel i chunkSize text).
Proof.
  intros Hpos. induction fuel as [|fuel IH]; intros i; cbn [basic_chunks];
    [constructor|].
  destruct (Nat.ltb_spec i (length text)) as [Hlt|Hge]; [|constructor].
  constructor; [|apply IH].
  unfold slice. rewrite length_firstn, length_skipn. lia.
Qed.

Lemma basic_chunks_count chunkSize text :
  0 < chunkSize ->
  forall fuel i,
    length text - i <= fuel ->
    length (basic_chunks fuel i chunkSize text)
    = (length text - i + chunkSize - 1) / chunkSize.
Proof.
  intros Hpos. induction fuel as [|fuel IH]; intros i Hf; cbn [basic_chunks].
  - replace (length text - i) with 0 by lia.
    rewrite Nat.add_0_l, Nat.div_small by lia. reflexivity.
  - destruct (Nat.ltb_spec i (length text)) as [Hlt|Hge].
    + cbn [length]. rewrite IH by lia.
      rewrite (@ceil_step chunkSize (length text - i)) by lia.
      do 2 f_equal. lia.
    + replace (length text - i) with 0 by lia.
      rewrite Nat.add_0_l, Nat.div_small by lia. reflexivity.
Qed.

(** When the splitter throws, [chunkWithSlidingWindow] cuts the text in
    consecutive slices: put end to end they give the text back, none is
    empty or longer than [chunkSize], and there are
    [ceil(length / chunkSize)] of them (none for the empty text). *)
Theorem chunkWithSlidingWindow_fallback
    (text : jsstring) (chunkSize chunkOverlap : nat) (error : exn) :
  0 < chunkSize ->
  text_splitter chunkSize chunkOverlap text = Throw error ->
  let chunks := chunkWithSlidingWindow text_splitter text chunkSize chunkOverlap in
  concat chunks = text
  /\ Forall (fun c => 0 < length c <= chunkSize) chunks
  /\ length chunks = (length text + chunkSize - 1) / chunkSize.
Proof.
  intros Hpos Hthrow. unfold chunkWithSlidingWindow. rewrite Hthrow. cbv zeta.
  split; [|split].
  - rewrite basic_chunks_concat by lia. reflexivity.
  - apply basic_chunks_sizes. exact Hpos.
  - rewrite basic_chunks_count by lia. rewrite Nat.sub_0_r. reflexivity.
Qed.

End FallbackChunks.

Lemma classify_contents st p :
  Permutation (contents (classify st p)) (trim p :: contents st).
Proof.
  unfold classify, contents.
  destruct (categorize st p) as [t [[cl nl] ml]].
  destruct t; cbn [componentChunks metadataChunks connectionChunks];
    rewrite !map_app; cbn [map content].
  all: set (A := map content (componentChunks st));
       set (B := map content (metadataChunks st));
       set (C := map content (connectionChunks st)).
  - rewrite <- app_assoc. apply Permutation_sym. exact (Permutation_middle A (B ++ C) (trim p)).
  - rewrite !app_assoc. apply Permutation_sym, Permutation_cons_append.
  - rewrite <- app_assoc. cbn [app]. rewrite app_assoc.
    apply Permutation_sym. rewrite (app_assoc A B C).
    exact (Permutation_middle (A ++ B) C (trim p)).
  - rewrite !app_assoc. apply Permutation_sym, Permutation_cons_append.
Qed.

Lemma classified_contents ps :
  forall st,
    Permutation (contents (fold_left classify ps st)) (map trim ps ++ contents st).
Proof.
  induction ps as [|p ps IH]; intros st; simpl; [apply Permutation_refl|].
  eapply Permutation_trans; [apply IH|].
  eapply Permutation_trans;
    [apply Permutation_app_head, classify_contents|].
  apply Permutation_sym, Permutation_middle.
Qed.

Lemma classified_length (text : jsstring) :
  length (componentChunks (classified text))
  + length (metadataChunks (classified text))
  + length (connectionChunks (classified text))
  = length (paragraphs text).
Proof.
  assert (Hp := Permutation_length
                  (classified_contents (paragraphs text) classes0)).
  unfold contents in Hp. simpl in Hp.
  rewrite app_nil_r, !length_map, !length_app in Hp.
  unfold classified. lia.
Qed.

(** The classification puts every paragraph, trimmed, in exactly one of
    its three arrays: together they hold the trimmed paragraphs of the
    text, each as often as it occurs. *)
Theorem classified_partition (text : jsstring) :
  Permutation
    (map content (componentChunks (classified text)
                    ++ metadataChunks (classified text)
                    ++ connectionChunks (classified text)))
    (map trim (paragraphs text)).
Proof.
  unfold classified.
  eapply Permutation_trans; [apply (classified_contents (paragraphs text) classes0)|].
  unfold contents. simpl. rewrite app_nil_r. apply Permutation_refl.
Qed.

Lemma put_length key v (g : groups) : length (put key v g) <= S (length g).
Proof.
  induction g as [|[k w] g IH]; simpl; [lia|].
  destruct (eqb k key); simpl; lia.
Qed.

Lemma group_connections_length conns :
  forall g g', group_connections g conns = Ok g' ->
               length g' <= length g + length conns.
Proof.
  induction conns as [|conn conns IH]; intros g g'; simpl.
  - intros H; injection H as <-. lia.
  - destruct (group_connection g conn) as [g1|e] eqn:Hg; [|discriminate].
    intros H. apply IH in H.
    assert (length g1 <= S (length g)); [|lia].
    revert Hg. unfold group_connection.
    destruct (match_either fromPattern sourcePattern (content conn));
      [destruct (match_either toPattern targetPattern (content conn))|].
    + destruct (own _ g); [|destruct (inherited _); [discriminate|]];
        intros H'; injection H' as <-; apply put_length.
    + intros H'; injection H' as <-; apply put_length.
    + intros H'; injection H' as <-; apply put_length.
Qed.

(** The structural pass never gives more segments than the text has
    paragraphs. *)
Theorem structuralPass_at_most_paragraphs (text : jsstring) (out : list jsstring) :
  structuralPass text = Ok out -> length out <= length (paragraphs text).
Proof.
  unfold structuralPass, allChunks.
  destruct (group_connections [] (connectionChunks (classified text))) as [g|e] eqn:Hg;
    [|discriminate].
  intros H; injection H as <-.
  rewrite length_map.
  eapply Nat.le_trans; [apply filter_length_le|].
  apply group_connections_length in Hg. simpl in Hg.
  assert (Hp := classified_length text).
  rewrite !length_app, length_map. lia.
Qed.

Lemma conn_key_own n : inherited (js "conn_" ++ of_nat n) = false.
Proof. reflexivity. Qed.

Lemma put_keys_own key v (g : groups) :
  inherited key = false ->
  Forall (fun kv => inherited (fst kv) = false) g ->
  Forall (fun kv => inherited (fst kv) = false) (put key v g).
Proof.
  intros Hk. induction 1 as [|[k w] g Hkw Hg IH]; simpl.
  - constructor; [exact Hk | constructor].
  - destruct (eqb k key); constructor; auto.
Qed.

Lemma own_not_inherited key (g : groups) members :
  Forall (fun kv => inherited (fst kv) = false) g ->
  own key g = Some members -> inherited key = false.
Proof.
  induction 1 as [|[k w] g Hkw Hg IH]; simpl; [discriminate|].
  destruct (eqb k key) eqn:E; [|exact IH].
  apply eqb_eq in E. subst k. intros _. exact Hkw.
Qed.

Lemma group_connection_throws g conn :
  Forall (fun kv => inherited (fst kv) = false) g ->
  match group_connection g conn with
  | Ok g' => Forall (fun kv => inherited (fst kv) = false) g'
             /\ ~ names_inherited conn
  | Throw e =>
      e = TypeError (js "groupedConnections[key].push is not a function")
      /\ names_inherited conn
  end.
Proof.
  intros Hg. unfold group_connection, names_inherited, grouping_key.
  destruct (match_either fromPattern sourcePattern (content conn)) as [source|];
    [destruct (match_either toPattern targetPattern (content conn)) as [target|]|].
  - destruct (own _ g) as [members|] eqn:Hown.
    + assert (Hk := own_not_inherited _ Hg Hown). split.
      * apply put_keys_own; assumption.
      * intros (key & Hkey & Hin). injection Hkey as <-.
        change (source ++ 95%N :: target) with (source ++ js "_" ++ target) in Hin.
        congruence.
    + destruct (inherited (source ++ js "_" ++ target)) eqn:Hin.
      * split; [reflexivity|]. eexists. split; [reflexivity | exact Hin].
      * split; [apply put_keys_own; assumption|].
        intros (key & Hkey & Hin'). injection Hkey as <-.
        change (source ++ 95%N :: target) with (source ++ js "_" ++ target) in Hin'.
        congruence.
  - split; [apply put_keys_own; [apply conn_key_own | exact Hg]|].
    intros (key & Hkey & _). discriminate.
  - split; [apply put_keys_own; [apply conn_key_own | exact Hg]|].
    intros (key & Hkey & _). discriminate.
Qed.

Lemma group_connections_throws conns :
  forall g,
    Forall (fun kv => inherited (fst kv) = false) g ->
    match group_connections g conns with
    | Ok _ => ~ Exists names_inherited conns
    | Throw e =>
        e = TypeError (js "groupedConnections[key].push is not a function")
        /\ Exists names_inherited conns
    end.
Proof.
  induction conns as [|conn conns IH]; intros g Hg; simpl.
  - intros H. inversion H.
  - assert (Hstep := group_connection_throws conn Hg).
    destruct (group_connection g conn) as [g1|e].
    + destruct Hstep as [Hg1 Hno]. specialize (IH g1 Hg1).
      destruct (group_connections g1 conns) as [g2|e].
      * intros H. inversion H; subst; auto.
      * destruct IH as [-> Hex]. split; [reflexivity | right; exact Hex].
    + destruct Hstep as [-> Hin]. split; [reflexivity | left; exact Hin].
Qed.

(** The structural pass throws exactly when the source and the target
    found in some connection paragraph make up the name of a property
    that every object inherits, such as [__proto__]; what it throws is
    the [TypeError] of the [push] that is missing.  Only then does
    [componentBasedChunking] fall back on the sliding window. *)
Theorem structuralPass_throws (text : jsstring) :
  match structuralPass text with
  | Ok _ => ~ Exists names_inherited (connectionChunks (classified text))
  | Throw e =>
      e = TypeError (js "groupedConnections[key].push is not a function")
      /\ Exists names_inherited (connectionChunks (classified text))
  end.
Proof.
  unfold structuralPass, allChunks.
  assert (H := @group_connections_throws (connectionChunks (classified text)) []
                 (Forall_nil _)).
  destruct (group_connections [] (connectionChunks (classified text))); exact H.
Qed.


(** ** The paragraphs of a text *)

Lemma star_breaks (s : jsstring) (st : mstate) :
  run [Star (chr LF)] s st = Some (drop_breaks s, st).
Proof.
  induction s as [|x s IH]; [reflexivity|].
  rewrite run_star_unfold, IH. unfold chr. cbn [drop_breaks run].
  destruct (char_eqb LF x); reflexivity.
Qed.

Lemma break_here (s : jsstring) :
  match_here paragraphBreak s
  = match s with
    | a :: b :: s' =>
        if char_eqb LF a && char_eqb LF b
        then Some (drop_breaks s', mstate0) else None
    | _ => None
    end.
Proof.
  unfold paragraphBreak. cbn [match_here].
  destruct s as [|a [|b s']].
  - reflexivity.
  - cbn [run]. unfold chr. destruct (char_eqb LF a); reflexivity.
  - change (run [One (chr LF); Plus (chr LF)] (a :: b :: s') mstate0)
      with (if chr LF a then run [Plus (chr LF)] (b :: s') mstate0 else None).
    rewrite run_plus_unfold, star_breaks. unfold chr.
    destruct (char_eqb LF a), (char_eqb LF b); reflexivity.
Qed.

Lemma drop_breaks_length s : length (drop_breaks s) <= length s.
Proof.
  induction s as [|x s IH]; cbn [drop_breaks length]; [lia|].
  destruct (char_eqb LF x); cbn [length]; lia.
Qed.

Lemma no_blank_line_snoc l x :
  no_blank_line l = true ->
  (char_eqb LF x = true -> hd x (rev l) <> LF \/ l = []) ->
  no_blank_line (l ++ [x]) = true.
Proof.
  induction l as [|a l IH]; intros Hl Hx; [reflexivity|].
  destruct l as [|b l].
  - cbn [app no_blank_line]. rewrite andb_true_r. apply negb_true_iff.
    destruct (char_eqb LF a) eqn:Ea; [|reflexivity].
    destruct (char_eqb LF x) eqn:Ex; [|reflexivity].
    exfalso. destruct (Hx eq_refl) as [H|H]; [|discriminate].
    apply H. cbn [rev app hd]. symmetry. apply N.eqb_eq. exact Ea.
  - change ((a :: b :: l) ++ [x]) with (a :: (b :: l) ++ [x]).
    cbn [no_blank_line app] in Hl |- *.
    apply andb_true_iff in Hl. destruct Hl as [Hab Hl].
    rewrite Hab. cbn [andb]. apply IH; [exact Hl|].
    intros Ex. destruct (Hx Ex) as [H|H]; [|discriminate].
    left. revert H. cbn [rev]. 
    destruct (rev l ++ [b]) as [|y t] eqn:E.
    + destruct (rev l); discriminate.
    + cbn [app hd]. auto.
Qed.

Lemma split_no_blank_line :
  forall s skip cur,
    (skip <> 0 -> cur = []) ->
    no_blank_line (rev cur) = true ->
    (skip = 0 -> forall c cur', cur = c :: cur' -> c = LF ->
                 match s with x :: _ => x <> LF | [] => True end) ->
    Forall (fun p => no_blank_line p = true)
           (split_from paragraphBreak skip cur s).
Proof.
  induction s as [|x s IH]; intros skip cur Hskip Hcur Hlast; cbn [split_from].
  - constructor; [exact Hcur | constructor].
  - destruct skip as [|k].
    + rewrite break_here.
      destruct s as [|b s'].
      * apply IH; [congruence | |intros; exact I].
        cbn [rev]. apply no_blank_line_snoc; [exact Hcur|].
        intros Ex. destruct cur as [|c cur']; [right; reflexivity|left].
        rewrite rev_involutive. cbn [hd]. intros ->.
        apply (Hlast eq_refl LF cur' eq_refl eq_refl).
        symmetry. apply N.eqb_eq. exact Ex.
      * destruct (char_eqb LF x && char_eqb LF b) eqn:E.
        -- assert (Hl := drop_breaks_length s').
           destruct (length (x :: b :: s') - length (drop_breaks s')) eqn:Hd;
             [cbn [length] in Hd; lia|].
           constructor; [exact Hcur|].
           apply IH; [reflexivity | reflexivity | intros; discriminate].
        -- apply IH; [congruence | |].
           ++ cbn [rev]. apply no_blank_line_snoc; [exact Hcur|].
              intros Ex. destruct cur as [|c cur']; [right; reflexivity|left].
              rewrite rev_involutive. cbn [hd]. intros ->.
              apply (Hlast eq_refl LF cur' eq_refl eq_refl).
              symmetry. apply N.eqb_eq. exact Ex.
           ++ intros _ c cur' Hc Hc2 Hb. injection Hc as Hx _.
              rewrite Hx, Hc2, Hb in E. vm_compute in E. discriminate E.
    + specialize (Hskip ltac:(discriminate)). subst cur.
      apply IH.
      * reflexivity.
      * reflexivity.
      * intros; discriminate.
Qed.

Lemma no_blank_line_includes (s : jsstring) :
  no_blank_line s = true -> includes s [LF; LF] = false.
Proof.
  induction s as [|a s IH]; [reflexivity|].
  destruct s as [|b s'].
  - intros _. cbn [includes starts_with]. destruct (char_eqb LF a); reflexivity.
  - cbn [no_blank_line]. intros H. apply andb_true_iff in H. destruct H as [Hab Hs].
    change (includes (a :: b :: s') [LF; LF])
      with (starts_with [LF; LF] (a :: b :: s') || includes (b :: s') [LF; LF]).
    rewrite (IH Hs), orb_false_r. cbn [starts_with]. rewrite andb_true_r.
    apply negb_true_iff. exact Hab.
Qed.

(** No paragraph of a text holds a blank line: the text is cut at every
    run of two line feeds or more. *)
Theorem paragraphs_without_blank_line (text : jsstring) :
  Forall (fun p => includes p [LF; LF] = false) (paragraphs text).
Proof.
  apply Forall_impl with (P := fun p => no_blank_line p = true);
    [exact no_blank_line_includes|].
  unfold paragraphs, split.
  apply split_no_blank_line; [congruence | reflexivity | discriminate].
Qed.


(** ** The request handler: batches, pacing and answers *)

Lemma make_batches_concat chunkResults :
  forall fuel i,
    length chunkResults - i <= fuel ->
    concat (make_batches fuel i chunkResults) = skipn i chunkResults.
Proof.
  induction fuel as [|fuel IH]; intros i Hf; cbn [make_batches].
  - rewrite skipn_all2 by lia. reflexivity.
  - destruct (Nat.ltb_spec i (length chunkResults)) as [Hlt|Hge].
    + cbn [concat]. rewrite IH by (unfold batchSize; lia).
      replace (i + batchSize) with (batchSize + i) by lia.
      rewrite <- skipn_skipn. apply firstn_skipn.
    + rewrite skipn_all2 by lia. reflexivity.
Qed.

Lemma make_batches_sizes chunkResults :
  forall fuel i,
    Forall (fun batch => 0 < length batch <= batchSize)
           (make_batches fuel i chunkResults).
Proof.
  induction fuel as [|fuel IH]; intros i; cbn [make_batches]; [constructor|].
  destruct (Nat.ltb_spec i (length chunkResults)) as [Hlt|Hge]; [|constructor].
  constructor; [|apply IH].
  rewrite length_firstn, length_skipn. unfold batchSize. lia.
Qed.

(** The batches of the reducer hold all the partial reports, in their
    order, each in one batch; no batch is empty and none has more than
    10 reports. *)
Theorem make_batches_partition (chunkResults : list jsstring) :
  let batches := make_batches (length chunkResults) 0 chunkResults in
  concat batches = chunkResults
  /\ Forall (fun batch => 0 < length batch <= 10) batches.
Proof.
  split.
  - rewrite make_batches_concat by lia. reflexivity.
  - apply make_batches_sizes.
Qed.

Section Handler.

Variable server : nat -> payload -> axios_result.
Variable random : nat -> Q.
Variable clock : nat -> jsstring.
Variable JSON_parse : jsstring -> result value.
Variable JSON_stringify : value -> jsstring.
Variable text_splitter : nat -> nat -> jsstring -> result (list jsstring).

Lemma cleanAndFixJSON_frame s w :
  exists v w', cleanAndFixJSON clock JSON_parse s w = (Ok v, w')
               /\ same_traffic w w'.
Proof.
  unfold cleanAndFixJSON, try_catch, lift, bind, now, ret, same_traffic.
  destruct (JSON_parse s); [eauto 6|].
  destruct (JSON_parse (basicCleanup s)); [eauto 6|].
  destruct (JSON_parse (aggressiveCleanup (basicCleanup s))); eauto 6.
Qed.

Lemma parsedText_frame content w :
  exists t w', parsedText clock JSON_parse JSON_stringify content w = (Ok t, w')
               /\ same_traffic w w'.
Proof.
  unfold parsedText, try_catch.
  destruct (cleanAndFixJSON_frame content w) as (v & w' & H & Hs).
  rewrite (bind_ok H). unfold ret. eauto.
Qed.

Lemma addTimestamp_frame v w :
  same_traffic w (snd (addTimestamp clock v w)).
Proof.
  unfold addTimestamp, bind, now, ret, throw, same_traffic.
  destruct v as [ |b|t|s|items|ms]; try (simpl; auto).
  destruct (member (js "timestamp") ms) as [t|]; [|simpl; auto].
  destruct (truthy t); simpl; auto.
Qed.

Lemma answer_frame finalContent processed total w :
  exists result error w',
    answer clock JSON_parse JSON_stringify finalContent processed total w
    = (Ok (Analysis result processed total error), w')
    /\ same_traffic w w'.
Proof.
  unfold answer, try_catch.
  destruct (cleanAndFixJSON_frame finalContent w) as (v & w1 & H & Hs).
  rewrite (bind_ok H).
  assert (Ht := addTimestamp_frame v w1).
  unfold bind. destruct (addTimestamp clock v w1) as [[v'|e] w2]; simpl in Ht;
    unfold ret; do 3 eexists; (split; [reflexivity|]);
    unfold same_traffic in *; intuition congruence.
Qed.

Lemma short_pause_bounds x :
  (0 <= x)%Q -> (x < 1)%Q ->
  short_pause (num_add (Finite 1000) (num_scale (Finite x) 1000)).
Proof.
  intros H0 H1. cbn [num_scale].
  assert (U : (x * inject_Z 1000 <= inject_Z 1000)%Q).
  { change (inject_Z 1000) with 1000%Q. lra. }
  apply round_mono in U. rewrite (@round_int 1000) in U by lia.
  pose proof (round_nonneg (x * inject_Z 1000)) as L.
  destruct (round (x * inject_Z 1000)) as [j|]; cbn [num_le] in U, L;
    [|contradiction].
  change (inject_Z 1000) with 1000%Q in U. cbn [num_add]. split.
  - change (Finite 1000) with (Finite (inject_Z 1000)) at 1.
    rewrite <- (@round_int 1000) by lia. apply round_mono.
    change (inject_Z 1000) with 1000%Q. lra.
  - change (Finite 2000) with (Finite (inject_Z 2000)).
    rewrite <- (@round_int 2000) by lia. apply round_mono.
    change (inject_Z 2000) with 2000%Q. lra.
Qed.

Lemma pause_frame i total w :
  unit_interval random ->
  exists w' pauses,
    pause random i total w = (Ok tt, w')
    /\ sent w' = sent w
    /\ slept w' = pauses ++ slept w
    /\ length pauses = (if i <? total - 1 then 1 else 0)
    /\ Forall short_pause pauses.
Proof.
  intros Hr. unfold pause. destruct (i <? total - 1).
  - unfold bind, Math_random, sleep.
    exists (asleep (num_add (Finite 1000) (num_scale (Finite (random (drawn w))) 1000))
              (draw w)),
           [num_add (Finite 1000) (num_scale (Finite (random (drawn w))) 1000)].
    split; [reflexivity|]. split; [reflexivity|]. split; [reflexivity|].
    split; [reflexivity|].
    constructor; [|constructor].
    destruct (Hr (drawn w)) as [H0 H1]. apply short_pause_bounds; assumption.
  - exists w, []. unfold ret. repeat split; constructor.
Qed.

Lemma analyzeChunks_run :
  fulfilled server -> unit_interval random ->
  forall chunks i total w,
    i + length chunks = total ->
    exists chunkResults w' requests pauses,
      analyzeChunks server random clock JSON_parse JSON_stringify chunks i total w
      = (Ok chunkResults, w')
      /\ length chunkResults = length chunks
      /\ sent w' = requests ++ sent w
      /\ length requests = length chunks
      /\ Forall (fun p => is_analysis p = true) requests
      /\ slept w' = pauses ++ slept w
      /\ length pauses = length chunks - 1
      /\ Forall short_pause pauses.
Proof.
  intros Hful Hr. induction chunks as [|chunk rest IH]; intros i total w Hi.
  - exists [], w, [], []. simpl. unfold ret. repeat split; constructor.
  - cbn [analyzeChunks].
    unfold bind at 1. unfold now at 1.
    set (data := {| model := js "gpt-4o-mini";
                    system := AnalyzeComponent (i + 1) total (clock (ticks w));
                    user := chunk; stream := false |}).
    destruct (call_fulfilled random Hful data 5 (tick w)) as [r Hcall].
    rewrite (bind_ok Hcall).
    destruct (parsedText_frame (message_content r) (requested data (tick w)))
      as (t & w1 & Hp & Hs1 & Hz1 & _).
    rewrite (bind_ok Hp).
    destruct (pause_frame i total w1 Hr) as (w2 & ps & Hq & Hs2 & Hz2 & Hl2 & Hf2).
    rewrite (bind_ok Hq).
    destruct (IH (S i) total w2) as
      (results & w3 & reqs & pauses & Hrec & Hlr & Hs3 & Hlen & Hall & Hz3 & Hl3 & Hf3);
      [simpl in Hi; lia|].
    rewrite (bind_ok Hrec). unfold ret.
    exists (t :: results), w3, (reqs ++ [data]), (pauses ++ ps).
    split; [reflexivity|]. split; [simpl; lia|].
    split; [rewrite Hs3, Hs2, Hs1; simpl; rewrite <- app_assoc; reflexivity|].
    split; [rewrite length_app; simpl; lia|].
    split; [apply Forall_app; split; [exact Hall | repeat constructor]|].
    split; [rewrite Hz3, Hz2, Hz1; simpl; rewrite <- app_assoc; reflexivity|].
    split; [|apply Forall_app; split; assumption].
    rewrite length_app, Hl3, Hl2. simpl in Hi |- *.
    destruct (Nat.ltb_spec i (total - 1)); destruct rest; simpl in *; lia.
Qed.

Lemma summarizeBatches_run :
  fulfilled server -> unit_interval random ->
  forall batches i total w,
    i + length batches = total ->
    exists batchResults w' requests pauses,
      summarizeBatches server random clock JSON_parse JSON_stringify batches i total w
      = (Ok batchResults, w')
      /\ sent w' = requests ++ sent w
      /\ length requests = length batches
      /\ slept w' = pauses ++ slept w
      /\ length pauses = length batches - 1
      /\ Forall short_pause pauses.
Proof.
  intros Hful Hr. induction batches as [|batch rest IH]; intros i total w Hi.
  - exists [], w, [], []. simpl. unfold ret. repeat split; constructor.
  - cbn [summarizeBatches].
    unfold bind at 1. unfold now at 1.
    set (data := {| model := js "gpt-4o";
                    system := InterimReport (i + 1) total (clock (ticks w));
                    user := join chunkSeparator batch; stream := false |}).
    destruct (call_fulfilled random Hful data 5 (tick w)) as [r Hcall].
    rewrite (bind_ok Hcall).
    destruct (parsedText_frame (message_content r) (requested data (tick w)))
      as (t & w1 & Hp & Hs1 & Hz1 & _).
    rewrite (bind_ok Hp).
    destruct (pause_frame i total w1 Hr) as (w2 & ps & Hq & Hs2 & Hz2 & Hl2 & Hf2).
    rewrite (bind_ok Hq).
    destruct (IH (S i) total w2) as
      (results & w3 & reqs & pauses & Hrec & Hs3 & Hlen & Hz3 & Hl3 & Hf3);
      [simpl in Hi; lia|].
    rewrite (bind_ok Hrec). unfold ret.
    exists (t :: results), w3, (reqs ++ [data]), (pauses ++ ps).
    split; [reflexivity|].
    split; [rewrite Hs3, Hs2, Hs1; simpl; rewrite <- app_assoc; reflexivity|].
    split; [rewrite length_app; simpl; lia|].
    split; [rewrite Hz3, Hz2, Hz1; simpl; rewrite <- app_assoc; reflexivity|].
    split; [|apply Forall_app; split; assumption].
    rewrite length_app, Hl3, Hl2. simpl in Hi |- *.
    destruct (Nat.ltb_spec i (total - 1)); destruct rest; simpl in *; lia.
Qed.

Lemma summarize_run :
  fulfilled server -> unit_interval random ->
  forall chunkResults totalChunks w,
    0 < length chunkResults ->
    let n := length chunkResults in
    let calls := if 1 <? n then (n + 9) / 10 + 1 else 0 in
    exists result error w' requests pauses,
      summarize server random clock JSON_parse JSON_stringify chunkResults totalChunks w
      = (Ok (Analysis result (if 1 <? n then totalChunks else 1) totalChunks error), w')
      /\ sent w' = requests ++ sent w
      /\ length requests = calls
      /\ slept w' = pauses ++ slept w
      /\ length pauses = calls - 2
      /\ Forall short_pause pauses.
Proof.
  intros Hful Hr chunkResults totalChunks w Hpos n calls. unfold summarize.
  subst calls. fold n. destruct (Nat.ltb_spec 1 n) as [Hn|Hn].
  - set (batches := make_batches n 0 chunkResults).
    assert (Hb : length batches = (n + 9) / 10).
    { unfold batches, n. rewrite make_batches_length by lia.
      rewrite Nat.sub_0_r. reflexivity. }
    destruct (@summarizeBatches_run Hful Hr batches 0 (length batches) w eq_refl)
      as (results & w1 & reqs & pauses & Hrun & Hs1 & Hl1 & Hz1 & Hp1 & Hf1).
    rewrite (bind_ok Hrun).
    unfold bind at 1. unfold now at 1.
    set (data := {| model := js "gpt-4o";
                    system := FinalReport (length batches) (clock (ticks w1));
                    user := join batchSeparator results; stream := false |}).
    destruct (call_fulfilled random Hful data 5 (tick w1)) as [r Hcall].
    rewrite (bind_ok Hcall).
    destruct (answer_frame (message_content r) totalChunks totalChunks
                (requested data (tick w1)))
      as (result & error & w2 & Ha & Hs2 & Hz2 & _).
    exists result, error, w2, (data :: reqs), pauses.
    split; [exact Ha|].
    split; [rewrite Hs2; simpl; rewrite Hs1; reflexivity|].
    split; [cbn [length]; rewrite Hl1, Hb; lia|].
    split; [rewrite Hz2; simpl; exact Hz1|].
    split; [rewrite Hp1, Hb; lia | exact Hf1].
  - destruct chunkResults as [|chunkResult [|]]; simpl in n, Hpos; try (subst n; simpl in Hn; lia).
    destruct (answer_frame chunkResult 1 totalChunks w)
      as (result & error & w2 & Ha & Hs2 & Hz2 & _).
    exists result, error, w2, [], []. repeat split; auto.
Qed.

(** When the service fulfils every request, a text with [n] segments,
    [n] at least 1, is answered by an analysis that counts [n] chunks
    processed out of [n], after one request for each segment and, for
    more than one segment, one for each of the [ceil(n / 10)] batches
    and one for the final report. *)
Theorem analyzeSecurity_fulfilled (text : jsstring) (w : world) :
  fulfilled server -> unit_interval random ->
  let n := length (Segmenter.componentBasedChunking text_splitter text) in
  0 < n ->
  exists result error w',
    analyzeSecurity server random clock JSON_parse JSON_stringify text_splitter text w
    = (Ok (Analysis result n n error), w')
    /\ length (sent w')
       = length (sent w) + n + (if 1 <? n then (n + 9) / 10 + 1 else 0).
Proof.
  intros Hful Hr n Hn. unfold analyzeSecurity, try_catch.
  destruct text as [|c text'].
  { exfalso. revert Hn. unfold n. vm_compute. lia. }
  set (text := c :: text') in *.
  set (chunks := Segmenter.componentBasedChunking text_splitter text) in *.
  destruct (@analyzeChunks_run Hful Hr chunks 0 (length chunks) w eq_refl)
    as (results & w1 & reqs & pauses & Hrun & Hlr & Hs1 & Hl1 & _ & Hz1 & Hp1 & Hf1).
  rewrite (bind_ok Hrun).
  assert (Hpos : 0 < length results) by (rewrite Hlr; exact Hn).
  destruct (@summarize_run Hful Hr results (length chunks) w1 Hpos)
    as (result & error & w2 & reqs2 & pauses2 & Hsum & Hs2 & Hl2 & _).
  rewrite Hsum. rewrite Hlr in *. subst n.
  exists result, error, w2. split.
  - f_equal. f_equal. destruct (Nat.ltb_spec 1 (length chunks)); [reflexivity|].
    f_equal. lia.
  - rewrite Hs2, Hs1, !length_app, Hl2, Hl1. lia.
Qed.


End Handler.


Lemma bind_throw {A B} (m : M A) (k : A -> M B) w e w' :
  m w = (Throw e, w') -> bind m k w = (Throw e, w').
Proof. intros H. unfold bind. rewrite H. reflexivity. Qed.
Arguments bind_throw {A B m k w e w'} _.

Section HandlerAnswers.

Variable server : nat -> payload -> axios_result.
Variable random : nat -> Q.
Variable clock : nat -> jsstring.
Variable JSON_parse : jsstring -> result value.
Variable JSON_stringify : value -> jsstring.
Variable text_splitter : nat -> nat -> jsstring -> result (list jsstring).

(** A text that leaves no segment is refused with status 400, before
    any request, sleep or clock read: [Text is required] for the empty
    text, [No chunks could be processed] otherwise. *)
Theorem analyzeSecurity_nothing_to_process (text : jsstring) (w : world) :
  Segmenter.componentBasedChunking text_splitter text = [] ->
  analyzeSecurity server random clock JSON_parse JSON_stringify text_splitter text w
  = (Ok (BadRequest (match text with
                     | [] => js "Text is required"
                     | _ :: _ => js "No chunks could be processed"
                     end)), w).
Proof.
  intros Hnone. unfold analyzeSecurity, try_catch.
  destruct text as [|c text]; [reflexivity|].
  rewrite Hnone. reflexivity.
Qed.

Lemma call_rejected data maxRetries w m r :
  server (length (sent w)) data = Rejected m r ->
  (forall resp, r = Some resp -> status resp <> 429%Z) ->
  callOpenAIWithRetry server random data maxRetries w
  = (Throw (AxiosError m r), requested data w).
Proof.
  intros Hrej Hother. unfold callOpenAIWithRetry. rewrite retry_loop_eq.
  cbn [Nat.leb]. rewrite Hrej.
  replace (rate_limited (AxiosError m r)) with (@None error_response); [reflexivity|].
  simpl. destruct r as [resp|]; [|reflexivity].
  destruct (Z.eqb_spec (status resp) 429); [|reflexivity].
  exfalso. apply (Hother resp); auto.
Qed.

Lemma analyzeChunks_first_throws chunk rest w e w' :
  callOpenAIWithRetry server random (first_request clock (chunk :: rest) w) 5 (tick w)
  = (Throw e, w') ->
  analyzeChunks server random clock JSON_parse JSON_stringify
    (chunk :: rest) 0 (length (chunk :: rest)) w
  = (Throw e, w').
Proof.
  intros H. cbn [analyzeChunks]. unfold bind at 1. unfold now. cbv beta iota.
  apply bind_throw. exact H.
Qed.

(** When the first request is rejected with an error that is no
    rate-limit rejection, the handler stops there, after that one
    request: it answers with the status and the body of the rejection
    when the service answered, and with status 500 and the message of
    the error otherwise. *)
Theorem analyzeSecurity_remote_failure
    (text : jsstring) (w : world) (m : jsstring) (r : option error_response) :
  let chunks := Segmenter.componentBasedChunking text_splitter text in
  chunks <> [] ->
  server (length (sent w)) (first_request clock chunks w) = Rejected m r ->
  (forall resp, r = Some resp -> status resp <> 429%Z) ->
  analyzeSecurity server random clock JSON_parse JSON_stringify text_splitter text w
  = (Ok (match r with
         | Some resp => RemoteFailure (status resp) (data resp)
         | None => ServerError m
         end),
     requested (first_request clock chunks w) (tick w)).
Proof.
  intros chunks Hne Hrej Hother. unfold analyzeSecurity, try_catch.
  destruct text as [|c text'].
  { exfalso. apply Hne. reflexivity. }
  fold chunks. destruct chunks as [|chunk rest]; [congruence|].
  rewrite (bind_throw
             (analyzeChunks_first_throws chunk rest w
                (@call_rejected _ 5 (tick w) m r Hrej Hother))).
  destruct r; reflexivity.
Qed.

(** When every request is rejected for the rate limit, a text with at
    least one segment is answered with status 500 and the message of
    the exhausted retries, after the six attempts of the first call. *)
Theorem analyzeSecurity_exhausted (text : jsstring) (w : world) :
  always_rate_limited server ->
  Segmenter.componentBasedChunking text_splitter text <> [] ->
  exists w',
    analyzeSecurity server random clock JSON_parse JSON_stringify text_splitter text w
    = (Ok (ServerError (js "Failed after 5 retries")), w')
    /\ length (sent w') = length (sent w) + 6.
Proof.
  intros Hall Hne. unfold analyzeSecurity, try_catch.
  destruct text as [|c text'].
  { exfalso. apply Hne. reflexivity. }
  destruct (Segmenter.componentBasedChunking text_splitter (c :: text'))
    as [|chunk rest]; [congruence|].
  destruct (@retry_loop_exhausts server random
              (first_request clock (chunk :: rest) w) 5 Hall 6 0 (tick w) eq_refl)
    as (w' & Hcall & Hsent & _).
  rewrite (bind_throw (analyzeChunks_first_throws chunk rest w Hcall)).
  exists w'. split; [reflexivity|].
  rewrite Hsent, length_app, repeat_length. simpl. lia.
Qed.

Lemma member_set_member_same key v ms :
  member key (set_member key v ms) = Some v.
Proof.
  induction ms as [|[k w] ms IH]; simpl.
  - rewrite (proj2 (eqb_eq key key) eq_refl). reflexivity.
  - destruct (eqb k key) eqn:E; simpl; rewrite E; [reflexivity | exact IH].
Qed.

(** [addTimestamp] leaves a report that is an object with a truthy
    time stamp as it is, without reading the clock.  Otherwise (no
    stamp, or a falsy one such as the empty string or [null]) the stamp
    becomes the time of the clock; in both cases the other members are
    as they were. *)
Theorem addTimestamp_object (members : list (jsstring * value)) (w : world) :
  exists members' w',
    addTimestamp clock (JObject members) w = (Ok (JObject members'), w')
    /\ (forall key, key <> js "timestamp" -> member key members' = member key members)
    /\ (if match member (js "timestamp") members with
           | Some t => truthy t
           | None => false
           end
        then members' = members /\ w' = w
        else member (js "timestamp") members' = Some (JString (clock (ticks w)))
             /\ w' = tick w).
Proof.
  unfold addTimestamp, bind, now, ret.
  assert (Hother : forall t key,
             key <> js "timestamp" ->
             member key (set_member (js "timestamp") t members) = member key members).
  { intros t key Hk. apply member_set_member_other. exact Hk. }
  destruct (member (js "timestamp") members) as [t|] eqn:Hm.
  - destruct (truthy t) eqn:Ht.
    + exists members, w. split; [reflexivity|]. split; auto.
    + eexists _, _. split; [reflexivity|].
      rewrite member_set_member_same. split; [apply Hother | split; reflexivity].
  - eexists _, _. split; [reflexivity|].
    rewrite member_set_member_same. split; [apply Hother | split; reflexivity].
Qed.

(** The answer made of a final text never fails: it is an analysis with
    the counters it was given.  A text that yields [null] is sent back
    as it is, with the message of the failure after [JSON parsing
    failed: ]; any other report is serialized, with its time stamp, and
    no error is reported. *)
Theorem answer_cases
    (finalContent : jsstring) (processedChunks totalChunks : nat)
    (w w1 : world) (report : value) :
  cleanAndFixJSON clock JSON_parse finalContent w = (Ok report, w1) ->
  match report with
  | JNull =>
      exists message,
        answer clock JSON_parse JSON_stringify finalContent
          processedChunks totalChunks w
        = (Ok (Analysis finalContent processedChunks totalChunks
                 (Some (js "JSON parsing failed: " ++ message))),
           w1)
  | _ =>
      exists final w2,
        addTimestamp clock report w1 = (Ok final, w2)
        /\ answer clock JSON_parse JSON_stringify finalContent
             processedChunks totalChunks w
           = (Ok (Analysis (JSON_stringify final) processedChunks totalChunks None), w2)
  end.
Proof.
  intros Hrun. unfold answer, try_catch. rewrite (bind_ok Hrun).
  destruct report as [ |b|t|s|items|ms]; try (eexists; reflexivity);
    unfold bind;
    destruct (addTimestamp clock _ w1) as [[final|e] w2] eqn:Ha;
    try (eexists _, _; split; reflexivity);
    exfalso; revert Ha; unfold addTimestamp, bind, now, ret; try discriminate.
  destruct (member (js "timestamp") ms) as [t|]; [|discriminate].
  destruct (truthy t); discriminate.
Qed.

End HandlerAnswers.


(** ** The endpoint [/api/openai] *)

Section ProxyAnswers.

Variable server : nat -> payload -> axios_result.
Variable random : nat -> Q.

(** A body rejected [k] times for the rate limit, [k] at most 5, and
    fulfilled at the next attempt is answered with the response of the
    service, after [k + 1] requests with that body. *)
Theorem openaiProxy_forwards (body : payload) (k : nat) (w : world) (r : response) :
  k <= 5 ->
  rate_limited_for server body w k ->
  server (length (sent w) + k) body = Resolved r ->
  exists w',
    openaiProxy server random body w = (Ok (Forwarded r), w')
    /\ sent w' = repeat body (k + 1) ++ sent w.
Proof.
  intros Hk Hrl Hlast. unfold openaiProxy, try_catch.
  destruct (@retry_loop_fulfilled server random body 5 r k 0 w Hk Hrl Hlast)
    as (w' & Hcall & Hsent & _).
  unfold callOpenAIWithRetry. rewrite (bind_ok Hcall). unfold ret.
  exists w'. split; [reflexivity|].
  rewrite Hsent. replace (k + 1) with (S k) by lia. reflexivity.
Qed.

(** An error that is no rate-limit rejection, met after [k]
    rejections for the rate limit, is answered at once: with the status
    and the body of the rejection when the service answered, with
    status 500 and the message of the error otherwise. *)
Theorem openaiProxy_failure
    (body : payload) (k : nat) (w : world) (m : jsstring) (r : option error_response) :
  k <= 5 ->
  rate_limited_for server body w k ->
  server (length (sent w) + k) body = Rejected m r ->
  (forall resp, r = Some resp -> status resp <> 429%Z) ->
  exists w',
    openaiProxy server random body w
    = (Ok (match r with
           | Some resp => ProxyFailure (status resp) (data resp)
           | None => ProxyError m
           end), w')
    /\ sent w' = repeat body (k + 1) ++ sent w.
Proof.
  intros Hk Hrl Hlast Hother. unfold openaiProxy, try_catch.
  destruct (@retry_loop_other_error server random body 5 m r Hother k 0 w Hk Hrl Hlast)
    as (w' & Hcall & Hsent & _).
  unfold callOpenAIWithRetry. rewrite (bind_throw Hcall).
  exists w'. split; [destruct r; reflexivity|].
  rewrite Hsent. replace (k + 1) with (S k) by lia. reflexivity.
Qed.

(** When every request is rejected for the rate limit the endpoint
    answers with status 500 and the message of the exhausted retries,
    after six requests. *)
Theorem openaiProxy_exhausted (body : payload) (w : world) :
  always_rate_limited server ->
  exists w',
    openaiProxy server random body w
    = (Ok (ProxyError (js "Failed after 5 retries")), w')
    /\ sent w' = repeat body 6 ++ sent w.
Proof.
  intros Hall. unfold openaiProxy, try_catch.
  destruct (@retry_loop_exhausts server random body 5 Hall 6 0 w eq_refl)
    as (w' & Hcall & Hsent & _).
  unfold callOpenAIWithRetry. rewrite (bind_throw Hcall).
  exists w'. split; [reflexivity | exact Hsent].
Qed.

End ProxyAnswers.

(** ** The relevance ranker *)

Section RankerFacts.

Variable number : Type.
Variable zero : number.
Variable not_a_number : number.
Variables plus minus times divide : number -> number -> number.
Variable Math_sqrt : number -> number.
Variable embedQuery : jsstring -> result (list number).
Variable embedDocuments : list jsstring -> result (list (list number)).
Variable sort : forall A : Type, (A -> A -> number) -> list A -> list A.
Variable text_splitter : nat -> nat -> jsstring -> result (list jsstring).

(** When the embedding of the query or of the chunks throws, the
    ranker gives the first [topK] chunks, in their order. *)
Theorem findRelevantChunks_fallback
    (query : jsstring) (chunks : list jsstring) (topK : nat) :
  (exists e, embedQuery query = Throw e) \/ (exists e, embedDocuments chunks = Throw e) ->
  findRelevantChunks zero not_a_number plus minus times divide Math_sqrt
    embedQuery embedDocuments sort query chunks topK
  = map Some (firstn topK chunks).
Proof.
  unfold findRelevantChunks, createEmbeddings_query, createEmbeddings_documents.
  intros [[e He]|[e He]]; rewrite He; [reflexivity|].
  destruct (embedQuery query); reflexivity.
Qed.

Lemma with_index_indices (similarities : list number) :
  forall i, map (@index number) (with_index i similarities)
            = seq i (length similarities).
Proof.
  induction similarities as [|s rest IH]; intros i; simpl; [reflexivity|].
  rewrite IH. reflexivity.
Qed.

Lemma NoDup_firstn {A} (k : nat) (l : list A) : NoDup l -> NoDup (firstn k l).
Proof.
  intros H. rewrite <- (firstn_skipn k l) in H.
  apply NoDup_app_remove_r in H. exact H.
Qed.

Lemma In_firstn {A} (k : nat) (l : list A) x : In x (firstn k l) -> In x l.
Proof.
  intros H. rewrite <- (firstn_skipn k l). apply in_or_app. left. exact H.
Qed.

(** When both embeddings succeed, with one vector for each chunk, and
    [sort] permutes what it sorts, the ranker gives [min(topK, n)]
    chunks of the [n] it was given, taken at distinct positions: no
    chunk is returned twice and no entry is undefined. *)
Theorem findRelevantChunks_selects
    (query : jsstring) (chunks : list jsstring) (topK : nat)
    (queryEmbedding : list number) (chunkEmbeddings : list (list number)) :
  (forall A cmp l, Permutation (@sort A cmp l) l) ->
  embedQuery query = Ok queryEmbedding ->
  embedDocuments chunks = Ok chunkEmbeddings ->
  length chunkEmbeddings = length chunks ->
  exists indices,
    findRelevantChunks zero not_a_number plus minus times divide Math_sqrt
      embedQuery embedDocuments sort query chunks topK
    = map (fun i => nth_error chunks i) indices
    /\ NoDup indices
    /\ Forall (fun i => i < length chunks) indices
    /\ length indices = Nat.min topK (length chunks).
Proof.
  intros Hsort Hq Hd Hlen.
  unfold findRelevantChunks, createEmbeddings_query, createEmbeddings_documents.
  rewrite Hq, Hd.
  set (similarities := map _ chunkEmbeddings).
  exists (topIndices minus sort similarities topK). split; [reflexivity|].
  unfold topIndices.
  set (sorted := sort _ _).
  assert (Hperm : Permutation (map (@index number) sorted)
                              (seq 0 (length chunks))).
  { unfold sorted. eapply Permutation_trans; [apply Permutation_map, Hsort|].
    rewrite with_index_indices. unfold similarities.
    rewrite length_map, Hlen. apply Permutation_refl. }
  rewrite <- firstn_map. split; [|split].
  - apply NoDup_firstn.
    apply (Permutation_NoDup (Permutation_sym Hperm)). apply seq_NoDup.
  - apply Forall_forall. intros i Hi.
    apply In_firstn in Hi.
    apply (Permutation_in _ Hperm) in Hi. apply in_seq in Hi. lia.
  - rewrite length_firstn, (Permutation_length Hperm), length_seq. reflexivity.
Qed.

(** [/api/process-text] refuses the empty text.  For another text it
    answers with all the chunks of the sliding window when the query is
    missing or empty, and with at most three entries when there is a
    query. *)
Theorem processText_chunks (text : jsstring) (query : option jsstring) :
  let chunks :=
    Segmenter.chunkWithSlidingWindow text_splitter text
      Segmenter.defaultChunkSize Segmenter.defaultChunkOverlap in
  let reply :=
    processText zero not_a_number plus minus times divide Math_sqrt
      embedQuery embedDocuments sort text_splitter text query in
  match text, query with
  | [], _ => reply = TextRequired
  | _ :: _, Some (_ :: _) => exists entries, reply = Chunks entries /\ length entries <= 3
  | _ :: _, _ => reply = Chunks (map Some chunks)
  end.
Proof.
  intros chunks reply. subst reply. unfold processText.
  destruct text as [|c text]; [reflexivity|].
  destruct query as [[|q0 q]|]; try reflexivity.
  fold chunks. eexists. split; [reflexivity|].
  unfold findRelevantChunks, topIndices.
  destruct (createEmbeddings_query embedQuery (q0 :: q));
    [destruct (createEmbeddings_documents embedDocuments chunks)|];
    cbv zeta; rewrite ?length_map, length_firstn; lia.
Qed.

End RankerFacts.


(** ** The further properties at work *)

Lemma callOpenAIWithRetry_retries_until_fulfilled_witness :
  exists w',
    callOpenAIWithRetry Sample.busy_once Sample.no_jitter Sample.request 5 world0
    = (Ok {| response_status := 200; message_content := js "{}" |}, w')
    /\ sent w' = repeat Sample.request (1 + 1) ++ sent world0
    /\ length (slept w') = 1 + length (slept world0).
Proof.
  apply (@callOpenAIWithRetry_retries_until_fulfilled Sample.busy_once Sample.no_jitter
           Sample.request 5 1 world0).
  - lia.
  - intros i Hi. destruct i as [|i]; [|lia].
    do 2 eexists. split; reflexivity.
  - reflexivity.
Defined.

Lemma waitTimeOf_without_decimal_witness :
  waitTimeOf MoreSamples.whole_seconds = Finite 30000.
Proof.
  apply waitTimeOf_without_decimal.
  intros message H. injection H as <-. vm_compute. reflexivity.
Defined.

Lemma chunkWithSlidingWindow_fallback_witness :
  concat (chunkWithSlidingWindow Sample.no_splitter (js "abcdefg") 3 1) = js "abcdefg"
  /\ Forall (fun c => 0 < length c <= 3)
            (chunkWithSlidingWindow Sample.no_splitter (js "abcdefg") 3 1)
  /\ length (chunkWithSlidingWindow Sample.no_splitter (js "abcdefg") 3 1)
     = (length (js "abcdefg") + 3 - 1) / 3.
Proof.
  apply (@chunkWithSlidingWindow_fallback Sample.no_splitter (js "abcdefg") 3 1
           (Error (js "splitter unavailable"))).
  - lia.
  - reflexivity.
Defined.

Lemma structuralPass_at_most_paragraphs_witness :
  length [js "[COMPONENT]" ++ [LF] ++ Sample.web_server]
  <= length (paragraphs Sample.web_server).
Proof.
  apply structuralPass_at_most_paragraphs. vm_compute. reflexivity.
Defined.

Lemma no_jitter_unit_interval : unit_interval Sample.no_jitter.
Proof. intros n. split; [apply Qle_refl | reflexivity]. Qed.

Lemma obliging_fulfilled : fulfilled Sample.obliging.
Proof. intros n p. eexists. reflexivity. Qed.

Lemma saturated_rate_limited : always_rate_limited Sample.saturated.
Proof. intros n p. do 2 eexists. split; reflexivity. Qed.

Lemma analyzeSecurity_fulfilled_witness :
  exists result error w',
    analyzeSecurity Sample.obliging Sample.no_jitter Sample.clock
      JsonText.json_parse JsonText.json_stringify Sample.whole_text
      MoreSamples.two_components world0
    = (Ok (Analysis result 2 2 error), w')
    /\ length (sent w') = 0 + 2 + 2.
Proof.
  apply (@analyzeSecurity_fulfilled Sample.obliging Sample.no_jitter Sample.clock
           JsonText.json_parse JsonText.json_stringify Sample.whole_text
           MoreSamples.two_components world0
           obliging_fulfilled no_jitter_unit_interval).
  vm_compute. lia.
Defined.


Lemma analyzeSecurity_nothing_to_process_witness :
  analyzeSecurity Sample.obliging Sample.no_jitter Sample.clock
    JsonText.json_parse JsonText.json_stringify Sample.whole_text (js "hi") world0
  = (Ok (BadRequest (js "No chunks could be processed")), world0).
Proof.
  apply (@analyzeSecurity_nothing_to_process Sample.obliging Sample.no_jitter
           Sample.clock JsonText.json_parse JsonText.json_stringify
           Sample.whole_text (js "hi") world0).
  vm_compute. reflexivity.
Defined.

Lemma analyzeSecurity_remote_failure_witness :
  analyzeSecurity MoreSamples.unauthorized Sample.no_jitter Sample.clock
    JsonText.json_parse JsonText.json_stringify Sample.whole_text
    Sample.web_server world0
  = (Ok (RemoteFailure 401
           {| error_message := Some (js "Incorrect API key provided") |}),
     requested
       (first_request Sample.clock
          (componentBasedChunking Sample.whole_text Sample.web_server) world0)
       (tick world0)).
Proof.
  apply (@analyzeSecurity_remote_failure MoreSamples.unauthorized Sample.no_jitter
           Sample.clock JsonText.json_parse JsonText.json_stringify
           Sample.whole_text Sample.web_server world0 (js "Request failed")
           (Some {| status := 401;
                    data := {| error_message :=
                                 Some (js "Incorrect API key provided") |} |})).
  - vm_compute. discriminate.
  - reflexivity.
  - intros resp H. injection H as <-. discriminate.
Defined.

Lemma analyzeSecurity_exhausted_witness :
  exists w',
    analyzeSecurity Sample.saturated Sample.no_jitter Sample.clock
      JsonText.json_parse JsonText.json_stringify Sample.whole_text
      Sample.web_server world0
    = (Ok (ServerError (js "Failed after 5 retries")), w')
    /\ length (sent w') = length (sent world0) + 6.
Proof.
  apply (@analyzeSecurity_exhausted Sample.saturated Sample.no_jitter Sample.clock
           JsonText.json_parse JsonText.json_stringify Sample.whole_text
           Sample.web_server world0 saturated_rate_limited).
  vm_compute. discriminate.
Defined.

Lemma answer_cases_witness :
  exists message,
    answer Sample.clock JsonText.json_parse JsonText.json_stringify
      (js "null") 1 1 world0
    = (Ok (Analysis (js "null") 1 1 (Some (js "JSON parsing failed: " ++ message))),
       world0).
Proof.
  apply (@answer_cases Sample.clock JsonText.json_parse JsonText.json_stringify
           (js "null") 1 1 world0 world0 JNull).
  vm_compute. reflexivity.
Defined.

Lemma openaiProxy_forwards_witness :
  exists w',
    openaiProxy Sample.busy_once Sample.no_jitter Sample.request world0
    = (Ok (Forwarded {| response_status := 200; message_content := js "{}" |}), w')
    /\ sent w' = repeat Sample.request (1 + 1) ++ sent world0.
Proof.
  apply (@openaiProxy_forwards Sample.busy_once Sample.no_jitter Sample.request
           1 world0).
  - lia.
  - intros i Hi. destruct i as [|i]; [|lia].
    do 2 eexists. split; reflexivity.
  - reflexivity.
Defined.

Lemma openaiProxy_failure_witness :
  exists w',
    openaiProxy Sample.locked Sample.no_jitter Sample.request world0
    = (Ok (ProxyFailure 401
             {| error_message := Some (js "Incorrect API key provided") |}), w')
    /\ sent w' = repeat Sample.request (2 + 1) ++ sent world0.
Proof.
  apply (@openaiProxy_failure Sample.locked Sample.no_jitter Sample.request
           2 world0 (js "Request failed")
           (Some {| status := 401;
                    data := {| error_message :=
                                 Some (js "Incorrect API key provided") |} |})).
  - lia.
  - intros i Hi. destruct i as [|[|i]]; [| |lia];
      do 2 eexists; (split; [reflexivity|]); reflexivity.
  - reflexivity.
  - intros resp H. injection H as <-. discriminate.
Defined.

Lemma openaiProxy_exhausted_witness :
  exists w',
    openaiProxy Sample.saturated Sample.no_jitter Sample.request world0
    = (Ok (ProxyError (js "Failed after 5 retries")), w')
    /\ sent w' = repeat Sample.request 6 ++ sent world0.
Proof.
  apply (@openaiProxy_exhausted Sample.saturated Sample.no_jitter Sample.request
           world0 saturated_rate_limited).
Defined.

Lemma findRelevantChunks_fallback_witness :
  findRelevantChunks 0%Q 0%Q Qplus Qminus Qmult Qdiv MoreSamples.same_number
    MoreSamples.embedding_down_query MoreSamples.embedding_down_documents
    MoreSamples.keep_order (js "query") [js "a"; js "b"; js "c"; js "d"] 3
  = map Some (firstn 3 [js "a"; js "b"; js "c"; js "d"]).
Proof.
  apply findRelevantChunks_fallback. left. eexists. reflexivity.
Defined.

Lemma findRelevantChunks_selects_witness :
  exists indices,
    findRelevantChunks 0%Q 0%Q Qplus Qminus Qmult Qdiv MoreSamples.same_number
      MoreSamples.flat_query MoreSamples.flat_documents
      MoreSamples.keep_order (js "query") [js "a"; js "b"; js "c"; js "d"] 3
    = map (fun i => nth_error [js "a"; js "b"; js "c"; js "d"] i) indices
    /\ NoDup indices
    /\ Forall (fun i => i < length [js "a"; js "b"; js "c"; js "d"]) indices
    /\ length indices = Nat.min 3 (length [js "a"; js "b"; js "c"; js "d"]).
Proof.
  apply (@findRelevantChunks_selects Q 0%Q 0%Q Qplus Qminus Qmult Qdiv
           MoreSamples.same_number MoreSamples.flat_query MoreSamples.flat_documents
           MoreSamples.keep_order (js "query") [js "a"; js "b"; js "c"; js "d"] 3
           [1%Q] [[1%Q]; [1%Q]; [1%Q]; [1%Q]]).
  - intros A cmp l. apply Permutation_refl.
  - reflexivity.
  - reflexivity.
  - reflexivity.
Defined.

(** A timestamp that is a number too small for a double is 0 for
    [JSON.parse], hence falsy: it is replaced. *)
Example addTimestamp_tiny_number :
  addTimestamp Sample.clock
    (JObject [(js "timestamp", JNumber (js "1e-400"))]) world0
  = (Ok (JObject [(js "timestamp", JString (Sample.clock 0))]), tick world0).
Proof. vm_compute. reflexivity. Qed.

(** The pause between two calls reaches 2000 ms when the random number
    is the double just under 1: the sum is rounded to the nearest
    double. *)
Example pause_of_last_double :
  slept (snd (pause MoreSamples.last_double 0 2 world0)) = [Finite 2000].
Proof. vm_compute. reflexivity. Qed.
